(** * Real-time news backend: ingestion, deduplication, persistence, fanout

    A shallow embedding of
      - src/services/newsService.js   (class NewsService),
      - src/services/newsScheduler.js (class NewsScheduler),
      - src/websocket/socketHandler.js (broadcastNews),
      - src/config/redis.js           (getRedisClient),
      - src/models/News.js            (the Mongoose schema),
    and the properties of the pipeline proved about it.

    Conventions.  A JavaScript string is a [string]; one [ascii] stands for
    one code unit, so [String.length] is JavaScript's [.length].  A property
    that may be [undefined] is an [option].  A function that may throw
    returns a [result]; a function that also reads or writes the process'
    mutable state (the Mongo collection, the Redis client, the socket
    server) lives in the monad [M]. *)

From Stdlib Require Import Ascii String QArith.
From stdpp Require Import base option list strings gmap sorting.

Local Open Scope string_scope.
Local Open Scope list_scope.

(** ** Exceptions and fallible computations *)

Inductive Exn :=
  | TypeError            (* property access on undefined *)
  | ValidationError      (* Mongoose schema validation on save *)
  | DuplicateKeyError    (* unique index violated (E11000) *)
  | ClientClosedError    (* command sent on a Redis client that is not open *)
  | TransportError.      (* socket.io emit failed *)

Inductive result (A : Type) :=
  | Ok (a : A)
  | Throw (e : Exn).
Arguments Ok {A} a.
Arguments Throw {A} e.

#[global] Instance result_ret : MRet result := λ A a, Ok a.
#[global] Instance result_bind : MBind result := λ A B f r,
  match r with
  | Ok a => f a
  | Throw e => Throw e
  end.

Definition isOk {A} (r : result A) : bool :=
  match r with Ok _ => true | Throw _ => false end.

(** ** JavaScript values used by the service *)

(** [new Date(x)]: a time value in milliseconds, or Invalid Date. *)
Inductive JSDate :=
  | DateValue (ms : Z)
  | InvalidDate.

(** What [categoryMap[category] || category] can evaluate to: a string, or a
    member that the object literal inherits from [Object.prototype]. *)
Inductive CategoryValue :=
  | Label (s : string)
  | Inherited (name : string).

#[global] Instance JSDate_eq_dec : EqDecision JSDate.
Proof. solve_decision. Defined.
#[global] Instance CategoryValue_eq_dec : EqDecision CategoryValue.
Proof. solve_decision. Defined.

(** The object literal built by both adapters ([newsItem]). *)
Record NewsItem := {
  title : option string;
  summary : string;
  source : string;
  url : option string;
  publishedAt : JSDate;
  category : CategoryValue;
  image : option string;
  sourceHash : string
}.

#[global] Instance NewsItem_eq_dec : EqDecision NewsItem.
Proof. solve_decision. Defined.

(** Truthiness, [||] and string coercion. *)
Definition truthyString (s : string) : bool :=
  match s with EmptyString => false | String _ _ => true end.

Definition truthy (v : option string) : bool :=
  match v with Some s => truthyString s | None => false end.

(** A [Date] is an object, and every object is truthy. *)
Definition truthyDate (d : JSDate) : bool := true.

(** [a || b] on possibly undefined strings. *)
Definition jsOr (a b : option string) : option string :=
  if truthy a then a else b.

(** [String(v)], as in [a + b] with a string operand. *)
Definition toStr (v : option string) : string :=
  match v with Some s => s | None => "undefined" end.

(** White space of [\s] and of [trim], on the code units modelled here. *)
Definition isWhitespace (c : ascii) : bool :=
  let n := nat_of_ascii c in
  (Nat.leb 9 n && Nat.leb n 13) || Nat.eqb n 32 || Nat.eqb n 160.

Fixpoint trimStart (s : string) : string :=
  match s with
  | EmptyString => EmptyString
  | String c s' => if isWhitespace c then trimStart s' else s
  end.

Fixpoint trimEnd (s : string) : string :=
  match s with
  | EmptyString => EmptyString
  | String c s' =>
      match trimEnd s' with
      | EmptyString => if isWhitespace c then EmptyString else String c EmptyString
      | r => String c r
      end
  end.

Definition trim (s : string) : string := trimEnd (trimStart s).

(** [s.substring(0, n)] *)
Fixpoint substring0 (n : nat) (s : string) : string :=
  match n, s with
  | S n', String c s' => String c (substring0 n' s')
  | _, _ => EmptyString
  end.

(** [s.startsWith(p)] *)
Fixpoint startsWith (p s : string) : bool :=
  match p, s with
  | EmptyString, _ => true
  | String a p', String b s' => if decide (a = b) then startsWith p' s' else false
  | String _ _, EmptyString => false
  end.

(** ** [Map]: insertion-ordered, keys compared by value *)

Section JSMap.
Context {K V : Type} `{EqDecision K}.

Fixpoint Map_has (m : list (K * V)) (k : K) : bool :=
  match m with
  | [] => false
  | (k', _) :: m' => if decide (k = k') then true else Map_has m' k
  end.

(** [set] keeps the position of a key that is already present. *)
Fixpoint Map_set (m : list (K * V)) (k : K) (v : V) : list (K * V) :=
  match m with
  | [] => [(k, v)]
  | (k', v') :: m' =>
      if decide (k = k') then (k, v) :: m' else (k', v') :: Map_set m' k v
  end.

Definition Map_values (m : list (K * V)) : list V := m.*2.
Definition Map_keys (m : list (K * V)) : list K := m.*1.

End JSMap.

(** ** The dedup engine: [processAndDeduplicateNews] *)

Section Dedup.
(** [String.prototype.toLowerCase] and [compareTwoStrings] of the npm
    package string-similarity are used as given; the score is the exact
    value of the quotient the package returns. *)
Variable toLowerCase : string → string.
Variable compareTwoStrings : string → string → Q.

(** [titleSimilarity > 0.8] *)
Definition aboveThreshold (titleSimilarity : Q) : bool :=
  negb (Qle_bool titleSimilarity (8 # 10)).

(** [item.title.toLowerCase()] *)
Definition lowerTitle (item : NewsItem) : result string :=
  match title item with
  | Some t => Ok (toLowerCase t)
  | None => Throw TypeError
  end.

(** First phase: the callback of [newsItems.forEach] filling [uniqueByHash]. *)
Definition collapseStep (uniqueByHash : list (string * NewsItem)) (item : NewsItem)
  : list (string * NewsItem) :=
  if negb (Map_has uniqueByHash (sourceHash item))
  then Map_set uniqueByHash (sourceHash item) item
  else uniqueByHash.

Definition uniqueItems (newsItems : list NewsItem) : list NewsItem :=
  Map_values (foldl collapseStep [] newsItems).

(** The inner [for ... of processedItems] with its [break]. *)
Fixpoint isDuplicate (item : NewsItem) (processedItems : list NewsItem) : result bool :=
  match processedItems with
  | [] => Ok false
  | existingItem :: rest =>
      a ← lowerTitle item;
      b ← lowerTitle existingItem;
      if aboveThreshold (compareTwoStrings a b) then Ok true
      else isDuplicate item rest
  end.

(** The outer [for ... of uniqueItems]; [push] appends at the end. *)
Fixpoint similarityScan (items processedItems : list NewsItem) : result (list NewsItem) :=
  match items with
  | [] => Ok processedItems
  | item :: rest =>
      dup ← isDuplicate item processedItems;
      if negb dup then similarityScan rest (processedItems ++ [item])
      else similarityScan rest processedItems
  end.

Definition processAndDeduplicateNews (newsItems : list NewsItem) : result (list NewsItem) :=
  similarityScan (uniqueItems newsItems) [].

(** Case-insensitive similarity above the threshold, as a proposition:
    [item] is the candidate, [existingItem] the accepted item. *)
Definition similarTitles (item existingItem : NewsItem) : Prop :=
  ∃ t t', title item = Some t ∧ title existingItem = Some t' ∧
    (8 # 10 < compareTwoStrings (toLowerCase t) (toLowerCase t'))%Q.

Definition titled (item : NewsItem) : Prop := is_Some (title item).

End Dedup.

(** ** Instances of the two library functions, for running the engine *)

Module StringSimilarity.

(** [str.replace(/\s+/g, '')] *)
Fixpoint stripWhitespace (s : string) : string :=
  match s with
  | EmptyString => EmptyString
  | String c s' =>
      if isWhitespace c then stripWhitespace s' else String c (stripWhitespace s')
  end.

(** All [substring(i, i + 2)] for [i < length - 1]. *)
Fixpoint bigrams (s : string) : list (ascii * ascii) :=
  match s with
  | String a (String b _ as s') => (a, b) :: bigrams s'
  | _ => []
  end.

(** Decrement the count of [bg] in the bigram table, if it is positive. *)
Fixpoint takeBigram (bg : ascii * ascii) (table : list (ascii * ascii))
  : option (list (ascii * ascii)) :=
  match table with
  | [] => None
  | bg' :: table' =>
      if decide (bg = bg') then Some table'
      else (λ t, bg' :: t) <$> takeBigram bg table'
  end.

Fixpoint intersectionSize (second table : list (ascii * ascii)) : nat :=
  match second with
  | [] => 0
  | bg :: second' =>
      match takeBigram bg table with
      | Some table' => S (intersectionSize second' table')
      | None => intersectionSize second' table
      end
  end.

(** The Sorensen-Dice coefficient on bigrams, as the package computes it. *)
Definition compareTwoStrings (first second : string) : Q :=
  let first := stripWhitespace first in
  let second := stripWhitespace second in
  if decide (first = second) then 1%Q
  else if Nat.ltb (String.length first) 2 || Nat.ltb (String.length second) 2 then 0%Q
  else
    Z.of_nat (2 * intersectionSize (bigrams second) (bigrams first))
    # Pos.of_nat (String.length first + String.length second - 2).

(** [toLowerCase] on the code units modelled here. *)
Definition lowerChar (c : ascii) : ascii :=
  let n := nat_of_ascii c in
  if (Nat.leb 65 n && Nat.leb n 90)
     || (Nat.leb 192 n && Nat.leb n 222 && negb (Nat.eqb n 215))
  then ascii_of_nat (n + 32) else c.

Fixpoint toLowerCase (s : string) : string :=
  match s with
  | EmptyString => EmptyString
  | String c s' => String (lowerChar c) (toLowerCase s')
  end.

End StringSimilarity.

(** ** Normalisation helpers of [NewsService] *)

(** The object literal [categoryMap]. *)
Definition categoryMap : list (string * string) :=
  [("tech", "technology"); ("sci", "science");
   ("entertainment", "entertainment"); ("sport", "sports")].

(** The members every object literal inherits from [Object.prototype]; a
    lookup of one of these names yields a function or an object, which is
    truthy. *)
Definition Object_prototype : list string :=
  ["constructor"; "__defineGetter__"; "__defineSetter__"; "hasOwnProperty";
   "__lookupGetter__"; "__lookupSetter__"; "isPrototypeOf";
   "propertyIsEnumerable"; "toString"; "valueOf"; "__proto__";
   "toLocaleString"].

Fixpoint ownProperty (obj : list (string * string)) (key : string) : option string :=
  match obj with
  | [] => None
  | (k, v) :: obj' => if decide (key = k) then Some v else ownProperty obj' key
  end.

(** [categoryMap[category] || category] *)
Definition mapCategory (category : string) : CategoryValue :=
  match ownProperty categoryMap category with
  | Some v => if truthyString v then Label v else Label category
  | None =>
      if bool_decide (category ∈ Object_prototype) then Inherited category
      else Label category
  end.

(** The admission gate; the value of the [&&] chain, as a condition. *)
Definition isValidNewsItem (item : NewsItem) : bool :=
  truthy (title item) &&
  truthyString (summary item) &&
  truthyString (source item) &&
  truthy (url item) &&
  truthyDate (publishedAt item) &&
  from_option (λ t, Nat.ltb 10 (String.length t)) false (title item) &&
  Nat.ltb 20 (String.length (summary item)).

(** ** The source adapters *)

(** An entry of a parsed feed, with the custom fields of the parser.  A
    media node is [Some None] when it has no attribute object [$]. *)
Record Enclosure := {
  enc_url : option string;
  enc_type : option string
}.

Record RssItem := {
  rss_title : option string;
  contentSnippet : option string;
  content : option string;
  description : option string;
  link : option string;
  pubDate : option string;
  isoDate : option string;
  media_content : option (option (option string));
  media_thumbnail : option (option (option string));
  enclosure : option Enclosure
}.

(** A result of the search endpoint. *)
Record GuardianFields := {
  thumbnail : option string;
  trailText : option string;
  bodyText : option string
}.

Record GuardianArticle := {
  webTitle : option string;
  webUrl : option string;
  webPublicationDate : option string;
  fields : option GuardianFields
}.

(** What the adapters call, in the order of the calls. *)
Inductive Call :=
  | CallGenerateHash (content : option string)
  | CallIsValidNewsItem (item : NewsItem)
  | CallPush (item : NewsItem).

Definition extractImage (item : RssItem) : result (option string) :=
  match media_content item with
  | Some node =>
      match node with Some u => Ok u | None => Throw TypeError end
  | None =>
      match media_thumbnail item with
      | Some node =>
          match node with Some u => Ok u | None => Throw TypeError end
      | None =>
          match enclosure item with
          | Some e =>
              if from_option (startsWith "image/") false (enc_type e)
              then Ok (enc_url e) else Ok None
          | None => Ok None
          end
      end
  end.

Section Adapters.
(** The digest [crypto.createHash('md5').update(content).digest('hex')] of a
    string and the [Date] constructor on a date string are used as given. *)
Variable md5hex : string → string.
Variable newDate : option string → JSDate.

(** [a + b] on possibly undefined strings: a string as soon as one operand
    is one, [NaN] (here [None]) when both are undefined. *)
Definition jsPlus (a b : option string) : option string :=
  match a, b with
  | None, None => None
  | _, _ => Some (toStr a +:+ toStr b)
  end.

(** [update] accepts a string and throws on any other value. *)
Definition generateHash (content : option string) : result string :=
  match content with
  | Some c => Ok (md5hex c)
  | None => Throw TypeError
  end.

(** The tail of both loop bodies: the literal is complete once its last
    property, [sourceHash], is computed; then [isValidNewsItem] decides the
    push. *)
Definition hashThenGate (content : option string) (mk : string → NewsItem)
  : list Call * result (list NewsItem) :=
  match generateHash content with
  | Throw e => ([CallGenerateHash content], Throw e)
  | Ok h =>
      let newsItem := mk h in
      if isValidNewsItem newsItem
      then ([CallGenerateHash content; CallIsValidNewsItem newsItem;
             CallPush newsItem], Ok [newsItem])
      else ([CallGenerateHash content; CallIsValidNewsItem newsItem], Ok [])
  end.

(** The body of the loop over [feed.items.slice(0, 10)]: the calls it makes
    and the item it pushes, or the exception that leaves the loop. *)
Definition rssEntry (sourceName category : string) (item : RssItem)
  : list Call * result (list NewsItem) :=
  match extractImage item with
  | Throw e => ([], Throw e)
  | Ok img =>
      hashThenGate (jsPlus (rss_title item) (link item)) (λ h,
        {| title := trim <$> rss_title item;
           summary :=
             toStr (jsOr (jsOr (jsOr (contentSnippet item) (content item))
                                (description item)) (Some ""));
           source := sourceName;
           url := link item;
           publishedAt := newDate (jsOr (pubDate item) (isoDate item));
           category := mapCategory category;
           image := img;
           sourceHash := h |})
  end.

(** The body of the loop over the results of one page. *)
Definition guardianEntry (sourceName category : string) (article : GuardianArticle)
  : list Call * result (list NewsItem) :=
  hashThenGate (jsPlus (webTitle article) (webUrl article)) (λ h,
    {| title := webTitle article;
       summary :=
         toStr (jsOr (jsOr (fields article ≫= trailText)
                            (substring0 300 <$> (fields article ≫= bodyText)))
                     (Some ""));
       source := sourceName;
       url := webUrl article;
       publishedAt := newDate (webPublicationDate article);
       category := mapCategory category;
       image := fields article ≫= thumbnail;
       sourceHash := h |}).

(** A loop inside [try]: it stops at the first exception, which the [catch]
    swallows; what was pushed before stays in [newsItems]. *)
Fixpoint entryLoop {E} (body : E → list Call * result (list NewsItem)) (entries : list E)
  : list Call * list NewsItem :=
  match entries with
  | [] => ([], [])
  | entry :: rest =>
      match body entry with
      | (calls, Throw _) => (calls, [])
      | (calls, Ok pushed) =>
          let '(calls', pushed') := entryLoop body rest in
          (calls ++ calls', pushed ++ pushed')
      end
  end.

(** [fetchRSSNews]: per configured url, the parsed feed or the failure of
    [parseURL]. *)
Fixpoint fetchRSSNews (sourceName : string)
    (feeds : list (string * result (list RssItem))) : list Call * list NewsItem :=
  match feeds with
  | [] => ([], [])
  | (category, feed) :: rest =>
      let '(calls, pushed) :=
        match feed with
        | Ok items => entryLoop (rssEntry sourceName category) (take 10 items)
        | Throw _ => ([], [])
        end in
      let '(calls', pushed') := fetchRSSNews sourceName rest in
      (calls ++ calls', pushed ++ pushed')
  end.

(** The loop over the sections of [fetchGuardianNews]: per section, the
    results of the page or the failure of the request. *)
Fixpoint guardianPages (sourceName : string)
    (pages : list (string * result (list GuardianArticle))) : list Call * list NewsItem :=
  match pages with
  | [] => ([], [])
  | (category, page) :: rest =>
      let '(calls, pushed) :=
        match page with
        | Ok articles => entryLoop (guardianEntry sourceName category) articles
        | Throw _ => ([], [])
        end in
      let '(calls', pushed') := guardianPages sourceName rest in
      (calls ++ calls', pushed ++ pushed')
  end.

(** Without an API key nothing is requested. *)
Definition fetchGuardianNews (sourceName : string) (apiKey : option string)
    (pages : list (string * result (list GuardianArticle))) : list Call * list NewsItem :=
  if negb (truthy apiKey) then ([], []) else guardianPages sourceName pages.

(** What the network returns to one source of [this.sources]. *)
Inductive SourceFetch :=
  | RssSource (name : string) (feeds : list (string * result (list RssItem)))
  | ApiSource (name : string) (apiKey : option string)
      (pages : list (string * result (list GuardianArticle))).

(** The dispatch on [source.type] and [source.name] in [fetchAllNews]. *)
Definition fetchSource (s : SourceFetch) : list Call * list NewsItem :=
  match s with
  | RssSource name feeds => fetchRSSNews name feeds
  | ApiSource name apiKey pages =>
      if decide (name = "The Guardian") then fetchGuardianNews name apiKey pages
      else ([], [])
  end.

(** [allNews] of [fetchAllNews]: the batch handed to the dedup engine. *)
Definition allNews (sources : list SourceFetch) : list NewsItem :=
  flat_map (λ s, (fetchSource s).2) sources.

End Adapters.

(** ** The process state and the monad of the service *)

(** A stored document of the model [News], with the paths the service
    reads.  [_id] is the ObjectId, here a counter value. *)
Record NewsDoc := {
  _id : nat;
  doc_title : string;
  doc_summary : string;
  doc_source : string;
  doc_url : string;
  doc_image : option string;
  doc_category : string;
  doc_publishedAt : Z;
  isActive : bool;
  doc_sourceHash : string
}.

#[global] Instance NewsDoc_eq_dec : EqDecision NewsDoc.
Proof. solve_decision. Defined.

(** A Redis list or string value with its time to live in seconds
    ([None]: the key never expires). *)
Record RedisList := {
  elems : list nat;
  list_ttl : option nat
}.

Record RedisDb := {
  newsKeys : gmap nat (NewsDoc * nat);       (* news:<id>, always set with EX *)
  categoryKeys : gmap string RedisList;      (* news:category:<category> *)
  latestKey : option RedisList               (* news:latest *)
}.

(** The client object; [answers] tells whether its commands are fulfilled.
    When they are not, the promise of a command rejects: an error reply, or
    a connection that closes with the command in flight.  A command that
    waits in the offline queue of a disconnected client settles neither
    way; no value of this record stands for that. *)
Record RedisClient := {
  answers : bool;
  db : RedisDb
}.

Inductive ListKey :=
  | CategoryList (category : string)
  | LatestList.

(** What the socket server was asked to send. *)
Inductive Emission :=
  | NewsUpdate (data : list NewsDoc) (count : nat)
  | CategoryUpdate (room : string) (data : NewsDoc).

(** The socket server; [delivers] tells for which messages [emit]
    returns rather than throws. *)
Record SocketServer := {
  delivers : Emission → bool
}.

Record World := {
  collection : list NewsDoc;          (* the collection, in insertion order *)
  nextId : nat;                       (* the next ObjectId *)
  redisClient : option RedisClient;   (* [null] until [connectRedis] ran *)
  io : option SocketServer;           (* [null] until [initializeSocket] ran *)
  emitted : list Emission             (* what went out, oldest first *)
}.

Definition M (A : Type) : Type := World → result A * World.

#[global] Instance M_ret : MRet M := λ A a w, (Ok a, w).
#[global] Instance M_bind : MBind M := λ A B f m w,
  match m w with
  | (Ok a, w') => f a w'
  | (Throw e, w') => (Throw e, w')
  end.

Definition throw {A} (e : Exn) : M A := λ w, (Throw e, w).

(** [try { body } catch (error) { handler }]: what the body did to the
    state before it threw stays done. *)
Definition tryCatch {A} (body : M A) (handler : Exn → M A) : M A := λ w,
  match body w with
  | (Ok a, w') => (Ok a, w')
  | (Throw e, w') => handler e w'
  end.

(** [Promise.all(xs.map(f))] for commands that run one after the other. *)
Fixpoint mapM {A B} (f : A → M B) (xs : list A) : M (list B) :=
  match xs with
  | [] => mret []
  | x :: xs' => y ← f x; ys ← mapM f xs'; mret (y :: ys)
  end.

(** ** The model [News] *)

Definition categoryEnum : list string :=
  ["politics"; "technology"; "business"; "sports"; "entertainment"; "health";
   "science"; "world"; "general"].

(** Casting, setters ([trim]), defaults and validators of the schema, as
    [save] runs them on [new News(newsData)]. *)
Definition validate (id : nat) (newsData : NewsItem) : result NewsDoc :=
  match title newsData, url newsData, publishedAt newsData, category newsData with
  | Some t, Some u, DateValue ms, Label c =>
      let t := trim t in
      let s := trim (summary newsData) in
      let src := trim (source newsData) in
      if truthyString t && Nat.leb (String.length t) 500 &&
         truthyString s && Nat.leb (String.length s) 2000 &&
         truthyString src &&
         truthyString u &&
         bool_decide (c ∈ categoryEnum) &&
         truthyString (sourceHash newsData)
      then Ok {| _id := id; doc_title := t; doc_summary := s; doc_source := src;
                 doc_url := u; doc_image := image newsData; doc_category := c;
                 doc_publishedAt := ms; isActive := true;
                 doc_sourceHash := sourceHash newsData |}
      else Throw ValidationError
  | _, _, _, _ => Throw ValidationError
  end.

(** The filter [{ $or: [{ url }, { sourceHash }] }]. *)
Definition matchesNaturalKey (newsData : NewsItem) (d : NewsDoc) : bool :=
  bool_decide (url newsData = Some (doc_url d)) ||
  bool_decide (sourceHash newsData = doc_sourceHash d).

Definition News_findOne (newsData : NewsItem) : M (option NewsDoc) := λ w,
  (Ok (List.find (matchesNaturalKey newsData) (collection w)), w).

(** [new News(newsData)] draws an ObjectId. *)
Definition News_new (newsData : NewsItem) : M (nat * NewsItem) := λ w,
  (Ok (nextId w, newsData),
   {| collection := collection w; nextId := S (nextId w);
      redisClient := redisClient w; io := io w; emitted := emitted w |}).

(** [news.save()]: validation, then the insert under the unique index on
    [url]. *)
Definition News_save (news : nat * NewsItem) : M NewsDoc := λ w,
  match validate news.1 news.2 with
  | Throw e => (Throw e, w)
  | Ok d =>
      if existsb (λ d', bool_decide (doc_url d' = doc_url d)) (collection w)
      then (Throw DuplicateKeyError, w)
      else (Ok d,
            {| collection := collection w ++ [d]; nextId := nextId w;
               redisClient := redisClient w; io := io w; emitted := emitted w |})
  end.

(** [.sort({ publishedAt: -1 })]; documents with equal dates keep their
    order. *)
Fixpoint insertByDate (d : NewsDoc) (sorted : list NewsDoc) : list NewsDoc :=
  match sorted with
  | [] => [d]
  | d' :: rest =>
      if Z.leb (doc_publishedAt d') (doc_publishedAt d) then d :: sorted
      else d' :: insertByDate d rest
  end.

Definition sortByPublishedAtDesc (docs : list NewsDoc) : list NewsDoc :=
  foldr insertByDate [] docs.

(** [.limit(n)]: zero means no limit. *)
Definition limitTo (n : nat) (docs : list NewsDoc) : list NewsDoc :=
  match n with 0 => docs | _ => take n docs end.

(** [News.find(filter).sort({ publishedAt: -1 }).limit(limit).skip(offset)]:
    the cursor skips before it limits. *)
Definition News_find (filter : NewsDoc → bool) (limit offset : nat) : M (list NewsDoc) := λ w,
  (Ok (limitTo limit (drop offset (sortByPublishedAtDesc (List.filter filter (collection w))))),
   w).

(** ** The Redis commands the service sends *)

(** Index arithmetic of LRANGE and LTRIM. *)
Definition rangeOf {A} (l : list A) (start stop : Z) : list A :=
  let len := Z.of_nat (length l) in
  let start := if Z.ltb start 0 then Z.max 0 (len + start)%Z else start in
  let stop := if Z.ltb stop 0 then (len + stop)%Z else Z.min stop (len - 1)%Z in
  if Z.ltb stop start then []
  else take (Z.to_nat (stop - start + 1)%Z) (drop (Z.to_nat start) l).

Definition getList (k : ListKey) (r : RedisDb) : option RedisList :=
  match k with
  | CategoryList c => categoryKeys r !! c
  | LatestList => latestKey r
  end.

Definition putList (k : ListKey) (v : option RedisList) (r : RedisDb) : RedisDb :=
  match k with
  | CategoryList c =>
      {| newsKeys := newsKeys r;
         categoryKeys := match v with
                         | Some l => <[c := l]> (categoryKeys r)
                         | None => delete c (categoryKeys r)
                         end;
         latestKey := latestKey r |}
  | LatestList =>
      {| newsKeys := newsKeys r; categoryKeys := categoryKeys r; latestKey := v |}
  end.

(** A command on the client held by the process. *)
Definition command {A} (run : RedisDb → A * RedisDb) : M A := λ w,
  match redisClient w with
  | None => (Throw TypeError, w)
  | Some c =>
      if answers c then
        let '(a, r) := run (db c) in
        (Ok a,
         {| collection := collection w; nextId := nextId w;
            redisClient := Some {| answers := true; db := r |};
            io := io w; emitted := emitted w |})
      else (Throw ClientClosedError, w)
  end.

Definition redis_setEx (id seconds : nat) (value : NewsDoc) : M unit :=
  command (λ r, (tt, {| newsKeys := <[id := (value, seconds)]> (newsKeys r);
                        categoryKeys := categoryKeys r; latestKey := latestKey r |})).

(** LPUSH creates the list when the key is missing and leaves the time to
    live of an existing key as it is. *)
Definition redis_lPush (k : ListKey) (id : nat) : M unit :=
  command (λ r,
    (tt, putList k (Some match getList k r with
                         | Some l => {| elems := id :: elems l; list_ttl := list_ttl l |}
                         | None => {| elems := [id]; list_ttl := None |}
                         end) r)).

Definition redis_expire (k : ListKey) (seconds : nat) : M unit :=
  command (λ r,
    (tt, match getList k r with
         | Some l => putList k (Some {| elems := elems l; list_ttl := Some seconds |}) r
         | None => r
         end)).

(** LTRIM removes the key when nothing is left. *)
Definition redis_lTrim (k : ListKey) (start stop : Z) : M unit :=
  command (λ r,
    (tt, match getList k r with
         | Some l =>
             match rangeOf (elems l) start stop with
             | [] => putList k None r
             | kept => putList k (Some {| elems := kept; list_ttl := list_ttl l |}) r
             end
         | None => r
         end)).

Definition redis_lRange (k : ListKey) (start stop : Z) : M (list nat) :=
  command (λ r,
    (match getList k r with
     | Some l => rangeOf (elems l) start stop
     | None => []
     end, r)).

Definition redis_get (id : nat) : M (option NewsDoc) :=
  command (λ r, (fst <$> newsKeys r !! id, r)).

(** [seconds] later on the server: keys whose time is up are gone. *)
Definition ageList (seconds : nat) (l : RedisList) : option RedisList :=
  match list_ttl l with
  | None => Some l
  | Some t =>
      if Nat.leb t seconds then None
      else Some {| elems := elems l; list_ttl := Some (t - seconds) |}
  end.

Definition elapse (seconds : nat) (r : RedisDb) : RedisDb :=
  {| newsKeys :=
       omap (λ '(v, t), if Nat.leb t seconds then None else Some (v, t - seconds))
            (newsKeys r);
     categoryKeys := omap (ageList seconds) (categoryKeys r);
     latestKey := latestKey r ≫= ageList seconds |}.

Definition getRedisClient : M (option RedisClient) := λ w, (Ok (redisClient w), w).

(** ** The fanout publisher: [broadcastNews] *)

(** [io.emit(...)] and [io.to(room).emit(...)]. *)
Definition emit (e : Emission) : M unit := λ w,
  match io w with
  | None => (Throw TypeError, w)
  | Some server =>
      if delivers server e
      then (Ok tt,
            {| collection := collection w; nextId := nextId w;
               redisClient := redisClient w; io := io w;
               emitted := emitted w ++ [e] |})
      else (Throw TransportError, w)
  end.

Definition getSocketInstance : M (option SocketServer) := λ w, (Ok (io w), w).

Definition broadcastNews (newsItems : list NewsDoc) : M unit :=
  server ← getSocketInstance;
  match server with
  | None => mret tt
  | Some _ =>
      tryCatch
        (_ ← emit (NewsUpdate newsItems (length newsItems));
         _ ← mapM (λ newsItem,
                 emit (CategoryUpdate ("category:" +:+ doc_category newsItem) newsItem))
               newsItems;
         mret tt)
        (λ error, mret tt)
  end.

(** ** The store gateway: [cacheNews], [saveNews] and the reads *)

Definition cacheNews (news : NewsDoc) : M unit :=
  tryCatch
    (redis ← getRedisClient;
     match redis with
     | Some _ =>
         _ ← redis_setEx (_id news) 3600 news;
         _ ← redis_lPush (CategoryList (doc_category news)) (_id news);
         _ ← redis_expire (CategoryList (doc_category news)) 3600;
         _ ← redis_lPush LatestList (_id news);
         redis_lTrim LatestList 0 99
     | None => mret tt
     end)
    (λ error, mret tt).

(** The body of the loop of [saveNews] with [savedNews] as it stands.  The
    [try] block is written in two parts, before and after the [push], with
    the one handler of the source on both: an exception after the [push]
    leaves the document in [savedNews]. *)
Definition saveOne (savedNews : list NewsDoc) (newsData : NewsItem) : M (list NewsDoc) :=
  tryCatch
    (existing ← News_findOne newsData;
     match existing with
     | None =>
         news ← News_new newsData;
         doc ← News_save news;
         tryCatch (_ ← cacheNews doc; mret (savedNews ++ [doc]))
                  (λ error, mret (savedNews ++ [doc]))
     | Some _ => mret savedNews
     end)
    (λ error, mret savedNews).

Fixpoint saveLoop (newsItems : list NewsItem) (savedNews : list NewsDoc)
  : M (list NewsDoc) :=
  match newsItems with
  | [] => mret savedNews
  | newsData :: rest =>
      savedNews' ← saveOne savedNews newsData;
      saveLoop rest savedNews'
  end.

Definition saveNews (newsItems : list NewsItem) : M (list NewsDoc) :=
  savedNews ← saveLoop newsItems [];
  _ ← (if Nat.ltb 0 (length savedNews) then broadcastNews savedNews else mret tt);
  mret savedNews.

(** The cache branch of [getLatestNews]: [Some validNews] when it returns
    from the cache, [None] when it falls through to the database. *)
Definition latestFromCache (limit offset : nat) : M (option (list NewsDoc)) :=
  redis ← getRedisClient;
  match redis with
  | Some _ =>
      cachedIds ← redis_lRange LatestList (Z.of_nat offset)
                    (Z.of_nat offset + Z.of_nat limit - 1)%Z;
      if Nat.ltb 0 (length cachedIds) then
        cachedNews ← mapM redis_get cachedIds;
        let validNews := omap id cachedNews in
        if Nat.ltb 0 (length validNews) then mret (Some validNews) else mret None
      else mret None
  | None => mret None
  end.

Definition getLatestNews (limit offset : nat) : M (list NewsDoc) :=
  tryCatch
    (cached ← latestFromCache limit offset;
     match cached with
     | Some validNews => mret validNews
     | None => News_find isActive limit offset
     end)
    (λ error, throw error).

Definition getNewsByCategory (category : string) (limit offset : nat) : M (list NewsDoc) :=
  tryCatch
    (News_find (λ d, bool_decide (doc_category d = category) && isActive d) limit offset)
    (λ error, throw error).

(** ** One cycle: [fetchAllNews] *)

Section Cycle.
Variable md5hex : string → string.
Variable newDate : option string → JSDate.
Variable toLowerCase : string → string.
Variable compareTwoStrings : string → string → Q.

Definition fetchAllNews (sources : list SourceFetch) : M (list NewsItem) :=
  match processAndDeduplicateNews toLowerCase compareTwoStrings
          (allNews md5hex newDate sources) with
  | Throw e => throw e
  | Ok processedNews =>
      _ ← saveNews processedNews;
      mret processedNews
  end.

End Cycle.

(** ** The scheduler: [NewsScheduler.start] *)

(** The scheduler object and the executions of [fetchAllNews] that were
    started and have not settled yet, by the callback that started them. *)
Record Scheduler := {
  isRunning : bool;
  scheduledRuns : nat;      (* started by the cron callback *)
  initialRuns : nat;        (* started by the [setTimeout] callback *)
  initialPending : bool;    (* the timeout has not fired yet *)
  fetchCalls : nat          (* calls of [fetchAllNews] so far *)
}.

(** After [start()] returned. *)
Definition started : Scheduler :=
  {| isRunning := false; scheduledRuns := 0; initialRuns := 0;
     initialPending := true; fetchCalls := 0 |}.

Inductive SchedulerEvent :=
  | CronTick                        (* the callback of the five-minute job runs *)
  | ScheduledSettles (ok : bool)    (* its awaited [fetchAllNews()] resolves or rejects *)
  | InitialTimeout                  (* the callback of [setTimeout(..., 2000)] runs *)
  | InitialSettles (ok : bool).     (* its [fetchAllNews()] resolves or rejects *)

(** One turn of the event loop.  An event that cannot occur in the state
    (a settlement with nothing in flight, a second timeout) changes nothing. *)
Definition schedulerStep (s : Scheduler) (e : SchedulerEvent) : Scheduler :=
  match e with
  | CronTick =>
      if isRunning s then s
      else {| isRunning := true; scheduledRuns := S (scheduledRuns s);
              initialRuns := initialRuns s; initialPending := initialPending s;
              fetchCalls := S (fetchCalls s) |}
  | ScheduledSettles ok =>
      match scheduledRuns s with
      | 0 => s
      | S n =>
          (* [catch] logs when [ok] is false; [finally] runs either way *)
          {| isRunning := false; scheduledRuns := n;
             initialRuns := initialRuns s; initialPending := initialPending s;
             fetchCalls := fetchCalls s |}
      end
  | InitialTimeout =>
      if initialPending s
      then {| isRunning := isRunning s; scheduledRuns := scheduledRuns s;
              initialRuns := S (initialRuns s); initialPending := false;
              fetchCalls := S (fetchCalls s) |}
      else s
  | InitialSettles ok =>
      match initialRuns s with
      | 0 => s
      | S n =>
          {| isRunning := isRunning s; scheduledRuns := scheduledRuns s;
             initialRuns := n; initialPending := initialPending s;
             fetchCalls := fetchCalls s |}
      end
  end.

Definition schedulerRun (events : list SchedulerEvent) : Scheduler :=
  foldl schedulerStep started events.

(** Cycles in progress. *)
Definition cyclesInFlight (s : Scheduler) : nat := scheduledRuns s + initialRuns s.

(** ** The retention sweep: [NewsScheduler.cleanupOldNews] *)

Definition withActive (active : bool) (d : NewsDoc) : NewsDoc :=
  {| _id := _id d; doc_title := doc_title d; doc_summary := doc_summary d;
     doc_source := doc_source d; doc_url := doc_url d; doc_image := doc_image d;
     doc_category := doc_category d; doc_publishedAt := doc_publishedAt d;
     isActive := active; doc_sourceHash := doc_sourceHash d |}.

(** [News.updateMany(filter, { isActive: false })]: every matching document
    is updated; the result counts those the update changed. *)
Definition News_updateMany_inactive (filter : NewsDoc → bool) : M nat := λ w,
  (Ok (length (List.filter (λ d, filter d && isActive d) (collection w))),
   {| collection := (λ d, if filter d then withActive false d else d) <$> collection w;
      nextId := nextId w; redisClient := redisClient w; io := io w;
      emitted := emitted w |}).

(** [7 * 24 * 60 * 60 * 1000] *)
Definition retentionMs : Z := 7 * 24 * 60 * 60 * 1000.

(** [now] is the value of [Date.now()]. *)
Definition cleanupOldNews (now : Z) : M unit :=
  let cutoffDate := (now - retentionMs)%Z in
  tryCatch
    (result ← News_updateMany_inactive (λ d, Z.ltb (doc_publishedAt d) cutoffDate);
     mret tt)
    (λ error, mret tt).

(** The callback of the daily job. *)
Definition cleanupJob (now : Z) : M unit :=
  tryCatch (cleanupOldNews now) (λ error, mret tt).

(** ** The admin routes *)

Inductive ResponseBody :=
  | ErrorBody (error : string)
  | FetchCompleted (newArticles : nat)
  | CacheCleared
  | NewsDeactivated (data : NewsDoc)
  | NewsPage (data : list NewsDoc) (limit offset total : nat)
  | JoiMessage.   (* [error.details[0].message] of a failed validation *)

Record Response := {
  status : nat;
  body : ResponseBody
}.

(** [authenticateAdmin]: [Some] is the response it sends, [None] stands for
    [next()].  [apiKey] is the header [x-api-key], [validApiKey] the
    variable [ADMIN_API_KEY] of the environment. *)
Definition authenticateAdmin (apiKey validApiKey : option string) : option Response :=
  if negb (truthy validApiKey)
  then Some {| status := 501; body := ErrorBody "Admin API not configured" |}
  else if negb (truthy apiKey) || negb (bool_decide (apiKey = validApiKey))
  then Some {| status := 401; body := ErrorBody "Invalid API key" |}
  else None.

(** FLUSHDB *)
Definition redis_flushDb : M unit :=
  command (λ r, (tt, {| newsKeys := ∅; categoryKeys := ∅; latestKey := None |})).

(** [News.findByIdAndUpdate(id, { isActive: false }, { new: true })] on an
    identifier that casts to an ObjectId: the first document with the
    identifier is updated and returned as updated. *)
Fixpoint deactivateFirst (id : nat) (docs : list NewsDoc)
  : option NewsDoc * list NewsDoc :=
  match docs with
  | [] => (None, [])
  | d :: rest =>
      if decide (_id d = id) then (Some (withActive false d), withActive false d :: rest)
      else let '(found, rest') := deactivateFirst id rest in (found, d :: rest')
  end.

Definition News_findByIdAndUpdate_inactive (id : nat) : M (option NewsDoc) := λ w,
  let '(found, docs) := deactivateFirst id (collection w) in
  (Ok found,
   {| collection := docs; nextId := nextId w; redisClient := redisClient w;
      io := io w; emitted := emitted w |}).

(** The handler of [DELETE /cache/clear]. *)
Definition clearCacheRoute : M Response :=
  tryCatch
    (redis ← getRedisClient;
     match redis with
     | Some _ =>
         _ ← redis_flushDb;
         mret {| status := 200; body := CacheCleared |}
     | None => mret {| status := 503; body := ErrorBody "Redis not available" |}
     end)
    (λ error, mret {| status := 500; body := ErrorBody "Failed to clear cache" |}).

(** The handler of [POST /news/:id/deactivate].  [id] is [None] when the
    parameter does not cast to an ObjectId: the cast throws and the [catch]
    answers. *)
Definition deactivateRoute (id : option nat) : M Response :=
  match id with
  | None => mret {| status := 500; body := ErrorBody "Failed to deactivate news item" |}
  | Some id =>
      tryCatch
        (news ← News_findByIdAndUpdate_inactive id;
         match news with
         | None => mret {| status := 404; body := ErrorBody "News item not found" |}
         | Some d => mret {| status := 200; body := NewsDeactivated d |}
         end)
        (λ error,
           mret {| status := 500; body := ErrorBody "Failed to deactivate news item" |})
  end.

Section AdminRoutes.
Variable md5hex : string → string.
Variable newDate : option string → JSDate.
Variable toLowerCase : string → string.
Variable compareTwoStrings : string → string → Q.

(** The handler of [POST /trigger-fetch]; [sources] is what the network
    returns during the cycle. *)
Definition triggerFetchRoute (sources : list SourceFetch) : M Response :=
  tryCatch
    (newNews ← fetchAllNews md5hex newDate toLowerCase compareTwoStrings sources;
     mret {| status := 200; body := FetchCompleted (length newNews) |})
    (λ error, mret {| status := 500; body := ErrorBody "Failed to fetch news" |}).

Inductive AdminRoute :=
  | TriggerFetch (sources : list SourceFetch)
  | ClearCache
  | Deactivate (id : option nat).

(** A route behind the middleware [authenticateAdmin]. *)
Definition adminRoute (validApiKey apiKey : option string) (route : AdminRoute)
  : M Response :=
  match authenticateAdmin apiKey validApiKey with
  | Some response => mret response
  | None =>
      match route with
      | TriggerFetch sources => triggerFetchRoute sources
      | ClearCache => clearCacheRoute
      | Deactivate id => deactivateRoute id
      end
  end.

End AdminRoutes.

(** ** The news routes *)

(** A value of [req.query]: a string, or an array or object (a repeated or
    bracketed key). *)
Inductive QueryValue :=
  | QString (s : string)
  | QNested.

(** What Joi makes of a string where the schema wants a number. *)
Inductive JoiNumber :=
  | JInteger (z : Z)     (* a safe integer *)
  | JNotInteger          (* a number that is no safe integer *)
  | JNotNumber.

(** The value Joi returns for a valid query. *)
Record QueryParams := {
  q_limit : Z;
  q_offset : Z;
  q_category : option string;
  q_q : option string
}.

Definition queryKeys : list string := ["limit"; "offset"; "category"; "q"].

Fixpoint queryGet (query : list (string * QueryValue)) (key : string)
  : option QueryValue :=
  match query with
  | [] => None
  | (k, v) :: query' => if decide (key = k) then Some v else queryGet query' key
  end.

Section NewsRoutes.
(** Joi's conversion of a string to a number, [decodeURIComponent] on a
    string with an escape, and [searchNews], whose filter is a regular
    expression built from the query, are used as given. *)
Variable toNumber : string → JoiNumber.
Variable percentDecode : string → option string.
Variable searchNews : string → nat → nat → M (list NewsDoc).

(** [Joi.number().integer().min(min).max(max).default(dflt)]; [None] is a
    validation error. *)
Definition joiInteger (min : Z) (max : option Z) (dflt : Z) (v : option QueryValue)
  : option Z :=
  match v with
  | None => Some dflt
  | Some (QString s) =>
      match toNumber s with
      | JInteger z =>
          if Z.leb min z && from_option (Z.leb z) true max then Some z else None
      | _ => None
      end
  | Some QNested => None
  end.

(** [Joi.string().valid(...)] and [Joi.string().min(2).max(100)], both
    optional; the outer [None] is a validation error. *)
Definition joiCategory (v : option QueryValue) : option (option string) :=
  match v with
  | None => Some None
  | Some (QString s) => if bool_decide (s ∈ categoryEnum) then Some (Some s) else None
  | Some QNested => None
  end.

Definition joiQ (v : option QueryValue) : option (option string) :=
  match v with
  | None => Some None
  | Some (QString s) =>
      if Nat.leb 2 (String.length s) && Nat.leb (String.length s) 100
      then Some (Some s) else None
  | Some QNested => None
  end.

(** [querySchema.validate(value)]: the keys of the schema in their order,
    then the keys the schema does not know, which are not allowed. *)
Definition validateQuery (query : list (string * QueryValue)) : option QueryParams :=
  limit ← joiInteger 1%Z (Some 100%Z) 20%Z (queryGet query "limit");
  offset ← joiInteger 0%Z None 0%Z (queryGet query "offset");
  category ← joiCategory (queryGet query "category");
  q ← joiQ (queryGet query "q");
  if forallb (λ kv, bool_decide (kv.1 ∈ queryKeys)) query
  then Some {| q_limit := limit; q_offset := offset; q_category := category; q_q := q |}
  else None.

(** [res.json({ success, data, pagination: { limit, offset, total: news.length } })] *)
Definition newsPage (news : list NewsDoc) (limit offset : Z) : Response :=
  {| status := 200;
     body := NewsPage news (Z.to_nat limit) (Z.to_nat offset) (length news) |}.

Definition latestRoute (query : list (string * QueryValue)) : M Response :=
  tryCatch
    (match validateQuery query with
     | None => mret {| status := 400; body := JoiMessage |}
     | Some value =>
         news ← getLatestNews (Z.to_nat (q_limit value)) (Z.to_nat (q_offset value));
         mret (newsPage news (q_limit value) (q_offset value))
     end)
    (λ error, mret {| status := 500; body := ErrorBody "Failed to fetch latest news" |}).

(** [{ ...req.query, category }] *)
Definition withCategory (query : list (string * QueryValue)) (category : string)
  : list (string * QueryValue) :=
  Map_set query "category" (QString category).

Definition categoryRoute (category : string) (query : list (string * QueryValue))
  : M Response :=
  tryCatch
    (match validateQuery (withCategory query category) with
     | None => mret {| status := 400; body := JoiMessage |}
     | Some value =>
         news ← getNewsByCategory category
                  (Z.to_nat (q_limit value)) (Z.to_nat (q_offset value));
         mret (newsPage news (q_limit value) (q_offset value))
     end)
    (λ error, mret {| status := 500; body := ErrorBody "Failed to fetch category news" |}).

(** The message [Query parameter "q" is required]. *)
Definition qRequired : string :=
  "Query parameter " +:+ String (ascii_of_nat 34) ("q" +:+ String (ascii_of_nat 34) " is required").

Definition searchRoute (query : list (string * QueryValue)) : M Response :=
  tryCatch
    (match validateQuery query with
     | None => mret {| status := 400; body := JoiMessage |}
     | Some value =>
         if negb (truthy (q_q value))
         then mret {| status := 400;
                      body := ErrorBody qRequired |}
         else
           news ← searchNews (toStr (q_q value))
                    (Z.to_nat (q_limit value)) (Z.to_nat (q_offset value));
           mret (newsPage news (q_limit value) (q_offset value))
     end)
    (λ error, mret {| status := 500; body := ErrorBody "Failed to search news" |}).

(** *** The router *)

Inductive Method := GET | HEAD | POST | PUT | DELETE.

(** Case folding of the regular expressions of the router: the letters A
    to Z. *)
Definition foldCase (c : ascii) : ascii :=
  let n := nat_of_ascii c in
  if Nat.leb 65 n && Nat.leb n 90 then ascii_of_nat (n + 32) else c.

Fixpoint foldCases (s : string) : string :=
  match s with
  | EmptyString => EmptyString
  | String c s' => String (foldCase c) (foldCases s')
  end.

(** The one segment of a path ["/segment"] or ["/segment/"]. *)
Fixpoint segmentEnd (s : string) : option string :=
  match s with
  | EmptyString => Some EmptyString
  | String c s' =>
      if decide (c = "/"%char)
      then match s' with EmptyString => Some EmptyString | _ => None end
      else String c <$> segmentEnd s'
  end.

Definition segmentOf (path : string) : option string :=
  match path with
  | String c rest =>
      if decide (c = "/"%char)
      then match segmentEnd rest with
           | Some EmptyString => None
           | seg => seg
           end
      else None
  | EmptyString => None
  end.

(** The path ["/name"]: [^\/name\/?$] without regard to case. *)
Definition matchLiteral (name path : string) : bool :=
  match segmentOf path with
  | Some seg => bool_decide (foldCases seg = foldCases name)
  | None => false
  end.

(** The path ["/:category"]: [^\/([^\/]+?)\/?$]. *)
Definition matchParam (path : string) : option string := segmentOf path.

Fixpoint hasPercent (s : string) : bool :=
  match s with
  | EmptyString => false
  | String c s' => if decide (c = "%"%char) then true else hasPercent s'
  end.

(** The decoding of a parameter; [None] is the error of a malformed
    escape. *)
Definition decodeParam (seg : string) : option string :=
  if hasPercent seg then percentDecode seg else Some seg.

(** The layer of the router that takes the request. *)
Inductive Dispatch :=
  | ToLatest
  | ToCategory (category : string)
  | ToSearch
  | DecodeFailed
  | NoLayer.

(** The layers in the order of their registration: [/latest],
    [/:category], [/search]; [router.get] also takes HEAD. *)
Definition dispatch (method : Method) (path : string) : Dispatch :=
  match method with
  | GET | HEAD =>
      if matchLiteral "latest" path then ToLatest
      else match matchParam path with
           | Some seg =>
               match decodeParam seg with
               | Some category => ToCategory category
               | None => DecodeFailed
               end
           | None => if matchLiteral "search" path then ToSearch else NoLayer
           end
  | _ => NoLayer
  end.

(** The answer to a request to the router mounted at [/api/news]: [None]
    when no layer takes it and the application goes on to its 404 handler.
    A parameter that does not decode ends in the error handler of the
    application. *)
Definition newsRouter (method : Method) (path : string)
    (query : list (string * QueryValue)) : option (M Response) :=
  match dispatch method path with
  | ToLatest => Some (latestRoute query)
  | ToCategory category => Some (categoryRoute category query)
  | ToSearch => Some (searchRoute query)
  | DecodeFailed =>
      Some (mret {| status := 500; body := ErrorBody "Internal server error" |})
  | NoLayer => None
  end.

End NewsRoutes.

(** ** The rooms of a socket *)

(** The payload of [news:subscribe] and of [news:unsubscribe]. *)
Inductive SubscribeData :=
  | NoData                                      (* [undefined] or [null] *)
  | WithCategories (categories : list string)   (* [data.categories] is an array,
                                                   its elements as the template
                                                   prints them *)
  | OtherData.                                  (* any other payload *)

(** [`category:${category}`] *)
Definition roomOf (category : string) : string := "category:" +:+ category.

(** The two listeners on the rooms the socket is in; the destructuring
    [const { categories } = data] throws on a missing payload. *)
Definition onSubscribe (data : SubscribeData) (rooms : gset string)
  : result (gset string) :=
  match data with
  | NoData => Throw TypeError
  | WithCategories categories =>
      Ok (foldl (λ joined category, joined ∪ {[roomOf category]}) rooms categories)
  | OtherData => Ok rooms
  end.


(** Whether a message goes to a connected socket in the rooms [rooms]:
    [io.emit] goes to every socket, [io.to(room).emit] to the sockets in
    the room. *)
Definition reaches (rooms : gset string) (e : Emission) : bool :=
  match e with
  | NewsUpdate _ _ => true
  | CategoryUpdate room _ => bool_decide (room ∈ rooms)
  end.

(** ** Sample articles *)

Module Samples.

Definition article (t u h : string) : NewsItem :=
  {| title := Some t;
     summary := "The chamber voted late on Tuesday after a long debate.";
     source := "BBC";
     url := Some u;
     publishedAt := DateValue 1700000000000;
     category := Label "politics";
     image := None;
     sourceHash := h |}.

Definition senate1 : NewsItem :=
  article "Senate Passes New Budget Bill" "http://a.example/1" "0a1".
Definition senate2 : NewsItem :=
  article "Senate passes new budget bill today" "http://b.example/2" "0b2".
Definition senate1_again : NewsItem :=
  article "Senate Passes New Budget Bill" "http://a.example/1" "0a1".
Definition other : NewsItem :=
  article "Completely Different Story About Y" "http://c.example/3" "0c3".

(** A feed entry whose headline has ten code units. *)
Definition shortEntry : RssItem :=
  {| rss_title := Some "Ten chars!";
     contentSnippet := Some "A summary that is clearly longer than twenty code units.";
     content := None;
     description := None;
     link := Some "http://a.example/10";
     pubDate := Some "Tue, 14 Nov 2023 22:13:20 GMT";
     isoDate := None;
     media_content := None;
     media_thumbnail := None;
     enclosure := None |}.

(** A feed entry with neither title nor link, and one that
    [isValidNewsItem] accepts. *)
Definition blankEntry : RssItem :=
  {| rss_title := None;
     contentSnippet := Some "A summary that is clearly longer than twenty code units.";
     content := None;
     description := None;
     link := None;
     pubDate := None;
     isoDate := None;
     media_content := None;
     media_thumbnail := None;
     enclosure := None |}.

Definition goodEntry : RssItem :=
  {| rss_title := Some "Senate Passes New Budget Bill";
     contentSnippet := Some "The chamber voted late on Tuesday after a long debate.";
     content := None;
     description := None;
     link := Some "http://a.example/1";
     pubDate := Some "Tue, 14 Nov 2023 22:13:20 GMT";
     isoDate := None;
     media_content := None;
     media_thumbnail := None;
     enclosure := None |}.

(** A string of [n] times the code unit [c]. *)
Fixpoint repeatChar (c : ascii) (n : nat) : string :=
  match n with 0 => EmptyString | S n' => String c (repeatChar c n') end.

(** A candidate whose summary has 2001 code units, and another one at the
    same url with another fingerprint. *)
Definition longRead : NewsItem :=
  {| title := Some "A very long read about the budget";
     summary := repeatChar "a" 2001;
     source := "Reuters";
     url := Some "http://d.example/4";
     publishedAt := DateValue 1700000000000;
     category := Label "business";
     image := None;
     sourceHash := "0d4" |}.


(** The article of [senate1] at the same url under another fingerprint. *)
Definition senate1_retitled : NewsItem :=
  article "Budget bill clears the Senate after long debate" "http://a.example/1" "0a9".

Definition emptyDb : RedisDb :=
  {| newsKeys := ∅; categoryKeys := ∅; latestKey := None |}.

(** Before any connection was made. *)
Definition freshWorld : World :=
  {| collection := []; nextId := 0; redisClient := None; io := None; emitted := [] |}.

(** A stored document. *)
Definition storedDoc (id : nat) (c : string) (published : Z) (active : bool) : NewsDoc :=
  {| _id := id;
     doc_title := "Senate Passes New Budget Bill";
     doc_summary := "The chamber voted late on Tuesday after a long debate.";
     doc_source := "BBC";
     doc_url := "http://a.example/" +:+ repeatChar "x" id;
     doc_image := None;
     doc_category := c;
     doc_publishedAt := published;
     isActive := active;
     doc_sourceHash := "0a" +:+ repeatChar "x" id |}.

(** [n] documents of the topic politics, with the ids [0 .. n-1]. *)
Definition politicsDocs (n : nat) : list NewsDoc :=
  (λ id, storedDoc id "politics" (1700000000000 + Z.of_nat id) true) <$> seq 0 n.

(** Everything connected and answering, nothing stored yet. *)
Definition liveWorld : World :=
  {| collection := []; nextId := 0;
     redisClient := Some {| answers := true; db := emptyDb |};
     io := Some {| delivers := λ _, true |};
     emitted := [] |}.

(** The store holds one active article; the Redis client exists and the
    server does not answer. *)
Definition cacheDownWorld : World :=
  {| collection := [storedDoc 0 "politics" 1700000000000 true]; nextId := 1;
     redisClient := Some {| answers := false; db := emptyDb |};
     io := Some {| delivers := λ _, true |};
     emitted := [] |}.

(** The socket server refuses every message. *)
Definition socketDownWorld : World :=
  {| collection := []; nextId := 0;
     redisClient := Some {| answers := true; db := emptyDb |};
     io := Some {| delivers := λ _, false |};
     emitted := [] |}.

(** One article of the topic politics is stored and cached, then
    deactivated in the store; the cache still holds it. *)
Definition cachedThenDeactivated : World :=
  {| collection := [storedDoc 0 "politics" 1700000000000 false]; nextId := 1;
     redisClient :=
       Some {| answers := true;
               db := {| newsKeys :=
                          {[ 0 := (storedDoc 0 "politics" 1700000000000 true, 3600) ]};
                        categoryKeys :=
                          {[ "politics" := {| elems := [0]; list_ttl := Some 3600 |} ]};
                        latestKey := Some {| elems := [0]; list_ttl := None |} |} |};
     io := None;
     emitted := [] |}.

End Samples.

(** ** Predicates of the statements *)

(** The keys of [uniqueByHash] are the hashes of its values. *)
Definition keyed (m : list (string * NewsItem)) : Prop :=
  Map_keys m = sourceHash <$> Map_values m.

(** [x] sits at index [i] and no earlier item carries its key. *)
Definition earliestWithKey (items : list NewsItem) (i : nat) (x : NewsItem) : Prop :=
  items !! i = Some x ∧
  ∀ j y, j < i → items !! j = Some y → sourceHash y ≠ sourceHash x.

(** What a computation leaves alone. *)
Definition sameStore (w w' : World) : Prop :=
  collection w' = collection w ∧ nextId w' = nextId w.

Definition sameSocket (w w' : World) : Prop :=
  io w' = io w ∧ emitted w' = emitted w.

Definition sameRedis (w w' : World) : Prop := redisClient w' = redisClient w.

(** [keeps R m]: whatever [m] returns, it takes a state to an [R]-related
    one. *)
Definition keeps (R : relation World) {A} (m : M A) : Prop :=
  ∀ w r w', m w = (r, w') → R w w'.

(** The process holds a client as before: none, or one whose commands are
    fulfilled or rejected as they were. *)
Definition sameClient (w w' : World) : Prop :=
  match redisClient w with
  | None => redisClient w' = None
  | Some c => ∃ r, redisClient w' = Some {| answers := answers c; db := r |}
  end.

(** No client, or one whose commands are fulfilled. *)
Definition cacheSettles (w : World) : Prop :=
  redisClient w = None ∨ ∃ r, redisClient w = Some {| answers := true; db := r |}.

(** The store and the socket are out of reach of the Redis commands. *)
Definition awayFromRedis (w w' : World) : Prop :=
  sameStore w w' ∧ sameSocket w w'.

(** Some stored article matches the candidate on url or on fingerprint. *)
Definition storedMatch (w : World) (newsData : NewsItem) : Prop :=
  ∃ d, d ∈ collection w ∧
    (url newsData = Some (doc_url d) ∨ sourceHash newsData = doc_sourceHash d).

(** Newest first. *)
Definition newerOrEqual (a b : NewsDoc) : Prop :=
  (doc_publishedAt b ≤ doc_publishedAt a)%Z.

(** The identifiers the latest read asks the cache for, and the entries
    that are still there. *)
Definition cachedIds (limit offset : nat) (r : RedisDb) : list nat :=
  rangeOf (from_option elems [] (latestKey r)) (Z.of_nat offset)
    (Z.of_nat offset + Z.of_nat limit - 1)%Z.

Definition validNews (limit offset : nat) (r : RedisDb) : list NewsDoc :=
  omap (λ id, fst <$> newsKeys r !! id) (cachedIds limit offset r).

(** Nothing is left to do for a candidate: a stored article matches it, or
    the schema refuses it under every ObjectId. *)
Definition settled (w : World) (newsData : NewsItem) : Prop :=
  storedMatch w newsData ∨ ∀ id, isOk (validate id newsData) = false.

(** The cache after the write of one article through an answering client. *)
Definition afterCacheWrite (news : NewsDoc) (r : RedisDb) : RedisDb :=
  {| newsKeys := <[_id news := (news, 3600)]> (newsKeys r);
     categoryKeys :=
       <[doc_category news :=
           {| elems := _id news ::
                from_option elems [] (categoryKeys r !! doc_category news);
              list_ttl := Some 3600 |}]> (categoryKeys r);
     latestKey :=
       Some {| elems := take 100 (_id news :: from_option elems [] (latestKey r));
               list_ttl := latestKey r ≫= list_ttl |} |}.

(** The state with another cache content behind the answering client. *)
Definition withCache (w : World) (r : RedisDb) : World :=
  {| collection := collection w; nextId := nextId w;
     redisClient := Some {| answers := true; db := r |};
     io := io w; emitted := emitted w |}.

(** All that [broadcastNews] asks the socket server to send, in order. *)
Definition announcements (newsItems : list NewsDoc) : list Emission :=
  NewsUpdate newsItems (length newsItems) ::
  ((λ newsItem, CategoryUpdate ("category:" +:+ doc_category newsItem) newsItem)
     <$> newsItems).

(** ** More sample states *)

Module Scenarios.

(** Three stored articles of the topic politics, everything connected. *)
Definition threeStored : World :=
  {| collection := Samples.politicsDocs 3; nextId := 3;
     redisClient := Some {| answers := true; db := Samples.emptyDb |};
     io := Some {| delivers := λ _, true |};
     emitted := [] |}.

(** Another article under the fingerprint of [Samples.senate1]. *)
Definition marketsUnderSenateKey : NewsItem :=
  Samples.article "Markets rally as inflation cools" "http://e.example/5" "0a1".

(** A reading of decimal numerals for [toNumber]. *)
Fixpoint digits (acc : Z) (s : string) : option Z :=
  match s with
  | EmptyString => Some acc
  | String c s' =>
      let n := nat_of_ascii c in
      if Nat.leb 48 n && Nat.leb n 57
      then digits (10 * acc + Z.of_nat (n - 48))%Z s'
      else None
  end.

Definition decimal (s : string) : JoiNumber :=
  match s with
  | EmptyString => JNotNumber
  | _ => match digits 0%Z s with Some z => JInteger z | None => JNotNumber end
  end.

(** No escape decodes, and no search runs. *)
Definition noDecode (s : string) : option string := None.
Definition noSearch (q : string) (limit offset : nat) : M (list NewsDoc) :=
  throw TransportError.

End Scenarios.

(** * Properties *)

(** ** Facts about [Map] *)

Section JSMapFacts.
Context {K V : Type} `{EqDecision K}.
Implicit Types (m : list (K * V)) (k : K) (v : V).

Lemma Map_has_keys m k : Map_has m k = true ↔ k ∈ Map_keys m.
Proof.
  induction m as [|[k' v'] m IH]; simpl.
  - split; [discriminate | intros H0; inversion H0].
  - destruct (decide (k = k')) as [->|Hne].
    + split; [intros _; left | done].
    + rewrite IH. split; [by right | ].
      intros Hin. apply elem_of_cons in Hin as [?|?]; [congruence | done].
Qed.

Lemma Map_set_fresh m k v : Map_has m k = false → Map_set m k v = m ++ [(k, v)].
Proof.
  induction m as [|[k' v'] m IH]; simpl; [done|].
  destruct (decide (k = k')); [discriminate|].
  intros Hm. by rewrite IH.
Qed.

End JSMapFacts.

(** ** The dedup engine *)

Section DedupFacts.
Variable toLowerCase : string → string.
Variable compareTwoStrings : string → string → Q.

Abbreviation isDuplicate := (isDuplicate toLowerCase compareTwoStrings).
Abbreviation similarityScan := (similarityScan toLowerCase compareTwoStrings).
Abbreviation processAndDeduplicateNews :=
  (processAndDeduplicateNews toLowerCase compareTwoStrings).
Abbreviation similarTitles := (similarTitles toLowerCase compareTwoStrings).

Lemma aboveThreshold_spec q : aboveThreshold q = true ↔ (8 # 10 < q)%Q.
Proof.
  unfold aboveThreshold. rewrite negb_true_iff.
  destruct (Qle_bool q (8 # 10)) eqn:E.
  - apply Qle_bool_iff in E. split; [discriminate|].
    intros Hlt. exfalso. by apply (Qlt_not_le _ _ Hlt).
  - split; [intros _ | done].
    apply Qnot_le_lt. intros Hle. apply Qle_bool_iff in Hle. congruence.
Qed.

(** *** Exact-key collapsing *)

Lemma collapseStep_cases m item :
  keyed m →
  keyed (collapseStep m item) ∧
  Map_values (collapseStep m item) =
    if bool_decide (sourceHash item ∈ sourceHash <$> Map_values m)
    then Map_values m else Map_values m ++ [item].
Proof.
  intros Hk. unfold collapseStep.
  destruct (Map_has m (sourceHash item)) eqn:Hhas; simpl.
  - apply Map_has_keys in Hhas. rewrite Hk in Hhas.
    by rewrite bool_decide_eq_true_2.
  - assert (sourceHash item ∉ sourceHash <$> Map_values m) as Hnot.
    { rewrite <- Hk, <- Map_has_keys. congruence. }
    rewrite bool_decide_eq_false_2 by done.
    rewrite Map_set_fresh by done.
    unfold keyed, Map_keys, Map_values in *.
    rewrite !fmap_app, Hk. done.
Qed.

Lemma collapse_keyed items m : keyed m → keyed (foldl collapseStep m items).
Proof.
  revert m. induction items as [|x items IH]; intros m Hk; simpl; [done|].
  apply IH. by apply collapseStep_cases.
Qed.

(** One more arrival: appended exactly when its key has not been seen. *)
Lemma uniqueItems_snoc items x :
  uniqueItems (items ++ [x]) =
    if bool_decide (sourceHash x ∈ sourceHash <$> uniqueItems items)
    then uniqueItems items else uniqueItems items ++ [x].
Proof.
  unfold uniqueItems. rewrite foldl_app. simpl.
  apply collapseStep_cases, collapse_keyed. done.
Qed.

Lemma uniqueItems_nil : uniqueItems [] = [].
Proof. done. Qed.

Lemma uniqueItems_hashes items h :
  h ∈ sourceHash <$> uniqueItems items ↔ h ∈ sourceHash <$> items.
Proof.
  induction items as [|x items IH] using rev_ind; [done|].
  rewrite uniqueItems_snoc, !fmap_app, elem_of_app. simpl.
  case_bool_decide as Hx.
  - rewrite IH. split; [by left|]. intros [?|Hin]; [done|].
    apply list_elem_of_singleton in Hin as ->. by apply IH.
  - rewrite fmap_app, elem_of_app, IH. done.
Qed.

Lemma uniqueItems_sublist items : uniqueItems items `sublist_of` items.
Proof.
  induction items as [|x items IH] using rev_ind; [done|].
  rewrite uniqueItems_snoc. case_bool_decide.
  - by apply sublist_inserts_r.
  - by apply sublist_app.
Qed.

Lemma uniqueItems_NoDup items : NoDup (sourceHash <$> uniqueItems items).
Proof.
  induction items as [|x items IH] using rev_ind; [constructor|].
  rewrite uniqueItems_snoc. case_bool_decide as Hx; [done|].
  rewrite fmap_app. apply NoDup_app. split; [done|]. split.
  - intros h Hh Hin. apply list_elem_of_singleton in Hin as ->. done.
  - apply NoDup_singleton.
Qed.

Lemma uniqueItems_earliest items x :
  x ∈ uniqueItems items ↔ ∃ i, earliestWithKey items i x.
Proof.
  induction items as [|x0 items IH] using rev_ind.
  - split; [intros Hin; inversion Hin | intros (i & Hi & _); done].
  - rewrite uniqueItems_snoc. split.
    + intros Hin.
      assert (x ∈ uniqueItems items ∨
              (x = x0 ∧ sourceHash x0 ∉ sourceHash <$> uniqueItems items)) as [Hold|[-> Hnew]].
      { case_bool_decide; [by left|].
        apply elem_of_app in Hin as [?|Hin]; [by left|].
        apply list_elem_of_singleton in Hin. by right. }
      * apply IH in Hold as (i & Hi & Hfirst). exists i.
        pose proof (lookup_lt_Some _ _ _ Hi) as Hlt. split.
        -- by rewrite lookup_app_l.
        -- intros j y Hj Hy. rewrite lookup_app_l in Hy by lia. eauto.
      * exists (length items). split.
        -- by rewrite list_lookup_middle.
        -- intros j y Hj Hy Heq. rewrite lookup_app_l in Hy by lia.
           apply Hnew. rewrite uniqueItems_hashes, <- Heq.
           apply list_elem_of_fmap. exists y. split; [done|].
           by eapply list_elem_of_lookup_2.
    + intros (i & Hi & Hfirst).
      destruct (decide (i < length items)) as [Hlt|Hge].
      * rewrite lookup_app_l in Hi by done.
        assert (x ∈ uniqueItems items) as Hin.
        { apply IH. exists i. split; [done|].
          intros j y Hj Hy. apply (Hfirst j y Hj). by rewrite lookup_app_l by lia. }
        case_bool_decide; [done|]. apply elem_of_app. by left.
      * pose proof (lookup_lt_Some _ _ _ Hi) as Hlen.
        rewrite length_app in Hlen. simpl in Hlen.
        assert (i = length items) as -> by lia.
        rewrite list_lookup_middle in Hi by done. injection Hi as ->.
        rewrite bool_decide_eq_false_2.
        { apply elem_of_app. right. by apply list_elem_of_singleton. }
        rewrite uniqueItems_hashes. intros Hin.
        apply list_elem_of_fmap in Hin as (y & Heq & Hy).
        apply list_elem_of_lookup in Hy as (j & Hj).
        pose proof (lookup_lt_Some _ _ _ Hj) as Hjlt.
        apply (Hfirst j y Hjlt); [|done]. by rewrite lookup_app_l by lia.
Qed.

(** *** The similarity scan *)

Lemma isDuplicate_spec item processedItems :
  titled item → Forall titled processedItems →
  ∃ dup, isDuplicate item processedItems = Ok dup ∧
    (dup = true ↔ ∃ e, e ∈ processedItems ∧ similarTitles item e).
Proof.
  intros [t Ht] Hall. induction Hall as [|e rest [t' Ht'] _ IH]; simpl.
  - exists false. split; [done|]. split; [done|].
    intros (e & He & _). inversion He.
  - unfold lowerTitle. rewrite Ht, Ht'. simpl.
    destruct (aboveThreshold _) eqn:Hs.
    + exists true. split; [done|]. split; [|done]. intros _.
      exists e. split; [left|]. exists t, t'. by rewrite <- aboveThreshold_spec.
    + destruct IH as (dup & Hdup & Hiff). exists dup. split; [done|].
      rewrite Hiff. split.
      * intros (e' & He' & Hsim). exists e'. split; [by right|done].
      * intros (e' & He' & Hsim).
        apply elem_of_cons in He' as [->|He']; [|by eauto].
        destruct Hsim as (u & u' & Hu & Hu' & Hlt).
        rewrite Ht in Hu. rewrite Ht' in Hu'. injection Hu as <-. injection Hu' as <-.
        apply aboveThreshold_spec in Hlt. congruence.
Qed.

Lemma similarityScan_app items1 items2 processedItems :
  similarityScan (items1 ++ items2) processedItems =
    similarityScan items1 processedItems ≫= similarityScan items2.
Proof.
  revert processedItems. induction items1 as [|x items1 IH]; intros acc; simpl; [done|].
  destruct (isDuplicate x acc) as [[]|]; simpl; auto.
Qed.

(** Whatever the scan returns extends the accepted list by a subsequence
    of the scanned items. *)
Lemma similarityScan_extends items processedItems out :
  similarityScan items processedItems = Ok out →
  ∃ kept, out = processedItems ++ kept ∧ kept `sublist_of` items.
Proof.
  revert processedItems. induction items as [|x items IH]; intros acc; simpl.
  - intros [= <-]. exists []. by rewrite app_nil_r.
  - destruct (isDuplicate x acc) as [[]|]; simpl; [| |done].
    + intros (kept & -> & Hsub)%IH. exists kept. split; [done|].
      by apply sublist_cons.
    + intros (kept & -> & Hsub)%IH. exists (x :: kept).
      rewrite <- app_assoc. split; [done|]. by apply sublist_skip.
Qed.

(** With every title defined the scan returns. *)
Lemma similarityScan_total items processedItems :
  Forall titled items → Forall titled processedItems →
  ∃ out, similarityScan items processedItems = Ok out ∧ Forall titled out.
Proof.
  intros Hitems. revert processedItems.
  induction Hitems as [|x items Hx _ IH]; intros acc Hacc; simpl.
  - by exists acc.
  - destruct (isDuplicate_spec x acc Hx Hacc) as (dup & -> & _). simpl.
    destruct dup; simpl; apply IH; [done|].
    apply Forall_app. split; [done|]. by apply Forall_singleton.
Qed.

(** The turn of one candidate, given what has been accepted before it. *)
Lemma similarityScan_turn pre item accepted :
  titled item → Forall titled accepted →
  similarityScan pre [] = Ok accepted →
  ((∃ e, e ∈ accepted ∧ similarTitles item e) →
     similarityScan (pre ++ [item]) [] = Ok accepted) ∧
  ((¬ ∃ e, e ∈ accepted ∧ similarTitles item e) →
     similarityScan (pre ++ [item]) [] = Ok (accepted ++ [item])).
Proof.
  intros Hitem Hacc Hpre. rewrite similarityScan_app, Hpre. simpl.
  destruct (isDuplicate_spec item accepted Hitem Hacc) as (dup & -> & Hiff). simpl.
  split; intros Hsim.
  - apply Hiff in Hsim as ->. done.
  - destruct dup; [|done]. exfalso. apply Hsim. by apply Hiff.
Qed.

Lemma Forall_titled_sublist (l1 l2 : list NewsItem) :
  l1 `sublist_of` l2 → Forall titled l2 → Forall titled l1.
Proof.
  intros Hsub Hall. apply Forall_forall. intros x Hx.
  eapply Forall_forall; [exact Hall|]. by eapply sublist_subseteq.
Qed.

(** Two arrivals whose titles are similar: the first one is the output. *)
Lemma processAndDeduplicateNews_pair a b :
  similarTitles b a → processAndDeduplicateNews [a; b] = Ok [a].
Proof.
  intros (t & t' & Ht & Ht' & Hlt).
  unfold processAndDeduplicateNews.
  change [a; b] with ([a] ++ [b]). rewrite uniqueItems_snoc.
  change (uniqueItems [a]) with [a].
  case_bool_decide; simpl; [done|].
  unfold lowerTitle. rewrite Ht, Ht'. simpl.
  apply aboveThreshold_spec in Hlt. by rewrite Hlt.
Qed.

(** The [break]: a similar accepted item ends the comparison, whatever
    follows it in the accepted list. *)
Lemma isDuplicate_break item existingItem rest :
  similarTitles item existingItem →
  isDuplicate item (existingItem :: rest) = Ok true.
Proof.
  intros (t & t' & Ht & Ht' & Hlt). simpl. unfold lowerTitle. rewrite Ht, Ht'. simpl.
  apply aboveThreshold_spec in Hlt. by rewrite Hlt.
Qed.

(** With every title defined the engine returns. *)
Lemma processAndDeduplicateNews_total newsItems :
  Forall titled newsItems → ∃ out, processAndDeduplicateNews newsItems = Ok out.
Proof.
  intros Hall.
  destruct (similarityScan_total (uniqueItems newsItems) []) as (out & Hout & _);
    [|done|by exists out].
  eapply Forall_titled_sublist; [apply uniqueItems_sublist|done].
Qed.

(** C1.  Near-duplicate rejection is order-sensitive, first accepted wins.
    With every title defined the engine returns, and for every candidate
    [item] of the collapsed batch, with [accepted] the items accepted before
    its turn: the candidate is rejected ([accepted] is unchanged after its
    turn) exactly when its lower-cased title scores above 0.8 against the
    lower-cased title of at least one accepted item, and it is appended
    otherwise; what stands after its turn is a prefix of the output.  The
    comparison stops at the first similar accepted item.  Hence of two
    similar titles the one that arrives first is the output, in either order
    of arrival. *)
Theorem near_duplicate_first_accepted_wins (newsItems : list NewsItem) :
  Forall titled newsItems →
  (∀ pre item post, uniqueItems newsItems = pre ++ item :: post →
     ∃ accepted after rest,
       similarityScan pre [] = Ok accepted ∧
       similarityScan (pre ++ [item]) [] = Ok after ∧
       (after = accepted ↔ ∃ e, e ∈ accepted ∧ similarTitles item e) ∧
       (after = accepted ++ [item] ↔ ¬ ∃ e, e ∈ accepted ∧ similarTitles item e) ∧
       processAndDeduplicateNews newsItems = Ok (after ++ rest) ∧
       rest `sublist_of` post) ∧
  (∀ item existingItem others, similarTitles item existingItem →
     isDuplicate item (existingItem :: others) = Ok true) ∧
  (∀ a b, similarTitles b a → similarTitles a b →
     processAndDeduplicateNews [a; b] = Ok [a] ∧
     processAndDeduplicateNews [b; a] = Ok [b]).
Proof.
  intros Hall.
  split; [|split; [apply isDuplicate_break|
                   intros a b Hba Hab; split; by apply processAndDeduplicateNews_pair]].
  intros pre item post Hsplit.
  assert (Forall titled (pre ++ item :: post)) as Huniq.
  { rewrite <- Hsplit. eapply Forall_titled_sublist; [apply uniqueItems_sublist|done]. }
  apply Forall_app in Huniq as [Hpre Hrest].
  apply Forall_cons in Hrest as [Hitem Hpost].
  destruct (similarityScan_total pre [] Hpre) as (accepted & Hacc & Htacc); [done|].
  destruct (isDuplicate_spec item accepted Hitem Htacc) as (dup & Hdup & Hiff).
  set (after := if dup then accepted else accepted ++ [item]).
  assert (similarityScan (pre ++ [item]) [] = Ok after) as Hafter.
  { rewrite similarityScan_app, Hacc. simpl. rewrite Hdup. simpl. by destruct dup. }
  assert (Forall titled after) as Htafter.
  { subst after. destruct dup; [done|]. apply Forall_app. split; [done|].
    by apply Forall_singleton. }
  destruct (similarityScan_total post after Hpost Htafter) as (out & Hout & _).
  destruct (similarityScan_extends _ _ _ Hout) as (rest & -> & Hsub).
  exists accepted, after, rest. repeat split; try done.
  - intros Heq. apply Hiff. subst after. destruct dup; [done|].
    apply (f_equal length) in Heq. rewrite length_app in Heq. simpl in Heq. lia.
  - intros Hsim. apply Hiff in Hsim. subst after. by rewrite Hsim.
  - intros Heq Hsim. apply Hiff in Hsim. subst after. rewrite Hsim in Heq.
    apply (f_equal length) in Heq. rewrite length_app in Heq. simpl in Heq. lia.
  - intros Hsim. subst after. destruct dup; [|done]. exfalso. apply Hsim. by apply Hiff.
  - unfold processAndDeduplicateNews. rewrite Hsplit.
    change (pre ++ item :: post) with (pre ++ [item] ++ post).
    rewrite app_assoc, similarityScan_app, Hafter. done.
Qed.

End DedupFacts.

Lemma near_duplicate_first_accepted_wins_witness :
  processAndDeduplicateNews StringSimilarity.toLowerCase
    StringSimilarity.compareTwoStrings [Samples.senate1; Samples.senate2]
    = Ok [Samples.senate1] ∧
  processAndDeduplicateNews StringSimilarity.toLowerCase
    StringSimilarity.compareTwoStrings [Samples.senate2; Samples.senate1]
    = Ok [Samples.senate2].
Proof.
  assert (Forall titled [Samples.senate1; Samples.senate2]) as Hall.
  { repeat constructor; by eexists. }
  apply (near_duplicate_first_accepted_wins StringSimilarity.toLowerCase
           StringSimilarity.compareTwoStrings _ Hall).
  - exists "Senate passes new budget bill today", "Senate Passes New Budget Bill".
    repeat split. 
  - exists "Senate Passes New Budget Bill", "Senate passes new budget bill today".
    repeat split.
Defined.

Example end_to_end_dedup :
  processAndDeduplicateNews StringSimilarity.toLowerCase
    StringSimilarity.compareTwoStrings
    [Samples.senate1; Samples.senate1_again; Samples.other]
  = Ok [Samples.senate1; Samples.other].
Proof. vm_compute. reflexivity. Qed.

(** ** Normalisation: category mapping and the admission gate *)

Lemma truthyString_spec s : truthyString s = true ↔ s ≠ "".
Proof. destruct s; simpl; split; (done || congruence). Qed.

Lemma truthyString_length s : 0 < String.length s → truthyString s = true.
Proof. destruct s; simpl; [lia|done]. Qed.

(** C4, as the code has it.  A label that is not a key of the lookup table
    (and not the name of a member inherited from [Object.prototype]) is
    returned as it is: the topic is the literal label; and the only label
    whose topic is [general] is [general] itself. *)
Theorem mapCategory_unmapped_is_literal (label : string) :
  ownProperty categoryMap label = None →
  label ∉ Object_prototype →
  mapCategory label = Label label ∧
  (mapCategory label = Label "general" ↔ label = "general").
Proof.
  intros Hown Hproto. unfold mapCategory. rewrite Hown.
  rewrite bool_decide_eq_false_2 by done.
  split; [done|]. split; [by intros [= ->] | by intros ->].
Qed.

Lemma mapCategory_unmapped_is_literal_witness :
  mapCategory "technology" = Label "technology" ∧
  (mapCategory "technology" = Label "general" ↔ "technology" = "general").
Proof.
  apply (mapCategory_unmapped_is_literal "technology"); [reflexivity|].
  apply (bool_decide_unpack _). vm_compute. exact I.
Defined.

(** C4, the claim as stated fails.  The label politics is not a key of
    the table and its topic is politics, not general. *)
Lemma mapCategory_unmapped_not_general :
  ownProperty categoryMap "politics" = None ∧
  mapCategory "politics" = Label "politics" ∧
  mapCategory "politics" ≠ Label "general".
Proof. split; [done|]. split; [done|]. vm_compute. discriminate. Qed.

Lemma isValidNewsItem_spec item :
  isValidNewsItem item = true ↔
  ∃ t u, title item = Some t ∧ url item = Some u ∧ u ≠ "" ∧ source item ≠ "" ∧
         10 < String.length t ∧ 20 < String.length (summary item).
Proof.
  unfold isValidNewsItem, truthyDate.
  rewrite !andb_true_iff, Nat.ltb_lt. split.
  - intros ((((((Ht & _) & Hs) & Hu) & _) & Hlen) & Hsum).
    destruct (title item) as [t|]; [|done].
    destruct (url item) as [u|]; [|done]. simpl in *.
    apply Nat.ltb_lt in Hlen.
    exists t, u. by rewrite <- !truthyString_spec.
  - intros (t & u & -> & -> & Hu & Hs & Hlen & Hsum). simpl.
    rewrite Nat.ltb_lt, !truthyString_spec.
    repeat split; try done.
    + apply truthyString_spec, truthyString_length. lia.
    + apply truthyString_spec, truthyString_length. lia.
Qed.

Section AdapterFacts.
Variable md5hex : string → string.
Variable newDate : option string → JSDate.

(** [isValidNewsItem] sees a complete literal: the hash is computed first,
    and a push happens only for an item it accepted. *)
Lemma hashThenGate_calls content mk calls r :
  hashThenGate md5hex content mk = (calls, r) →
  (∃ e, calls = [CallGenerateHash content] ∧ r = Throw e) ∨
  (∃ item,
     if isValidNewsItem item
     then calls = [CallGenerateHash content; CallIsValidNewsItem item;
                   CallPush item] ∧ r = Ok [item]
     else calls = [CallGenerateHash content; CallIsValidNewsItem item] ∧
          r = Ok []).
Proof.
  unfold hashThenGate. destruct (generateHash md5hex content) as [h|e].
  - destruct (isValidNewsItem (mk h)) eqn:Hv; intros [= <- <-]; right;
      exists (mk h); by rewrite Hv.
  - intros [= <- <-]. left. by exists e.
Qed.

Lemma hashThenGate_pushed content mk calls pushed :
  hashThenGate md5hex content mk = (calls, Ok pushed) →
  Forall (λ item, isValidNewsItem item = true) pushed.
Proof.
  intros H0. apply hashThenGate_calls in H0 as [(e & _ & [=])|(item & H0)].
  destruct (isValidNewsItem item) eqn:Hv; destruct H0 as [_ [= ->]].
  - by apply Forall_singleton.
  - constructor.
Qed.

Lemma entryLoop_pushed {E} (body : E → list Call * result (list NewsItem)) entries :
  (∀ e calls pushed, body e = (calls, Ok pushed) →
     Forall (λ item, isValidNewsItem item = true) pushed) →
  Forall (λ item, isValidNewsItem item = true) (entryLoop body entries).2.
Proof.
  intros Hbody. induction entries as [|e entries IH]; simpl; [constructor|].
  destruct (body e) as [calls [pushed|err]] eqn:He; [|constructor].
  destruct (entryLoop body entries) as [calls' pushed']. simpl in *.
  apply Forall_app. split; [by eapply Hbody|done].
Qed.

Lemma rssEntry_pushed name cat e calls pushed :
  rssEntry md5hex newDate name cat e = (calls, Ok pushed) →
  Forall (λ item, isValidNewsItem item = true) pushed.
Proof.
  unfold rssEntry. destruct (extractImage e); [|done]. apply hashThenGate_pushed.
Qed.

Lemma guardianEntry_pushed name cat a calls pushed :
  guardianEntry md5hex newDate name cat a = (calls, Ok pushed) →
  Forall (λ item, isValidNewsItem item = true) pushed.
Proof. apply hashThenGate_pushed. Qed.

Lemma fetchRSSNews_pushed name feeds :
  Forall (λ item, isValidNewsItem item = true) (fetchRSSNews md5hex newDate name feeds).2.
Proof.
  induction feeds as [|[cat feed] feeds IH]; simpl; [constructor|].
  destruct (fetchRSSNews md5hex newDate name feeds) as [calls' pushed'].
  destruct feed as [items|err].
  - pose proof (entryLoop_pushed (rssEntry md5hex newDate name cat) (take 10 items)
                  (rssEntry_pushed name cat)) as Hloop.
    destruct (entryLoop _ _) as [calls pushed]. simpl in *.
    apply Forall_app. done.
  - done.
Qed.

Lemma fetchGuardianNews_pushed name apiKey pages :
  Forall (λ item, isValidNewsItem item = true)
    (fetchGuardianNews md5hex newDate name apiKey pages).2.
Proof.
  unfold fetchGuardianNews. destruct (negb (truthy apiKey)); [constructor|].
  induction pages as [|[cat page] pages IH]; simpl; [constructor|].
  destruct (guardianPages md5hex newDate name pages) as [calls' pushed'].
  destruct page as [articles|err].
  - pose proof (entryLoop_pushed (guardianEntry md5hex newDate name cat) articles
                  (guardianEntry_pushed name cat)) as Hloop.
    destruct (entryLoop _ _) as [calls pushed]. simpl in *.
    apply Forall_app. done.
  - done.
Qed.

Lemma allNews_valid sources :
  Forall (λ item, isValidNewsItem item = true) (allNews md5hex newDate sources).
Proof.
  unfold allNews. induction sources as [|s sources IH]; simpl; [constructor|].
  apply Forall_app. split; [|done].
  destruct s as [name feeds|name apiKey pages]; simpl.
  - apply fetchRSSNews_pushed.
  - destruct (decide (name = "The Guardian")); [|constructor].
    apply fetchGuardianNews_pushed.
Qed.

Lemma hashThenGate_order content mk calls r item :
  hashThenGate md5hex content mk = (calls, r) →
  CallIsValidNewsItem item ∈ calls →
  ∃ rest, calls = CallGenerateHash content :: CallIsValidNewsItem item :: rest ∧
    (isValidNewsItem item = false → rest = [] ∧ r = Ok []) ∧
    (isValidNewsItem item = true → rest = [CallPush item] ∧ r = Ok [item]).
Proof.
  intros H0 Hin.
  apply hashThenGate_calls in H0 as [(e & -> & _)|(item' & H0)].
  { apply list_elem_of_singleton in Hin. done. }
  destruct (isValidNewsItem item') eqn:Hv; destruct H0 as [-> ->].
  - assert (item = item') as ->.
    { rewrite !elem_of_cons in Hin. destruct Hin as [|[|[|Hin]]]; try congruence.
      inversion Hin. }
    exists [CallPush item']. rewrite Hv. done.
  - assert (item = item') as ->.
    { rewrite !elem_of_cons in Hin. destruct Hin as [|[|Hin]]; try congruence.
      inversion Hin. }
    exists []. rewrite Hv. done.
Qed.

(** C3, as the code has it.  [isValidNewsItem] accepts an item exactly when
    title and url are defined, url and source are non-empty, the title has
    more than 10 and the summary more than 20 code units; a title of 10 is
    rejected, a title of 11 with a summary above 20 (and source and url
    present) is accepted; every item of the batch handed to the dedup engine
    was accepted.  The fingerprint is not computed after the admission: in
    both adapters the call of [generateHash] on an entry precedes the call of
    [isValidNewsItem] on it, and a rejected item is not pushed. *)
Theorem admission_gate_after_fingerprint :
  (∀ item, isValidNewsItem item = true ↔
     ∃ t u, title item = Some t ∧ url item = Some u ∧ u ≠ "" ∧ source item ≠ "" ∧
            10 < String.length t ∧ 20 < String.length (summary item)) ∧
  (∀ item t, title item = Some t → String.length t = 10 →
     isValidNewsItem item = false) ∧
  (∀ item t u, title item = Some t → String.length t = 11 →
     20 < String.length (summary item) →
     url item = Some u → u ≠ "" → source item ≠ "" →
     isValidNewsItem item = true) ∧
  (∀ sources item, item ∈ allNews md5hex newDate sources →
     isValidNewsItem item = true) ∧
  (∀ name cat entry calls r item,
     rssEntry md5hex newDate name cat entry = (calls, r) →
     CallIsValidNewsItem item ∈ calls →
     ∃ hashed rest,
       calls = CallGenerateHash hashed :: CallIsValidNewsItem item :: rest ∧
       (isValidNewsItem item = false → rest = [] ∧ r = Ok []) ∧
       (isValidNewsItem item = true → rest = [CallPush item] ∧ r = Ok [item])) ∧
  (∀ name cat article calls r item,
     guardianEntry md5hex newDate name cat article = (calls, r) →
     CallIsValidNewsItem item ∈ calls →
     ∃ hashed rest,
       calls = CallGenerateHash hashed :: CallIsValidNewsItem item :: rest ∧
       (isValidNewsItem item = false → rest = [] ∧ r = Ok []) ∧
       (isValidNewsItem item = true → rest = [CallPush item] ∧ r = Ok [item])).
Proof.
  split; [apply isValidNewsItem_spec|].
  split.
  { intros item t Ht Hlen. destruct (isValidNewsItem item) eqn:Hv; [|done].
    apply isValidNewsItem_spec in Hv as (t' & u & Ht' & _ & _ & _ & Hlt & _).
    rewrite Ht in Ht'. injection Ht' as <-. lia. }
  split.
  { intros item t u Ht Hlen Hsum Hu Hne Hs. apply isValidNewsItem_spec.
    exists t, u. repeat split; try done. lia. }
  split.
  { intros sources item Hin.
    by apply (proj1 (Forall_forall _ _) (allNews_valid sources)). }
  split.
  - intros name cat entry calls r item. unfold rssEntry.
    destruct (extractImage entry) as [img|e].
    + intros H0 Hin. eexists. by eapply hashThenGate_order.
    + intros [= <- <-] Hin. inversion Hin.
  - intros name cat article calls r item H0 Hin.
    eexists. by eapply hashThenGate_order.
Qed.

End AdapterFacts.

(** C3, the claim as stated fails.  A rejected entry has been
    fingerprinted: for the feed entry with the ten-unit headline the call of
    [generateHash] is there, [isValidNewsItem] then rejects the item, and
    nothing is pushed.  And an entry with neither title nor link is not
    dropped by [isValidNewsItem]: the fingerprint of [undefined + undefined]
    throws before it is called, which ends the loop over the feed, so that
    the entry after it, which is accepted on its own, is not pushed. *)
Lemma fingerprint_precedes_gate :
  ∃ hashed, ∀ md5hex newDate,
    (∃ item,
       title item = Some "Ten chars!" ∧
       sourceHash item = md5hex hashed ∧
       isValidNewsItem item = false ∧
       rssEntry md5hex newDate "BBC" "general" Samples.shortEntry =
         ([CallGenerateHash (Some hashed); CallIsValidNewsItem item], Ok [])) ∧
    entryLoop (rssEntry md5hex newDate "BBC" "general")
      [Samples.blankEntry; Samples.goodEntry] = ([CallGenerateHash None], []) ∧
    ∃ item,
      entryLoop (rssEntry md5hex newDate "BBC" "general") [Samples.goodEntry] =
        ([CallGenerateHash (Some "Senate Passes New Budget Billhttp://a.example/1");
          CallIsValidNewsItem item; CallPush item], [item]).
Proof.
  exists "Ten chars!http://a.example/10". intros md5hex newDate.
  split; [|split].
  - eexists. split; [|split; [|split]]; [| |
      |unfold rssEntry, hashThenGate; simpl; reflexivity]; reflexivity.
  - reflexivity.
  - eexists. reflexivity.
Qed.

(** ** The monad *)

Section Keeps.
Context (R : relation World) `{!Reflexive R, !Transitive R}.

Lemma keeps_ret {A} (a : A) : keeps R (mret a).
Proof. intros w r w' [= <- <-]. reflexivity. Qed.

Lemma keeps_throw {A} e : keeps R (throw (A := A) e).
Proof. intros w r w' [= <- <-]. reflexivity. Qed.

Lemma keeps_bind {A B} (m : M A) (f : A → M B) :
  keeps R m → (∀ a, keeps R (f a)) → keeps R (m ≫= f).
Proof.
  intros Hm Hf w r w'. unfold mbind, M_bind.
  destruct (m w) as [[a|e] w1] eqn:Hmw.
  - intros Hfa. etrans; [by eapply Hm | by eapply Hf].
  - intros [= <- <-]. by eapply Hm.
Qed.

Lemma keeps_tryCatch {A} (body : M A) (handler : Exn → M A) :
  keeps R body → (∀ e, keeps R (handler e)) → keeps R (tryCatch body handler).
Proof.
  intros Hb Hh w r w'. unfold tryCatch.
  destruct (body w) as [[a|e] w1] eqn:Hbw.
  - intros [= <- <-]. by eapply Hb.
  - intros Hhe. etrans; [by eapply Hb | by eapply Hh].
Qed.

Lemma keeps_mapM {A B} (f : A → M B) (xs : list A) :
  (∀ x, keeps R (f x)) → keeps R (mapM f xs).
Proof.
  intros Hf. induction xs as [|x xs IH]; simpl.
  - apply keeps_ret.
  - apply keeps_bind; [done|]. intros y.
    apply keeps_bind; [done|]. intros ys. apply keeps_ret.
Qed.

End Keeps.

(** A [catch] that returns makes the whole statement return. *)
Lemma tryCatch_returns {A} (body : M A) (a0 : A) w :
  ∃ a w', tryCatch body (λ _, mret a0) w = (Ok a, w').
Proof.
  unfold tryCatch. destruct (body w) as [[a|e] w1]; [by exists a, w1|by exists a0, w1].
Qed.

#[local] Instance awayFromRedis_refl : Reflexive awayFromRedis.
Proof. by intros w. Qed.
#[local] Instance awayFromRedis_trans : Transitive awayFromRedis.
Proof.
  intros w1 w2 w3 [[? ?] [? ?]] [[? ?] [? ?]].
  unfold awayFromRedis, sameStore, sameSocket. repeat split; congruence.
Qed.

Lemma command_frame {A} (run : RedisDb → A * RedisDb) : keeps awayFromRedis (command run).
Proof.
  intros w r w'. unfold command. intros H0. repeat case_match; by simplify_eq.
Qed.

Lemma command_unanswered {A} (run : RedisDb → A * RedisDb) w d :
  redisClient w = Some {| answers := false; db := d |} →
  command run w = (Throw ClientClosedError, w).
Proof. intros Hc. unfold command. by rewrite Hc. Qed.

(** ** The fanout publisher *)

Lemma emit_frame e w r w' :
  emit e w = (r, w') →
  sameStore w w' ∧ sameRedis w w' ∧ io w' = io w ∧ emitted w `prefix_of` emitted w'.
Proof.
  unfold emit. destruct (io w) as [server|] eqn:Hio; [destruct (delivers server e)|];
    intros [= <- <-]; repeat split; try done.
  simpl. by apply prefix_app_r.
Qed.

Lemma mapM_emit_frame (f : NewsDoc → Emission) items w r w' :
  mapM (λ x, emit (f x)) items w = (r, w') →
  sameStore w w' ∧ sameRedis w w' ∧ io w' = io w ∧ emitted w `prefix_of` emitted w'.
Proof.
  revert w r w'. induction items as [|x items IH]; intros w r w'; simpl.
  - by intros [= <- <-].
  - unfold mbind, M_bind.
    destruct (emit (f x) w) as [[[]|e] w1] eqn:He.
    + apply emit_frame in He as ((Hc & Hn) & Hr & Hio & Hpre).
      destruct (mapM _ items w1) as [[ys|e] w2] eqn:Hrest;
        apply IH in Hrest as ((Hc' & Hn') & Hr' & Hio' & Hpre');
        intros [= <- <-]; unfold sameStore, sameRedis in *;
        (repeat split; [congruence..|by etrans]).
    + apply emit_frame in He. by intros [= <- <-].
Qed.

Lemma broadcastNews_returns newsItems w :
  ∃ w', broadcastNews newsItems w = (Ok tt, w') ∧
    sameStore w w' ∧ sameRedis w w' ∧ io w' = io w ∧
    emitted w `prefix_of` emitted w'.
Proof.
  unfold broadcastNews, mbind, M_bind, getSocketInstance. simpl.
  destruct (io w) as [server|] eqn:Hio; [|by exists w].
  unfold tryCatch, mbind, M_bind.
  destruct (emit _ w) as [[[]|e] w1] eqn:He;
    apply emit_frame in He as ((Hc & Hn) & Hr & Hio1 & Hpre).
  - destruct (mapM _ newsItems w1) as [[ys|e] w2] eqn:Hrest;
      apply (mapM_emit_frame (λ newsItem,
               CategoryUpdate ("category:" +:+ doc_category newsItem) newsItem))
        in Hrest as ((Hc' & Hn') & Hr' & Hio' & Hpre');
      exists w2; unfold sameStore, sameRedis, mret, M_ret in *;
      (repeat split; [congruence..|by etrans]).
  - exists w1. unfold sameStore, sameRedis, mret, M_ret in *.
    repeat split; congruence || done.
Qed.

(** ** The store gateway *)

Lemma cacheNews_frame news : keeps awayFromRedis (cacheNews news).
Proof.
  unfold cacheNews. apply keeps_tryCatch; [apply _..| |intros; by apply keeps_ret].
  apply keeps_bind; [apply _..|by intros w r w' [= <- <-]|].
  intros [c|]; [|by apply keeps_ret].
  repeat (apply keeps_bind; [apply _..|apply command_frame|intros _]).
  apply command_frame.
Qed.

Lemma cacheNews_returns news w :
  ∃ w', cacheNews news w = (Ok tt, w') ∧ sameStore w w' ∧ sameSocket w w'.
Proof.
  destruct (tryCatch_returns
              (redis ← getRedisClient;
               match redis with
               | Some _ =>
                   _ ← redis_setEx (_id news) 3600 news;
                   _ ← redis_lPush (CategoryList (doc_category news)) (_id news);
                   _ ← redis_expire (CategoryList (doc_category news)) 3600;
                   _ ← redis_lPush LatestList (_id news);
                   redis_lTrim LatestList 0 99
               | None => mret tt
               end) tt w) as ([] & w' & Hrun).
  exists w'. split; [exact Hrun|]. by apply (cacheNews_frame news w (Ok tt) w').
Qed.

Lemma validate_keys id newsData d :
  validate id newsData = Ok d →
  _id d = id ∧ url newsData = Some (doc_url d) ∧
  doc_sourceHash d = sourceHash newsData ∧ isActive d = true.
Proof.
  unfold validate. intros H0. repeat case_match; by simplify_eq.
Qed.

Lemma findOne_none newsData (docs : list NewsDoc) :
  List.find (matchesNaturalKey newsData) docs = None ↔
  ∀ d, d ∈ docs → matchesNaturalKey newsData d = false.
Proof.
  split.
  - intros Hnone d Hd. apply (find_none _ _ Hnone). by apply list_elem_of_In.
  - intros Hall. destruct (List.find _ docs) as [d|] eqn:Hfind; [|done].
    apply find_some in Hfind as [Hin Hm]. apply list_elem_of_In in Hin.
    rewrite (Hall d Hin) in Hm. done.
Qed.

Lemma findOne_some newsData (docs : list NewsDoc) :
  is_Some (List.find (matchesNaturalKey newsData) docs) ↔
  ∃ d, d ∈ docs ∧ matchesNaturalKey newsData d = true.
Proof.
  split.
  - intros [d Hfind]. apply find_some in Hfind as [Hin Hm].
    exists d. split; [by apply list_elem_of_In|done].
  - intros (d & Hin & Hm). destruct (List.find _ docs) as [d'|] eqn:Hfind; [by eexists|].
    rewrite (proj1 (findOne_none _ _) Hfind d Hin) in Hm. done.
Qed.

(** A stored match: nothing is attempted. *)
Lemma saveOne_existing savedNews newsData w :
  is_Some (List.find (matchesNaturalKey newsData) (collection w)) →
  saveOne savedNews newsData w = (Ok savedNews, w).
Proof.
  intros [d Hfind]. unfold saveOne, tryCatch, mbind, M_bind, News_findOne.
  by rewrite Hfind.
Qed.

(** No stored match, and the schema refuses the candidate: an ObjectId is
    spent and nothing is stored. *)
Lemma saveOne_refused savedNews newsData w e :
  List.find (matchesNaturalKey newsData) (collection w) = None →
  validate (nextId w) newsData = Throw e →
  ∃ w', saveOne savedNews newsData w = (Ok savedNews, w') ∧
    collection w' = collection w ∧ nextId w' = S (nextId w) ∧
    sameRedis w w' ∧ sameSocket w w'.
Proof.
  intros Hfind Hval. unfold saveOne, tryCatch, mbind, M_bind, News_findOne.
  rewrite Hfind. unfold News_new, News_save. simpl. rewrite Hval.
  eexists. split; [reflexivity|done].
Qed.

(** No stored match, and the schema accepts: the document is stored and
    pushed on [savedNews]. *)
Lemma saveOne_inserted savedNews newsData w d :
  List.find (matchesNaturalKey newsData) (collection w) = None →
  validate (nextId w) newsData = Ok d →
  ∃ w', saveOne savedNews newsData w = (Ok (savedNews ++ [d]), w') ∧
    collection w' = collection w ++ [d] ∧ nextId w' = S (nextId w) ∧
    sameSocket w w'.
Proof.
  intros Hfind Hval. unfold saveOne, tryCatch, mbind, M_bind, News_findOne.
  rewrite Hfind. unfold News_new, News_save. simpl. rewrite Hval.
  assert (existsb (λ d', bool_decide (doc_url d' = doc_url d)) (collection w) = false)
    as ->.
  { destruct (existsb _ _) eqn:Hex; [|done].
    apply existsb_exists in Hex as (d' & Hin & Heq).
    apply bool_decide_eq_true in Heq. apply list_elem_of_In in Hin.
    pose proof (proj1 (findOne_none _ _) Hfind d' Hin) as Hm.
    apply validate_keys in Hval as (_ & Hu & _).
    unfold matchesNaturalKey in Hm. apply orb_false_iff in Hm as [Hm _].
    apply bool_decide_eq_false in Hm. congruence. }
  match goal with
  | |- context [cacheNews d ?w2] =>
      destruct (cacheNews_returns d w2) as (w3 & -> & (Hc & Hn) & Hs)
  end.
  exists w3. split; [done|]. simpl in *. done.
Qed.

Lemma matchesNaturalKey_spec newsData d :
  matchesNaturalKey newsData d = true ↔
  url newsData = Some (doc_url d) ∨ sourceHash newsData = doc_sourceHash d.
Proof.
  unfold matchesNaturalKey. rewrite orb_true_iff, !bool_decide_eq_true. done.
Qed.

Lemma storedMatch_find w newsData :
  storedMatch w newsData ↔
  is_Some (List.find (matchesNaturalKey newsData) (collection w)).
Proof.
  rewrite findOne_some. unfold storedMatch.
  by setoid_rewrite matchesNaturalKey_spec.
Qed.

Lemma not_storedMatch_find w newsData :
  ¬ storedMatch w newsData ↔
  List.find (matchesNaturalKey newsData) (collection w) = None.
Proof.
  rewrite storedMatch_find. destruct (List.find _ _) as [d|]; split; try done.
  all: try (intros Hn; exfalso; apply Hn; by eexists).
  all: try (intros _ [? [=]]).
Qed.

Lemma unmatched_fresh_url w newsData d :
  ¬ storedMatch w newsData → validate (nextId w) newsData = Ok d →
  doc_url d ∉ doc_url <$> collection w.
Proof.
  intros Hno Hval Hin. apply list_elem_of_fmap in Hin as (d' & Heq & Hd').
  apply Hno. exists d'. split; [done|]. left.
  apply validate_keys in Hval as (_ & -> & _). by rewrite Heq.
Qed.

Lemma saveLoop_returns newsItems savedNews w :
  ∃ new w', saveLoop newsItems savedNews w = (Ok (savedNews ++ new), w') ∧
    collection w' = collection w ++ new ∧ sameSocket w w' ∧
    (∀ d, d ∈ new → ∃ c id, c ∈ newsItems ∧ validate id c = Ok d) ∧
    (NoDup (doc_url <$> collection w) → NoDup (doc_url <$> collection w')).
Proof.
  revert savedNews w. induction newsItems as [|c rest IH]; intros saved w; simpl.
  - exists [], w. rewrite !app_nil_r. repeat split; try done.
    intros d Hd. inversion Hd.
  - unfold mbind, M_bind.
    destruct (List.find (matchesNaturalKey c) (collection w)) as [d0|] eqn:Hfind.
    + rewrite saveOne_existing by (by eexists).
      destruct (IH saved w) as (new & w' & -> & Hcol & Hsock & Hfrom & Hnd).
      exists new, w'. split; [done|]. split; [done|]. split; [done|]. split; [|done].
      intros d Hd. destruct (Hfrom d Hd) as (c' & id & Hc' & Hv).
      exists c', id. split; [by right|done].
    + destruct (validate (nextId w) c) as [d|e] eqn:Hval.
      * destruct (saveOne_inserted saved c w d Hfind Hval)
          as (w1 & -> & Hcol1 & _ & Hsock1).
        destruct (IH (saved ++ [d]) w1) as (new & w' & -> & Hcol & Hsock & Hfrom & Hnd).
        exists (d :: new), w'. rewrite <- app_assoc.
        split; [done|]. split; [|split; [|split]].
        -- rewrite Hcol, Hcol1, <- app_assoc. done.
        -- destruct Hsock, Hsock1. split; congruence.
        -- intros d' Hd'. apply elem_of_cons in Hd' as [->|Hd'].
           ++ exists c, (nextId w). split; [by left|done].
           ++ destruct (Hfrom d' Hd') as (c' & id & Hc' & Hv).
              exists c', id. split; [by right|done].
        -- intros Hnodup. apply Hnd. rewrite Hcol1, fmap_app.
           apply NoDup_app. split; [done|]. split; [|apply NoDup_singleton].
           intros u Hu Hin. apply list_elem_of_singleton in Hin as ->.
           revert Hu. apply unmatched_fresh_url with c; [|done].
           by apply not_storedMatch_find.
      * destruct (saveOne_refused saved c w e Hfind Hval)
          as (w1 & -> & Hcol1 & _ & _ & Hsock1).
        destruct (IH saved w1) as (new & w' & -> & Hcol & Hsock & Hfrom & Hnd).
        exists new, w'. split; [done|]. split; [|split; [|split]].
        -- congruence.
        -- destruct Hsock, Hsock1. split; congruence.
        -- intros d Hd. destruct (Hfrom d Hd) as (c' & id & Hc' & Hv).
           exists c', id. split; [by right|done].
        -- intros Hnodup. apply Hnd. by rewrite Hcol1.
Qed.

Lemma saveNews_returns newsItems w :
  ∃ savedNews w', saveNews newsItems w = (Ok savedNews, w') ∧
    collection w' = collection w ++ savedNews ∧
    (∀ d, d ∈ savedNews → ∃ c id, c ∈ newsItems ∧ validate id c = Ok d) ∧
    (NoDup (doc_url <$> collection w) → NoDup (doc_url <$> collection w')).
Proof.
  unfold saveNews, mbind, M_bind.
  destruct (saveLoop_returns newsItems [] w) as (new & w1 & -> & Hcol & _ & Hfrom & Hnd).
  simpl. destruct (Nat.ltb 0 (length new)).
  - destruct (broadcastNews_returns new w1) as (w2 & -> & (Hc & _) & _).
    exists new, w2. rewrite Hc. done.
  - exists new, w1. done.
Qed.





(** ** The recency cache *)

(** C6, at the failing input.  After the cache writes of 101 inserted
    articles of one topic, on an empty cache: the list of the topic holds 101
    identifiers (it is never trimmed) and has its expiry of 3600 seconds;
    the latest list holds 100 identifiers and has no expiry, and 3600
    seconds later it is still there, while the list of the topic and the
    entries of the articles are gone. *)
Theorem cacheNews_after_101_inserts :
  ∃ w' c topicList latestList,
    (mapM cacheNews (Samples.politicsDocs 101) Samples.liveWorld).2 = w' ∧
    redisClient w' = Some c ∧
    getList (CategoryList "politics") (db c) = Some topicList ∧
    length (elems topicList) = 101 ∧ list_ttl topicList = Some 3600 ∧
    getList LatestList (db c) = Some latestList ∧
    length (elems latestList) = 100 ∧ list_ttl latestList = None ∧
    getList LatestList (elapse 3600 (db c)) = Some latestList ∧
    getList (CategoryList "politics") (elapse 3600 (db c)) = None ∧
    newsKeys (elapse 3600 (db c)) !! 100 = None.
Proof.
  eexists _, _, _, _. split; [reflexivity|].
  split; [vm_compute; reflexivity|].
  split; [vm_compute; reflexivity|].
  split; [vm_compute; reflexivity|].
  split; [reflexivity|].
  split; [vm_compute; reflexivity|].
  split; [vm_compute; reflexivity|].
  split; [reflexivity|].
  split; [reflexivity|].
  split; vm_compute; reflexivity.
Qed.

Lemma rangeOf_first_hundred {A} (x : A) (l : list A) :
  rangeOf (x :: l) 0 99 = take 100 (x :: l).
Proof.
  unfold rangeOf. set (len := Z.of_nat (length (x :: l))).
  assert (1 ≤ len)%Z as Hlen by (subst len; simpl; lia).
  change (Z.ltb 0 0) with false. change (Z.ltb 99 0) with false. cbv iota.
  destruct (Z.ltb_spec (Z.min 99 (len - 1)) 0) as [Hneg|_]; [lia|].
  rewrite drop_0.
  destruct (decide (len ≤ 100)%Z) as [Hle|Hgt].
  - rewrite Z.min_r by lia.
    rewrite !take_ge; [done| |]; subst len; lia.
  - rewrite Z.min_l by lia. done.
Qed.

(** X3.  What one cache write does to an answering cache: the entry of the
    article is set for 3600 seconds; its identifier goes to the front of the
    list of its topic, which keeps everything it held and expires in 3600
    seconds; it goes to the front of the latest list, of which the first 100
    are kept, and whose expiry is not touched. *)
Theorem cacheNews_effect news w r :
  redisClient w = Some {| answers := true; db := r |} →
  ∃ w' r',
    cacheNews news w = (Ok tt, w') ∧
    redisClient w' = Some {| answers := true; db := r' |} ∧
    newsKeys r' = <[_id news := (news, 3600)]> (newsKeys r) ∧
    getList (CategoryList (doc_category news)) r' =
      Some {| elems := _id news ::
                from_option elems [] (getList (CategoryList (doc_category news)) r);
              list_ttl := Some 3600 |} ∧
    getList LatestList r' =
      Some {| elems := take 100 (_id news :: from_option elems [] (getList LatestList r));
              list_ttl := getList LatestList r ≫= list_ttl |}.
Proof.
  intros Hc.
  unfold cacheNews, tryCatch, mbind, M_bind, getRedisClient. rewrite Hc.
  unfold redis_setEx, redis_lPush, redis_expire, redis_lTrim, command.
  rewrite Hc. simpl.
  rewrite lookup_insert_eq. simpl. rewrite insert_insert_eq.
  destruct (latestKey r) as [l|] eqn:Hl; simpl.
  - rewrite rangeOf_first_hundred. simpl.
    eexists _, _. split; [reflexivity|]. split; [reflexivity|]. simpl.
    split; [done|]. rewrite lookup_insert_eq.
    split; [by destruct (categoryKeys r !! doc_category news)|done].
  - eexists _, _. split; [reflexivity|]. split; [reflexivity|]. simpl.
    split; [done|]. rewrite lookup_insert_eq.
    split; [by destruct (categoryKeys r !! doc_category news)|done].
Qed.

(** ** The reads *)

Lemma getNewsByCategory_reads_store category limit offset w :
  getNewsByCategory category limit offset w =
    News_find (λ d, bool_decide (doc_category d = category) && isActive d)
      limit offset w.
Proof. reflexivity. Qed.

(** Without a client the latest read is the query of the store. *)
Lemma getLatestNews_no_client limit offset w :
  redisClient w = None →
  getLatestNews limit offset w = News_find isActive limit offset w.
Proof.
  intros Hc. unfold getLatestNews, latestFromCache, getRedisClient, tryCatch,
    mbind, M_bind. simpl. by rewrite Hc.
Qed.

(** With a client whose server does not answer the latest read throws. *)
Lemma getLatestNews_unanswered limit offset w r :
  redisClient w = Some {| answers := false; db := r |} →
  getLatestNews limit offset w = (Throw ClientClosedError, w).
Proof.
  intros Hc. unfold getLatestNews, latestFromCache, getRedisClient, tryCatch,
    mbind, M_bind. simpl. rewrite Hc. unfold redis_lRange.
  by rewrite (command_unanswered _ w r Hc).
Qed.

(** C8, at the failing input.  The list of the topic politics and the entry
    of its article are in the cache, the store has deactivated the article:
    the read by topic returns what the store holds, nothing, and the cache
    is as it was; the latest read, on the same state, returns the cached
    article. *)
Theorem getNewsByCategory_ignores_cache :
  ∃ c topicList cached,
    redisClient Samples.cachedThenDeactivated = Some c ∧
    answers c = true ∧
    getList (CategoryList "politics") (db c) = Some topicList ∧
    elems topicList = [0] ∧ list_ttl topicList = Some 3600 ∧
    newsKeys (db c) !! 0 = Some (cached, 3600) ∧
    doc_category cached = "politics" ∧
    getNewsByCategory "politics" 20 0 Samples.cachedThenDeactivated
      = (Ok [], Samples.cachedThenDeactivated) ∧
    (getLatestNews 20 0 Samples.cachedThenDeactivated).1 = Ok [cached].
Proof.
  eexists _, _, _. split; [reflexivity|]. split; [reflexivity|].
  split; [vm_compute; reflexivity|]. split; [reflexivity|]. split; [reflexivity|].
  split; [vm_compute; reflexivity|]. split; [reflexivity|].
  split; vm_compute; reflexivity.
Qed.

(** C9, at the failing input.  The client exists and its server does not
    answer: the latest read throws to its caller, while the query of the
    store on the same state returns the stored article; the write path on
    the same state returns and stores. *)
Theorem getLatestNews_throws_on_failing_cache :
  getLatestNews 20 0 Samples.cacheDownWorld
    = (Throw ClientClosedError, Samples.cacheDownWorld) ∧
  News_find isActive 20 0 Samples.cacheDownWorld
    = (Ok [Samples.storedDoc 0 "politics" 1700000000000 true], Samples.cacheDownWorld) ∧
  ∃ d w', saveNews [Samples.other] Samples.cacheDownWorld = (Ok [d], w') ∧
          collection w' = collection Samples.cacheDownWorld ++ [d].
Proof.
  split; [by apply getLatestNews_unanswered with Samples.emptyDb|].
  split; [vm_compute; reflexivity|].
  eexists _, _. split; vm_compute; reflexivity.
Qed.

(** ** One cycle *)

(** ** The client through a call of [saveNews] *)

#[local] Instance sameClient_refl : Reflexive sameClient.
Proof.
  intros w. unfold sameClient. destruct (redisClient w) as [[a r]|]; [|done].
  by exists r.
Qed.

#[local] Instance sameClient_trans : Transitive sameClient.
Proof.
  intros w1 w2 w3. unfold sameClient.
  destruct (redisClient w1) as [c1|].
  - intros [r2 ->] [r3 ->]. by exists r3.
  - by intros -> ->.
Qed.

Lemma sameRedis_sameClient w w' : sameRedis w w' → sameClient w w'.
Proof.
  unfold sameRedis, sameClient. intros ->.
  destruct (redisClient w) as [[a r]|]; [|done]. by exists r.
Qed.

Lemma command_sameClient {A} (run : RedisDb → A * RedisDb) :
  keeps sameClient (command run).
Proof.
  intros w r w'. unfold command, sameClient.
  destruct (redisClient w) as [[[] d]|] eqn:Hc.
  - simpl. destruct (run d) as [a d']. intros [= <- <-]. simpl. by exists d'.
  - simpl. intros [= <- <-]. rewrite Hc. by exists d.
  - by intros [= <- <-].
Qed.

Lemma cacheNews_sameClient news : keeps sameClient (cacheNews news).
Proof.
  unfold cacheNews. apply keeps_tryCatch; [apply _..| |intros; apply (keeps_ret sameClient)].
  apply keeps_bind; [apply _..|by intros w r w' [= <- <-]|].
  intros [c|]; [|apply (keeps_ret sameClient)].
  repeat (apply keeps_bind; [apply _..|apply command_sameClient|intros _]).
  apply command_sameClient.
Qed.

Lemma saveOne_sameClient savedNews newsData : keeps sameClient (saveOne savedNews newsData).
Proof.
  unfold saveOne. apply keeps_tryCatch; [apply _..| |intros; apply (keeps_ret sameClient)].
  apply keeps_bind; [apply _..|by intros w r w' [= <- <-]|].
  intros [d|]; [apply (keeps_ret sameClient)|].
  apply keeps_bind; [apply _..| |].
  { intros w r w' [= <- <-]. by apply sameRedis_sameClient. }
  intros news. apply keeps_bind; [apply _..| |].
  { intros w r w'. unfold News_save.
    destruct (validate _ _); [|by intros [= <- <-]].
    destruct (existsb _ _); intros [= <- <-]; by apply sameRedis_sameClient. }
  intros doc. apply keeps_tryCatch; [apply _..| |intros; apply (keeps_ret sameClient)].
  apply keeps_bind; [apply _..|apply cacheNews_sameClient|].
  intros _. apply (keeps_ret sameClient).
Qed.

Lemma saveLoop_sameClient newsItems savedNews :
  keeps sameClient (saveLoop newsItems savedNews).
Proof.
  revert savedNews. induction newsItems as [|c rest IH]; intros saved; simpl.
  - apply (keeps_ret sameClient).
  - apply keeps_bind; [apply _..|apply saveOne_sameClient|]. intros saved'. apply IH.
Qed.

Lemma saveNews_sameClient newsItems : keeps sameClient (saveNews newsItems).
Proof.
  unfold saveNews. apply keeps_bind; [apply _..|apply saveLoop_sameClient|].
  intros saved. apply keeps_bind; [apply _..| |intros; apply (keeps_ret sameClient)].
  destruct (Nat.ltb 0 (length saved)); [|apply (keeps_ret sameClient)].
  intros w r w' Hrun.
  destruct (broadcastNews_returns saved w) as (w1 & Hrun1 & _ & Hr & _).
  rewrite Hrun1 in Hrun. injection Hrun as _ <-. by apply sameRedis_sameClient.
Qed.

Section CycleFacts.
Variable md5hex : string → string.
Variable newDate : option string → JSDate.
Variable toLowerCase : string → string.
Variable compareTwoStrings : string → string → Q.

Lemma isValidNewsItem_titled item : isValidNewsItem item = true → titled item.
Proof. intros (t & _ & Ht & _)%isValidNewsItem_spec. by exists t. Qed.

(** X2.  The cycle returns.  With no Redis client, or with one whose
    commands are fulfilled, [fetchAllNews] returns the output of the dedup
    engine, whatever the sources return, whatever the store holds and
    whatever the socket server does; and it leaves the process with no
    client, or with one whose commands are fulfilled, as before: the same
    holds for the next cycle. *)
Theorem fetchAllNews_returns sources w :
  cacheSettles w →
  ∃ processedNews w',
    fetchAllNews md5hex newDate toLowerCase compareTwoStrings sources w
      = (Ok processedNews, w') ∧
    processAndDeduplicateNews toLowerCase compareTwoStrings
      (allNews md5hex newDate sources) = Ok processedNews ∧
    cacheSettles w'.
Proof.
  intros Hw. unfold fetchAllNews.
  destruct (processAndDeduplicateNews_total toLowerCase compareTwoStrings
              (allNews md5hex newDate sources)) as [out Hout].
  { eapply Forall_impl; [apply allNews_valid|]. apply isValidNewsItem_titled. }
  rewrite Hout. unfold mbind, M_bind.
  destruct (saveNews_returns out w) as (saved & w' & Hrun & _).
  rewrite Hrun. exists out, w'. split; [done|]. split; [done|].
  apply (saveNews_sameClient out) in Hrun. unfold sameClient in Hrun.
  destruct Hw as [Hnone|[r Hsome]].
  - rewrite Hnone in Hrun. by left.
  - rewrite Hsome in Hrun. by right.
Qed.

End CycleFacts.

(** One feed with an entry and one that fails, on a live process. *)
Lemma fetchAllNews_returns_witness :
  ∃ processedNews w',
    fetchAllNews (λ s, s) (λ _, DateValue 1700000000000)
      StringSimilarity.toLowerCase StringSimilarity.compareTwoStrings
      [RssSource "BBC" [("politics", Ok [Samples.goodEntry]);
                        ("world", Throw TransportError)]]
      Samples.liveWorld = (Ok processedNews, w') ∧
    processAndDeduplicateNews StringSimilarity.toLowerCase
      StringSimilarity.compareTwoStrings
      (allNews (λ s, s) (λ _, DateValue 1700000000000)
         [RssSource "BBC" [("politics", Ok [Samples.goodEntry]);
                           ("world", Throw TransportError)]]) = Ok processedNews ∧
    cacheSettles w'.
Proof.
  apply (fetchAllNews_returns (λ s, s) (λ _, DateValue 1700000000000)
           StringSimilarity.toLowerCase StringSimilarity.compareTwoStrings
           [RssSource "BBC" [("politics", Ok [Samples.goodEntry]);
                             ("world", Throw TransportError)]]
           Samples.liveWorld).
  right. by eexists.
Defined.

(** ** The fanout publisher, at the public interface *)

(** C10.  Before the socket server is initialised [broadcastNews] returns
    without emitting anything and leaves the state as it is; with a server,
    whatever it delivers or refuses, [broadcastNews] returns normally and
    touches neither the store nor the cache; so [saveNews], which publishes,
    returns normally on every state. *)
Theorem broadcastNews_never_fails (newsItems : list NewsDoc) (w : World) :
  (io w = None → broadcastNews newsItems w = (Ok tt, w)) ∧
  (∃ w', broadcastNews newsItems w = (Ok tt, w') ∧
         sameStore w w' ∧ sameRedis w w' ∧
         emitted w `prefix_of` emitted w') ∧
  (∀ candidates, ∃ savedNews w', saveNews candidates w = (Ok savedNews, w')).
Proof.
  split; [|split].
  - intros Hio. unfold broadcastNews, getSocketInstance, mbind, M_bind. simpl.
    by rewrite Hio.
  - destruct (broadcastNews_returns newsItems w) as (w' & Hrun & Hs & Hr & _ & Hpre).
    by exists w'.
  - intros candidates.
    destruct (saveNews_returns candidates w) as (saved & w' & Hrun & _).
    by exists saved, w'.
Qed.

Lemma broadcastNews_never_fails_witness :
  broadcastNews (Samples.politicsDocs 2) Samples.freshWorld
    = (Ok tt, Samples.freshWorld) ∧
  ∃ w', broadcastNews (Samples.politicsDocs 2) Samples.socketDownWorld = (Ok tt, w') ∧
        emitted w' = [].
Proof.
  split.
  - apply (broadcastNews_never_fails (Samples.politicsDocs 2) Samples.freshWorld).
    reflexivity.
  - exists Samples.socketDownWorld. split; reflexivity.
Defined.

(** ** The scheduler *)

Lemma schedulerRun_snoc events e :
  schedulerRun (events ++ [e]) = schedulerStep (schedulerRun events) e.
Proof. unfold schedulerRun. by rewrite foldl_app. Qed.

(** The flag tells whether a cycle started by the cron callback is in
    progress, and there is at most one of those. *)
Lemma scheduled_runs_guarded events :
  scheduledRuns (schedulerRun events) = (if isRunning (schedulerRun events) then 1 else 0).
Proof.
  induction events as [|e events IH] using rev_ind; [done|].
  rewrite schedulerRun_snoc. revert IH.
  generalize (schedulerRun events). intros [running n i pending calls]. simpl.
  intros ->. destruct e as [|ok| |ok]; simpl.
  - by destruct running.
  - by destruct running.
  - by destruct pending.
  - by destruct i.
Qed.

(** A tick while the flag is set changes nothing: no call of
    [fetchAllNews], nothing queued. *)
Lemma cron_tick_skipped s :
  isRunning s = true → schedulerStep s CronTick = s.
Proof. intros Hr. simpl. by rewrite Hr. Qed.

(** When the cycle of the cron callback settles, resolved or rejected, the
    flag is cleared. *)
Lemma scheduled_settles_clears_flag events ok :
  isRunning (schedulerRun (events ++ [ScheduledSettles ok])) = false.
Proof.
  rewrite schedulerRun_snoc. simpl.
  pose proof (scheduled_runs_guarded events) as Hg.
  destruct (scheduledRuns (schedulerRun events)); [|done].
  by destruct (isRunning (schedulerRun events)).
Qed.

(** Started by the cron callback alone, cycles do not overlap. *)
Lemma scheduled_runs_at_most_one events :
  (scheduledRuns (schedulerRun events) ≤ 1)%nat.
Proof.
  rewrite scheduled_runs_guarded. destruct (isRunning _); lia.
Qed.

(** C7, at the failing input.  The timeout of [start] fires while the cycle
    of a cron tick is in progress, or the cron tick fires while the cycle of
    the timeout is in progress: in both orders two cycles are in progress at
    once, the second one started with no look at the flag, or with the flag
    not set. *)
Theorem initial_fetch_overlaps_scheduled_cycle :
  cyclesInFlight (schedulerRun [CronTick; InitialTimeout]) = 2 ∧
  isRunning (schedulerRun [CronTick]) = true ∧
  fetchCalls (schedulerRun [CronTick; InitialTimeout]) = 2 ∧
  cyclesInFlight (schedulerRun [InitialTimeout; CronTick]) = 2 ∧
  isRunning (schedulerRun [InitialTimeout]) = false ∧
  fetchCalls (schedulerRun [InitialTimeout; CronTick]) = 2.
Proof. repeat split. Qed.

(** ** The query of the store *)

Lemma insertByDate_elem_of d sorted x :
  x ∈ insertByDate d sorted ↔ x = d ∨ x ∈ sorted.
Proof.
  induction sorted as [|d' rest IH]; simpl.
  - rewrite list_elem_of_singleton. split; [by left|]. intros [?|Hin]; [done|inversion Hin].
  - destruct (Z.leb _ _).
    + by rewrite elem_of_cons.
    + rewrite !elem_of_cons, IH. tauto.
Qed.

Lemma insertByDate_sorted d sorted :
  StronglySorted newerOrEqual sorted →
  StronglySorted newerOrEqual (insertByDate d sorted).
Proof.
  induction 1 as [|d' rest Hsorted IH Hall]; simpl.
  - repeat constructor.
  - destruct (Z.leb_spec (doc_publishedAt d') (doc_publishedAt d)) as [Hle|Hgt].
    + constructor; [by constructor|]. constructor; [done|].
      eapply Forall_impl; [exact Hall|]. unfold newerOrEqual. intros x Hx. simpl in *. lia.
    + constructor; [done|]. apply Forall_forall. intros x Hx.
      apply insertByDate_elem_of in Hx as [->|Hx]; [unfold newerOrEqual; lia|].
      by eapply Forall_forall in Hall.
Qed.

Lemma sortByPublishedAtDesc_sorted docs :
  StronglySorted newerOrEqual (sortByPublishedAtDesc docs).
Proof.
  induction docs as [|d docs IH]; simpl; [constructor|].
  by apply insertByDate_sorted.
Qed.

Lemma sortByPublishedAtDesc_elem_of docs x :
  x ∈ sortByPublishedAtDesc docs ↔ x ∈ docs.
Proof.
  induction docs as [|d docs IH]; simpl; [done|].
  rewrite insertByDate_elem_of, elem_of_cons, IH. done.
Qed.

Lemma insertByDate_Permutation d sorted : insertByDate d sorted ≡ₚ d :: sorted.
Proof.
  induction sorted as [|d' rest IH]; simpl; [done|].
  destruct (Z.leb _ _); [done|]. rewrite IH. apply Permutation_swap.
Qed.

Lemma sortByPublishedAtDesc_Permutation docs : sortByPublishedAtDesc docs ≡ₚ docs.
Proof.
  induction docs as [|d docs IH]; simpl; [done|].
  by rewrite insertByDate_Permutation, IH.
Qed.

Lemma StronglySorted_sublist_of {A} (R : relation A) (l1 l2 : list A) :
  l1 `sublist_of` l2 → StronglySorted R l2 → StronglySorted R l1.
Proof.
  induction 1 as [|x l1 l2 Hsub IH|x l1 l2 Hsub IH]; intros Hs; [done| |].
  - apply StronglySorted_inv in Hs as [Hs Hall]. constructor; [by apply IH|].
    apply Forall_forall. intros y Hy. eapply Forall_forall; [exact Hall|].
    by eapply sublist_subseteq.
  - apply StronglySorted_inv in Hs as [Hs _]. by apply IH.
Qed.

Lemma limitTo_sublist n docs : limitTo n docs `sublist_of` docs.
Proof. destruct n; simpl; [done|]. apply (sublist_take docs (S n)). Qed.

Lemma limitTo_length n docs : (0 < n)%nat → (length (limitTo n docs) ≤ n)%nat.
Proof. destruct n; simpl; [lia|]. intros _. rewrite length_take. lia. Qed.

(** The page a query returns: documents of the collection that pass the
    filter, newest first, at most [limit] of them. *)
Lemma News_find_page filter limit offset w :
  ∃ page, News_find filter limit offset w = (Ok page, w) ∧
    page = limitTo limit (drop offset
             (sortByPublishedAtDesc (List.filter filter (collection w)))) ∧
    StronglySorted newerOrEqual page ∧
    (∀ d, d ∈ page → d ∈ collection w ∧ filter d = true) ∧
    ((0 < limit)%nat → (length page ≤ limit)%nat).
Proof.
  eexists. split; [reflexivity|]. split; [done|].
  set (sorted := sortByPublishedAtDesc _).
  assert (limitTo limit (drop offset sorted) `sublist_of` sorted) as Hsub.
  { etrans; [apply limitTo_sublist|apply sublist_drop]. }
  split; [|split].
  - eapply StronglySorted_sublist_of; [exact Hsub|apply sortByPublishedAtDesc_sorted].
  - intros d Hd. eapply sublist_subseteq in Hd; [|exact Hsub].
    apply sortByPublishedAtDesc_elem_of, list_elem_of_In, filter_In in Hd as [Hin Hf].
    by apply list_elem_of_In in Hin.
  - apply limitTo_length.
Qed.

(** ** The latest read through an answering cache *)

#[local] Arguments rangeOf : simpl never.

Lemma command_answered {A} (run : RedisDb → A * RedisDb) c n r s e :
  command run {| collection := c; nextId := n;
                 redisClient := Some {| answers := true; db := r |};
                 io := s; emitted := e |} =
    (Ok (run r).1,
     {| collection := c; nextId := n;
        redisClient := Some {| answers := true; db := (run r).2 |};
        io := s; emitted := e |}).
Proof. unfold command. simpl. by destruct (run r). Qed.

Lemma mapM_redis_get ids c n r s e :
  mapM redis_get ids
    {| collection := c; nextId := n;
       redisClient := Some {| answers := true; db := r |};
       io := s; emitted := e |} =
    (Ok ((λ id, fst <$> newsKeys r !! id) <$> ids),
     {| collection := c; nextId := n;
        redisClient := Some {| answers := true; db := r |};
        io := s; emitted := e |}).
Proof.
  induction ids as [|id ids IH]; simpl; [done|].
  unfold mbind, M_bind, redis_get at 1. rewrite command_answered. simpl.
  by rewrite IH.
Qed.

Lemma omap_id_fmap {A B} (f : A → option B) (l : list A) :
  omap id (f <$> l) = omap f l.
Proof.
  induction l as [|x l IH]; csimpl; [done|]. rewrite IH. by destruct (f x).
Qed.

Lemma rangeOf_nil {A} start stop : rangeOf (@nil A) start stop = [].
Proof.
  unfold rangeOf. repeat case_match; try done; by rewrite drop_nil, take_nil.
Qed.

(** X4.  The latest read prefers the cache: through an answering client it
    returns the cached entries of the requested window of the latest list
    when at least one of them is still there, and the page of the store
    otherwise; without a client it returns the page of the store.  The page
    of the store is cut from the active articles of the collection, all of
    them, put newest first: [offset] of them are skipped and the next
    [limit] are the page, or all that are left when [limit] is 0.  So the
    page holds active articles only, newest first, at most [limit] of
    them. *)
Theorem getLatestNews_prefers_cache (limit offset : nat) (w : World) :
  (∀ r, redisClient w = Some {| answers := true; db := r |} →
     getLatestNews limit offset w =
       if Nat.ltb 0 (length (validNews limit offset r))
       then (Ok (validNews limit offset r), w)
       else News_find isActive limit offset w) ∧
  (redisClient w = None →
     getLatestNews limit offset w = News_find isActive limit offset w) ∧
  (∃ page sorted, News_find isActive limit offset w = (Ok page, w) ∧
     sorted ≡ₚ List.filter isActive (collection w) ∧
     StronglySorted newerOrEqual sorted ∧
     ((0 < limit)%nat → page = take limit (drop offset sorted)) ∧
     (limit = 0%nat → page = drop offset sorted) ∧
     StronglySorted newerOrEqual page ∧
     (∀ d, d ∈ page → d ∈ collection w ∧ isActive d = true) ∧
     ((0 < limit)%nat → (length page ≤ limit)%nat)).
Proof.
  split; [|split; [apply getLatestNews_no_client|]].
  - intros r Hc. destruct w as [c n rc s e]. simpl in Hc. subst rc.
    unfold getLatestNews, latestFromCache, getRedisClient, tryCatch, mbind, M_bind.
    simpl. unfold validNews, cachedIds.
    replace (match latestKey r with
             | Some l => rangeOf (elems l) (Z.of_nat offset)
                           (Z.of_nat offset + Z.of_nat limit - 1)%Z
             | None => []
             end)
      with (rangeOf (from_option elems [] (latestKey r)) (Z.of_nat offset)
              (Z.of_nat offset + Z.of_nat limit - 1)%Z)
      by (destruct (latestKey r); simpl; [done|by rewrite rangeOf_nil]).
    set (ids := rangeOf _ _ _).
    destruct (Nat.ltb 0 (length ids)) eqn:Hids.
    + rewrite mapM_redis_get. simpl.
      rewrite omap_id_fmap.
      destruct (Nat.ltb 0 (length (omap _ ids))); reflexivity.
    + apply Nat.ltb_ge in Hids. destruct ids; [done|simpl in Hids; lia].
  - destruct (News_find_page isActive limit offset w)
      as (page & Hrun & Hpage & Hs & Hin & Hlen).
    exists page, (sortByPublishedAtDesc (List.filter isActive (collection w))).
    split; [done|]. split; [apply sortByPublishedAtDesc_Permutation|].
    split; [apply sortByPublishedAtDesc_sorted|].
    split; [|split; [|done]].
    + intros Hl. rewrite Hpage. destruct limit; [lia|done].
    + intros ->. by rewrite Hpage.
Qed.

Lemma getLatestNews_prefers_cache_witness :
  (getLatestNews 20 0 Samples.cachedThenDeactivated).1
    = Ok [Samples.storedDoc 0 "politics" 1700000000000 true] ∧
  getLatestNews 20 0 Samples.freshWorld = (Ok [], Samples.freshWorld) ∧
  (getLatestNews 2 1 Scenarios.threeStored).1
    = Ok [Samples.storedDoc 1 "politics" 1700000000001 true;
          Samples.storedDoc 0 "politics" 1700000000000 true].
Proof.
  destruct (getLatestNews_prefers_cache 20 0 Samples.cachedThenDeactivated)
    as (Hcache & _ & _).
  destruct (getLatestNews_prefers_cache 20 0 Samples.freshWorld) as (_ & Hnone & _).
  destruct (getLatestNews_prefers_cache 2 1 Scenarios.threeStored) as (Hskip & _ & _).
  split; [|split].
  - erewrite Hcache by reflexivity. vm_compute. reflexivity.
  - rewrite Hnone by reflexivity. reflexivity.
  - erewrite Hskip by reflexivity. vm_compute. reflexivity.
Defined.

Lemma cacheNews_effect_witness :
  ∃ w' r',
    cacheNews (Samples.storedDoc 7 "politics" 1700000000000 true) Samples.liveWorld
      = (Ok tt, w') ∧
    redisClient w' = Some {| answers := true; db := r' |} ∧
    getList LatestList r' = Some {| elems := [7]; list_ttl := None |}.
Proof.
  destruct (cacheNews_effect (Samples.storedDoc 7 "politics" 1700000000000 true)
              Samples.liveWorld Samples.emptyDb eq_refl)
    as (w' & r' & Hrun & Hc & _ & _ & Hlatest).
  exists w', r'. split; [exact Hrun|]. split; [exact Hc|]. exact Hlatest.
Defined.

(** X1.  The guard of the cron callback.  A tick while the flag is set leaves
    the scheduler as it is, so it calls [fetchAllNews] no further time and
    queues nothing; when the cycle of the callback settles, resolved or
    rejected, the flag is cleared; and at most one cycle started by the
    callback is in progress. *)
Theorem scheduled_trigger_guard (events : list SchedulerEvent) :
  (isRunning (schedulerRun events) = true →
     schedulerRun (events ++ [CronTick]) = schedulerRun events) ∧
  (∀ ok, isRunning (schedulerRun (events ++ [ScheduledSettles ok])) = false) ∧
  (scheduledRuns (schedulerRun events) ≤ 1)%nat.
Proof.
  split; [|split].
  - intros Hr. rewrite schedulerRun_snoc. by apply cron_tick_skipped.
  - apply scheduled_settles_clears_flag.
  - apply scheduled_runs_at_most_one.
Qed.

Lemma scheduled_trigger_guard_witness :
  schedulerRun [CronTick; CronTick] = schedulerRun [CronTick] ∧
  fetchCalls (schedulerRun [CronTick; CronTick]) = 1 ∧
  isRunning (schedulerRun [CronTick; ScheduledSettles false]) = false.
Proof.
  destruct (scheduled_trigger_guard [CronTick]) as (Hskip & Hclear & _).
  split; [by apply Hskip|]. split; [reflexivity|]. apply Hclear.
Defined.

(** Documents with equal dates come out in the order of the collection. *)
Example sortByPublishedAtDesc_ties :
  _id <$> sortByPublishedAtDesc
    [Samples.storedDoc 0 "world" 5 true; Samples.storedDoc 1 "world" 9 true;
     Samples.storedDoc 2 "world" 5 true; Samples.storedDoc 3 "world" 9 true]
  = [1; 3; 0; 2].
Proof. reflexivity. Qed.

(** ** The dedup engine: what its output guarantees *)

Section DedupOutput.
Variable toLowerCase : string → string.
Variable compareTwoStrings : string → string → Q.

Abbreviation isDuplicate := (isDuplicate toLowerCase compareTwoStrings).
Abbreviation similarityScan := (similarityScan toLowerCase compareTwoStrings).
Abbreviation processAndDeduplicateNews :=
  (processAndDeduplicateNews toLowerCase compareTwoStrings).
Abbreviation similarTitles := (similarTitles toLowerCase compareTwoStrings).


Lemma isDuplicate_true item processedItems :
  isDuplicate item processedItems = Ok true →
  ∃ e, e ∈ processedItems ∧ similarTitles item e.
Proof.
  induction processedItems as [|e0 rest IH]; simpl; [done|].
  unfold lowerTitle.
  destruct (title item) as [t|] eqn:Ht; [|done].
  destruct (title e0) as [t0|] eqn:Ht0; [|done]. simpl.
  destruct (aboveThreshold _) eqn:Hs.
  - intros _. exists e0. split; [left|]. exists t, t0.
    by rewrite <- aboveThreshold_spec.
  - intros Hrest. destruct (IH Hrest) as (e & He & Hsim).
    exists e. split; [by right|done].
Qed.

(** Each kept item was compared, at its turn, with all that stood before
    it, and found different from each. *)
Lemma similarityScan_kept items processedItems kept :
  similarityScan items processedItems = Ok (processedItems ++ kept) →
  ∀ k1 x k2, kept = k1 ++ x :: k2 → isDuplicate x (processedItems ++ k1) = Ok false.
Proof.
  revert processedItems kept. induction items as [|y items IH]; intros acc kept; simpl.
  - intros [= Heq] k1 x k2 ->. apply (f_equal length) in Heq.
    rewrite !length_app in Heq. simpl in Heq. lia.
  - destruct (isDuplicate y acc) as [[]|] eqn:Hdup; simpl; [| |done].
    + apply IH.
    + intros Hscan.
      destruct (similarityScan_extends _ _ _ _ _ Hscan) as (kept' & Heq & _).
      rewrite <- app_assoc in Heq. apply app_inv_head in Heq. subst kept.
      intros k1 x k2 Hsplit. destruct k1 as [|z k1]; simpl in Hsplit.
      * injection Hsplit as <- _. by rewrite app_nil_r.
      * injection Hsplit as <- ->.
        rewrite (app_assoc acc [y] (k1 ++ x :: k2)) in Hscan.
        pose proof (IH (acc ++ [y]) (k1 ++ x :: k2) Hscan k1 x k2 eq_refl) as Hx.
        by rewrite <- app_assoc in Hx.
Qed.

(** Items that differ from all that stand before them are all kept. *)
Lemma similarityScan_all_kept kept processedItems :
  (∀ k1 x k2, kept = k1 ++ x :: k2 → isDuplicate x (processedItems ++ k1) = Ok false) →
  similarityScan kept processedItems = Ok (processedItems ++ kept).
Proof.
  revert processedItems. induction kept as [|y kept IH]; intros acc Hall; simpl.
  - by rewrite app_nil_r.
  - pose proof (Hall [] y kept eq_refl) as Hy. rewrite app_nil_r in Hy.
    rewrite Hy. simpl. rewrite (IH (acc ++ [y])).
    + by rewrite <- app_assoc.
    + intros k1 x k2 ->. rewrite <- app_assoc. by apply (Hall (y :: k1) x k2).
Qed.

Lemma uniqueItems_NoDup_id (items : list NewsItem) :
  NoDup (sourceHash <$> items) → uniqueItems items = items.
Proof.
  induction items as [|x items IH] using rev_ind; [done|].
  rewrite fmap_app. intros Hnd. apply NoDup_app in Hnd as (Hnd & Hx & _).
  rewrite uniqueItems_snoc, IH by done.
  rewrite bool_decide_eq_false_2; [done|].
  intros Hin. apply (Hx _ Hin). simpl. left.
Qed.

Lemma sublist_fmap_NoDup (l1 l2 : list NewsItem) :
  l1 `sublist_of` l2 → NoDup (sourceHash <$> l2) → NoDup (sourceHash <$> l1).
Proof.
  intros Hsub Hnd. eapply sublist_NoDup; [exact Hnd|by apply fmap_sublist].
Qed.

(** Every scanned item is kept or similar to a kept item. *)
Lemma similarityScan_covers items processedItems out :
  similarityScan items processedItems = Ok out →
  ∀ x, x ∈ items → x ∈ out ∨ ∃ e, e ∈ out ∧ similarTitles x e.
Proof.
  revert processedItems. induction items as [|y items IH]; intros acc; simpl.
  - intros _ x Hx. inversion Hx.
  - destruct (isDuplicate y acc) as [[]|] eqn:Hdup; simpl; [| |done].
    + intros Hscan x Hx.
      destruct (similarityScan_extends _ _ _ _ _ Hscan) as (kept & -> & _).
      apply elem_of_cons in Hx as [->|Hx]; [|by eapply IH].
      right. apply isDuplicate_true in Hdup as (e & He & Hsim).
      exists e. split; [|done]. apply elem_of_app. by left.
    + intros Hscan x Hx.
      destruct (similarityScan_extends _ _ _ _ _ Hscan) as (kept & -> & _).
      apply elem_of_cons in Hx as [->|Hx]; [|by eapply IH].
      left. rewrite !elem_of_app, list_elem_of_singleton. auto.
Qed.

End DedupOutput.

Section DedupGuarantees.
Variable toLowerCase : string → string.
Variable compareTwoStrings : string → string → Q.

Abbreviation similarTitles := (similarTitles toLowerCase compareTwoStrings).

(** X5.  The engine is idempotent: run on its own output it returns that
    output unchanged. *)
Theorem processAndDeduplicateNews_idempotent (newsItems out : list NewsItem) :
  processAndDeduplicateNews toLowerCase compareTwoStrings newsItems = Ok out →
  processAndDeduplicateNews toLowerCase compareTwoStrings out = Ok out.
Proof.
  unfold processAndDeduplicateNews.
  intros Hscan.
  destruct (similarityScan_extends _ _ _ _ _ Hscan) as (kept & Heq & Hsub).
  simpl in Heq. subst kept.
  rewrite uniqueItems_NoDup_id.
  - apply (similarityScan_all_kept toLowerCase compareTwoStrings out []).
    by apply (similarityScan_kept toLowerCase compareTwoStrings
                (uniqueItems newsItems) [] out).
  - eapply sublist_fmap_NoDup; [exact Hsub|apply uniqueItems_NoDup].
Qed.


End DedupGuarantees.

Lemma processAndDeduplicateNews_idempotent_witness :
  processAndDeduplicateNews StringSimilarity.toLowerCase
    StringSimilarity.compareTwoStrings [Samples.senate1; Samples.other]
  = Ok [Samples.senate1; Samples.other].
Proof.
  apply (processAndDeduplicateNews_idempotent StringSimilarity.toLowerCase
           StringSimilarity.compareTwoStrings
           [Samples.senate1; Samples.senate2; Samples.senate1_again; Samples.other]).
  vm_compute. reflexivity.
Defined.


(** ** The store gateway: a second run, what is published, what is cached *)

(** ** Exact duplicates *)

(** An item whose key stands earlier in the batch leaves the collapsed
    batch as it is without it. *)
Lemma uniqueItems_drop_later (pre : list NewsItem) x post :
  sourceHash x ∈ sourceHash <$> pre →
  uniqueItems (pre ++ x :: post) = uniqueItems (pre ++ post).
Proof.
  intros Hkey. induction post as [|y post IH] using rev_ind.
  - rewrite app_nil_r, uniqueItems_snoc.
    rewrite bool_decide_eq_true_2; [done|]. by apply uniqueItems_hashes.
  - rewrite (app_assoc pre post [y]), app_comm_cons, (app_assoc pre (x :: post) [y]).
    by rewrite !uniqueItems_snoc, IH.
Qed.

(** The first item of the batch is the first item of the collapsed batch. *)
Lemma uniqueItems_head (x : NewsItem) rest : ∃ u, uniqueItems (x :: rest) = x :: u.
Proof.
  induction rest as [|y rest [u Hu]] using rev_ind; [by exists []|].
  rewrite app_comm_cons, uniqueItems_snoc, Hu.
  case_bool_decide; eexists; reflexivity.
Qed.

Section ExactDuplicates.
Variable toLowerCase : string → string.
Variable compareTwoStrings : string → string → Q.

(** C2.  Exact-duplicate collapsing keeps the first item of each key.  The
    engine runs its similarity scan on the collapsed batch, in which an item
    stands exactly when it is the earliest item of the batch with its key;
    the collapsed batch carries pairwise different keys and is a subsequence
    of the batch.  An item whose key stands earlier in the batch has no part
    in the result, whatever it holds: the engine returns what it returns on
    the batch without it.  The output is a subsequence of the collapsed
    batch and of the batch in arrival order; each of its items is the
    earliest of its key; the earliest item of every key is in the output or
    similar to an item of the output; and the first item of the batch is the
    first of the output.  When no item of the collapsed batch is similar to
    one before it, the output is the collapsed batch: the earliest item of
    each key, in arrival order.  With every title defined there is an
    output. *)
Theorem exact_duplicates_keep_first (newsItems : list NewsItem) :
  processAndDeduplicateNews toLowerCase compareTwoStrings newsItems =
    similarityScan toLowerCase compareTwoStrings (uniqueItems newsItems) [] ∧
  NoDup (sourceHash <$> uniqueItems newsItems) ∧
  (∀ x, x ∈ uniqueItems newsItems ↔ ∃ i, earliestWithKey newsItems i x) ∧
  uniqueItems newsItems `sublist_of` newsItems ∧
  (∀ pre x post, newsItems = pre ++ x :: post →
     sourceHash x ∈ sourceHash <$> pre →
     uniqueItems newsItems = uniqueItems (pre ++ post) ∧
     processAndDeduplicateNews toLowerCase compareTwoStrings newsItems =
       processAndDeduplicateNews toLowerCase compareTwoStrings (pre ++ post)) ∧
  (∀ out, processAndDeduplicateNews toLowerCase compareTwoStrings newsItems = Ok out →
     out `sublist_of` uniqueItems newsItems ∧ out `sublist_of` newsItems ∧
     (∀ x, x ∈ out → ∃ i, earliestWithKey newsItems i x) ∧
     (∀ i x, earliestWithKey newsItems i x →
        x ∈ out ∨ ∃ e, e ∈ out ∧ similarTitles toLowerCase compareTwoStrings x e) ∧
     (∀ x rest, newsItems = x :: rest → ∃ out', out = x :: out')) ∧
  (Forall titled newsItems →
   (∀ k1 x k2, uniqueItems newsItems = k1 ++ x :: k2 →
      ∀ e, e ∈ k1 → ¬ similarTitles toLowerCase compareTwoStrings x e) →
   processAndDeduplicateNews toLowerCase compareTwoStrings newsItems =
     Ok (uniqueItems newsItems)) ∧
  (Forall titled newsItems →
   ∃ out, processAndDeduplicateNews toLowerCase compareTwoStrings newsItems = Ok out).
Proof.
  split; [reflexivity|].
  split; [apply uniqueItems_NoDup|].
  split; [apply uniqueItems_earliest|].
  split; [apply uniqueItems_sublist|].
  split; [|split; [|split]].
  - intros pre x post -> Hkey. unfold processAndDeduplicateNews.
    by rewrite uniqueItems_drop_later.
  - intros out Hout. unfold processAndDeduplicateNews in Hout.
    destruct (similarityScan_extends _ _ _ _ _ Hout) as (kept & Heq & Hsub).
    simpl in Heq. subst kept.
    split; [done|]. split; [etrans; [exact Hsub|apply uniqueItems_sublist]|].
    split; [|split].
    + intros x Hx. apply uniqueItems_earliest.
      by eapply sublist_subseteq in Hx.
    + intros i x Hx.
      apply (similarityScan_covers _ _ _ _ _ Hout), uniqueItems_earliest.
      by exists i.
    + intros x rest ->. destruct (uniqueItems_head x rest) as [u Hu].
      rewrite Hu in Hout. simpl in Hout.
      destruct (similarityScan_extends _ _ _ _ _ Hout) as (kept' & -> & _).
      by exists kept'.
  - intros Hall Hnone. unfold processAndDeduplicateNews.
    rewrite similarityScan_all_kept; [done|].
    intros k1 x k2 Hsplit. simpl.
    assert (Forall titled (k1 ++ x :: k2)) as Htitled.
    { rewrite <- Hsplit. eapply Forall_titled_sublist; [apply uniqueItems_sublist|done]. }
    apply Forall_app in Htitled as [Hk1 Hrest].
    apply Forall_cons in Hrest as [Hx _].
    destruct (isDuplicate_spec toLowerCase compareTwoStrings x k1 Hx Hk1)
      as (dup & Hdup & Hiff).
    destruct dup; [|done]. exfalso.
    destruct (proj1 Hiff eq_refl) as (e & He & Hsim).
    by apply (Hnone k1 x k2 Hsplit e He).
  - apply processAndDeduplicateNews_total.
Qed.

End ExactDuplicates.

(** Two different articles under one key: the one that arrives first is
    kept, in either order of arrival. *)
Lemma exact_duplicates_keep_first_witness :
  processAndDeduplicateNews StringSimilarity.toLowerCase
    StringSimilarity.compareTwoStrings
    [Samples.senate1; Scenarios.marketsUnderSenateKey; Samples.other]
    = Ok [Samples.senate1; Samples.other] ∧
  processAndDeduplicateNews StringSimilarity.toLowerCase
    StringSimilarity.compareTwoStrings
    [Scenarios.marketsUnderSenateKey; Samples.senate1; Samples.other]
    = Ok [Scenarios.marketsUnderSenateKey; Samples.other].
Proof.
  split.
  - destruct (exact_duplicates_keep_first StringSimilarity.toLowerCase
                StringSimilarity.compareTwoStrings
                [Samples.senate1; Scenarios.marketsUnderSenateKey; Samples.other])
      as (_ & _ & _ & _ & _ & _ & Hkept & _).
    apply Hkept.
    + repeat constructor; by eexists.
    + intros k1 x k2 Hsplit e He (t & t' & Ht & Ht' & Hlt).
      change (uniqueItems
                [Samples.senate1; Scenarios.marketsUnderSenateKey; Samples.other])
        with [Samples.senate1; Samples.other] in Hsplit.
      destruct k1 as [|y [|z k1]]; simplify_eq/=.
      * inversion He.
      * apply list_elem_of_singleton in He as ->. simplify_eq/=.
        vm_compute in Hlt. discriminate Hlt.
      * destruct k1; discriminate.
  - destruct (exact_duplicates_keep_first StringSimilarity.toLowerCase
                StringSimilarity.compareTwoStrings
                [Scenarios.marketsUnderSenateKey; Samples.senate1; Samples.other])
      as (_ & _ & _ & _ & _ & _ & Hkept & _).
    apply Hkept.
    + repeat constructor; by eexists.
    + intros k1 x k2 Hsplit e He (t & t' & Ht & Ht' & Hlt).
      change (uniqueItems
                [Scenarios.marketsUnderSenateKey; Samples.senate1; Samples.other])
        with [Scenarios.marketsUnderSenateKey; Samples.other] in Hsplit.
      destruct k1 as [|y [|z k1]]; simplify_eq/=.
      * inversion He.
      * apply list_elem_of_singleton in He as ->. simplify_eq/=.
        vm_compute in Hlt. discriminate Hlt.
      * destruct k1; discriminate.
Defined.

Lemma validate_any_id id id' newsData :
  isOk (validate id newsData) = isOk (validate id' newsData).
Proof. unfold validate. by repeat case_match. Qed.

Lemma storedMatch_mono w w' newsData :
  collection w ⊆ collection w' → storedMatch w newsData → storedMatch w' newsData.
Proof. intros Hsub (d & Hd & Hm). exists d. split; [by apply Hsub|done]. Qed.

Lemma settled_mono w w' newsData :
  collection w ⊆ collection w' → settled w newsData → settled w' newsData.
Proof. intros Hsub [Hm|Hv]; [left; by eapply storedMatch_mono|by right]. Qed.

(** A settled candidate costs at most an ObjectId. *)
Lemma saveOne_settled savedNews newsData w :
  settled w newsData →
  ∃ w', saveOne savedNews newsData w = (Ok savedNews, w') ∧
    collection w' = collection w ∧ sameRedis w w' ∧ sameSocket w w'.
Proof.
  intros Hs.
  destruct (List.find (matchesNaturalKey newsData) (collection w)) as [d0|] eqn:Hfind.
  - exists w. split; [apply saveOne_existing; by eexists|done].
  - destruct Hs as [Hm|Hv].
    { apply storedMatch_find in Hm as [d Hd]. congruence. }
    destruct (validate (nextId w) newsData) as [d|e] eqn:Hval.
    { specialize (Hv (nextId w)). by rewrite Hval in Hv. }
    destruct (saveOne_refused savedNews newsData w e Hfind Hval)
      as (w' & Hrun & Hcol & _ & Hr & Hsock).
    by exists w'.
Qed.

Lemma saveLoop_settled newsItems savedNews w :
  Forall (settled w) newsItems →
  ∃ w', saveLoop newsItems savedNews w = (Ok savedNews, w') ∧
    collection w' = collection w ∧ sameRedis w w' ∧ sameSocket w w'.
Proof.
  revert w. induction newsItems as [|c rest IH]; intros w Hall; simpl.
  - by exists w.
  - apply Forall_cons in Hall as [Hc Hrest].
    destruct (saveOne_settled savedNews c w Hc) as (w1 & Hone & Hcol1 & Hr1 & Hs1).
    unfold mbind, M_bind. rewrite Hone.
    destruct (IH w1) as (w' & Hrun & Hcol & Hr & Hs).
    { eapply Forall_impl; [exact Hrest|]. intros x. apply settled_mono.
      by rewrite Hcol1. }
    exists w'. split; [done|]. unfold sameRedis, sameSocket in *.
    destruct Hs, Hs1. repeat split; congruence.
Qed.

(** After the loop every candidate is settled. *)
Lemma saveLoop_settles newsItems savedNews w r w' :
  saveLoop newsItems savedNews w = (r, w') → Forall (settled w') newsItems.
Proof.
  revert savedNews w. induction newsItems as [|c rest IH]; intros saved w; simpl.
  - constructor.
  - unfold mbind, M_bind.
    destruct (List.find (matchesNaturalKey c) (collection w)) as [d0|] eqn:Hfind.
    + rewrite saveOne_existing by (by eexists). intros Hrun.
      constructor; [|by eapply IH].
      destruct (saveLoop_returns rest saved w) as (new & w2 & Hrun2 & Hcol & _).
      rewrite Hrun in Hrun2. injection Hrun2 as _ <-.
      left. eapply storedMatch_mono; [|apply storedMatch_find; by eexists].
      rewrite Hcol. intros x Hx. apply elem_of_app. by left.
    + destruct (validate (nextId w) c) as [d|e] eqn:Hval.
      * destruct (saveOne_inserted saved c w d Hfind Hval) as (w1 & -> & Hcol1 & _).
        intros Hrun. constructor; [|by eapply IH].
        destruct (saveLoop_returns rest (saved ++ [d]) w1) as (new & w2 & Hrun2 & Hcol & _).
        rewrite Hrun in Hrun2. injection Hrun2 as _ <-.
        left. exists d. split.
        -- rewrite Hcol, Hcol1, !elem_of_app, list_elem_of_singleton. auto.
        -- left. by apply validate_keys in Hval as (_ & -> & _).
      * destruct (saveOne_refused saved c w e Hfind Hval) as (w1 & -> & _).
        intros Hrun. constructor; [|by eapply IH].
        right. intros id. by rewrite (validate_any_id id (nextId w)), Hval.
Qed.

(** X7.  At most once: a second run of [saveNews] on the same candidates,
    on the state the first run left, inserts nothing, returns the empty
    list and publishes nothing; store, cache and socket log stay as they
    were. *)
Theorem saveNews_second_run (newsItems : list NewsItem) (w w' : World)
    (savedNews : list NewsDoc) :
  saveNews newsItems w = (Ok savedNews, w') →
  ∃ w'', saveNews newsItems w' = (Ok [], w'') ∧
    collection w'' = collection w' ∧ redisClient w'' = redisClient w' ∧
    emitted w'' = emitted w'.
Proof.
  unfold saveNews, mbind, M_bind.
  destruct (saveLoop newsItems [] w) as [[saved|e] w1] eqn:Hloop; [|done].
  pose proof (saveLoop_settles _ _ _ _ _ Hloop) as Hsettled.
  intros Hrest.
  assert (collection w1 = collection w') as Hcol.
  { destruct (Nat.ltb 0 (length saved)); simpl in Hrest.
    - destruct (broadcastNews_returns saved w1) as (w2 & Hb & (Hc & _) & _).
      rewrite Hb in Hrest. by injection Hrest as _ <-.
    - by injection Hrest as _ <-. }
  destruct (saveLoop_settled newsItems [] w') as (w'' & -> & Hcol2 & Hr & _ & He).
  { eapply Forall_impl; [exact Hsettled|]. intros x. apply settled_mono.
    by rewrite Hcol. }
  simpl. by exists w''.
Qed.

Lemma saveNews_second_run_witness :
  ∃ d w' w'',
    saveNews [Samples.senate1; Samples.longRead] Samples.liveWorld = (Ok [d], w') ∧
    saveNews [Samples.senate1; Samples.longRead] w' = (Ok [], w'') ∧
    collection w'' = [d].
Proof.
  destruct (saveNews [Samples.senate1; Samples.longRead] Samples.liveWorld)
    as [r w'] eqn:Hrun.
  destruct (saveNews_returns [Samples.senate1; Samples.longRead] Samples.liveWorld)
    as (saved & w1 & Hrun1 & Hcol1 & _).
  rewrite Hrun in Hrun1. injection Hrun1 as -> <-.
  destruct (saveNews_second_run _ _ _ _ Hrun) as (w'' & Hrun2 & Hcol & _).
  assert (∃ d, saved = [d]) as [d ->].
  { apply (f_equal fst) in Hrun. vm_compute in Hrun. injection Hrun as <-. by eexists. }
  exists d, w', w''. split; [done|]. split; [done|]. by rewrite Hcol, Hcol1.
Defined.

(** What a run of emits adds to the log: a prefix of the messages, all of
    them when it returns. *)
Lemma mapM_emit_sent (f : NewsDoc → Emission) items w r w' :
  mapM (λ x, emit (f x)) items w = (r, w') →
  ∃ sent, emitted w' = emitted w ++ sent ∧ sent `prefix_of` (f <$> items) ∧
    (isOk r = true → sent = f <$> items).
Proof.
  revert w r w'. induction items as [|x items IH]; intros w r w'; simpl.
  - intros [= <- <-]. exists []. by rewrite app_nil_r.
  - unfold mbind, M_bind. unfold emit at 1.
    destruct (io w) as [server|] eqn:Hio.
    + destruct (delivers server (f x)) eqn:Hd.
      * match goal with
        | |- context [mapM _ items ?w1] =>
            destruct (mapM (λ x, emit (f x)) items w1) as [[ys|e] w2] eqn:Hrest
        end;
          apply IH in Hrest as (sent & Hlog & Hpre & Hall); simpl in Hlog;
          intros [= <- <-]; exists (f x :: sent); rewrite Hlog, <- app_assoc;
          (split; [done|]); (split; [by apply prefix_cons|]);
          intros Hok; [by rewrite Hall|done].
      * intros [= <- <-]. exists []. rewrite app_nil_r.
        split; [done|]. split; [apply prefix_nil|done].
    + intros [= <- <-]. exists []. rewrite app_nil_r.
      split; [done|]. split; [apply prefix_nil|done].
Qed.

Lemma mapM_emit_delivered (f : NewsDoc → Emission) items w server :
  io w = Some server → (∀ e, delivers server e = true) →
  isOk (mapM (λ x, emit (f x)) items w).1 = true.
Proof.
  revert w. induction items as [|x items IH]; intros w Hio Hall; simpl; [done|].
  unfold mbind, M_bind. unfold emit at 1. rewrite Hio, Hall.
  match goal with
  | |- context [mapM _ items ?w1] =>
      specialize (IH w1 eq_refl Hall);
      destruct (mapM (λ x, emit (f x)) items w1) as [[ys|e] w2]
  end; done.
Qed.

Lemma broadcastNews_sent newsItems w :
  ∃ w' sent, broadcastNews newsItems w = (Ok tt, w') ∧
    emitted w' = emitted w ++ sent ∧
    sent `prefix_of` announcements newsItems ∧
    (io w = None → sent = []) ∧
    (∀ server, io w = Some server → (∀ e, delivers server e = true) →
       sent = announcements newsItems).
Proof.
  unfold broadcastNews, mbind, M_bind, getSocketInstance. simpl.
  destruct (io w) as [server|] eqn:Hio.
  - unfold tryCatch, mbind, M_bind. unfold emit at 1. rewrite Hio.
    destruct (delivers server (NewsUpdate newsItems (length newsItems))) eqn:Hd.
    + match goal with
      | |- context [mapM ?g newsItems ?w1] =>
          pose proof (mapM_emit_delivered (λ newsItem,
                        CategoryUpdate ("category:" +:+ doc_category newsItem) newsItem)
                        newsItems w1 server eq_refl) as Hdel;
          cbv beta in Hdel;
          destruct (mapM g newsItems w1) as [r w2] eqn:Hrest
      end.
      simpl in Hdel.
      apply (mapM_emit_sent (λ newsItem,
               CategoryUpdate ("category:" +:+ doc_category newsItem) newsItem))
        in Hrest as (sent & Hlog & Hpre & Hall). simpl in Hlog.
      exists w2, (NewsUpdate newsItems (length newsItems) :: sent).
      split; [by destruct r|].
      split; [by rewrite Hlog, <- app_assoc|].
      split; [by apply prefix_cons|]. split; [done|].
      intros server' [= <-] Hdelivers. unfold announcements.
      by rewrite Hall by (by apply Hdel).
    + exists w, []. rewrite app_nil_r. split; [done|]. split; [done|].
      split; [apply prefix_nil|]. split; [done|].
      intros server' [= <-] Hdelivers. by rewrite Hdelivers in Hd.
  - exists w, []. rewrite app_nil_r. split; [done|]. split; [done|].
    split; [apply prefix_nil|]. done.
Qed.

(** X8.  What [saveNews] publishes.  The messages it sends are a prefix of:
    one [news:update] with all the documents it inserted and their count,
    then one [news:category_update] per inserted document, in order of
    insertion, to the room of its topic; with a socket server that delivers
    every message they are all of these; nothing is sent when nothing was
    inserted or no server is initialised; and every document it publishes
    is in the collection. *)
Theorem saveNews_publishes (newsItems : list NewsItem) (w w' : World)
    (savedNews : list NewsDoc) :
  saveNews newsItems w = (Ok savedNews, w') →
  ∃ sent, emitted w' = emitted w ++ sent ∧
    sent `prefix_of` announcements savedNews ∧
    (savedNews = [] → sent = []) ∧
    (io w = None → sent = []) ∧
    (∀ server, io w = Some server → (∀ e, delivers server e = true) →
       savedNews ≠ [] → sent = announcements savedNews) ∧
    (∀ d, d ∈ savedNews → d ∈ collection w').
Proof.
  intros Hrun.
  destruct (saveNews_returns newsItems w) as (saved & w2 & Hrun2 & Hcol & _).
  rewrite Hrun in Hrun2. injection Hrun2 as <- <-.
  revert Hrun. unfold saveNews, mbind, M_bind.
  destruct (saveLoop_returns newsItems [] w) as (new & w1 & -> & _ & [Hio Hlog] & _).
  simpl. destruct new as [|d new]; simpl.
  - intros [= <- <-]. exists []. rewrite app_nil_r, Hlog.
    split; [done|]. split; [apply prefix_nil|]. split; [done|]. split; [done|].
    split; [done|]. intros d Hd. inversion Hd.
  - destruct (broadcastNews_sent (d :: new) w1) as (w3 & sent & -> & Hsent & Hpre & Hnone & Hall).
    intros [= <- <-]. exists sent. rewrite Hsent, Hlog.
    split; [done|]. split; [done|]. split; [done|].
    split; [intros Hn; apply Hnone; congruence|].
    split; [intros server Hs Hd _; apply (Hall server); [congruence|done]|].
    intros x Hx. rewrite Hcol. apply elem_of_app. by right.
Qed.

Lemma saveNews_publishes_witness :
  ∃ d w',
    saveNews [Samples.senate1; Samples.senate1_retitled] Samples.liveWorld
      = (Ok [d], w') ∧
    emitted w' = [NewsUpdate [d] 1; CategoryUpdate "category:politics" d].
Proof.
  destruct (saveNews [Samples.senate1; Samples.senate1_retitled] Samples.liveWorld)
    as [r w'] eqn:Hrun.
  assert (∃ d, r = Ok [d] ∧ doc_category d = "politics") as (d & -> & Hcat).
  { apply (f_equal fst) in Hrun. vm_compute in Hrun. subst r. by eexists. }
  destruct (saveNews_publishes _ _ _ _ Hrun) as (sent & Hlog & _ & _ & _ & Hall & _).
  exists d, w'. split; [done|]. rewrite Hlog.
  rewrite (Hall {| delivers := λ _, true |}); [|done..].
  unfold announcements. simpl. by rewrite Hcat.
Defined.

(** *** The cache after the inserts of one call *)

Lemma cacheNews_answering news w r :
  redisClient w = Some {| answers := true; db := r |} →
  cacheNews news w = (Ok tt, withCache w (afterCacheWrite news r)).
Proof.
  intros Hc. destruct w as [c n rc s e]. simpl in Hc. subst rc.
  unfold cacheNews, tryCatch, mbind, M_bind, getRedisClient.
  unfold redis_setEx, redis_lPush, redis_expire, redis_lTrim, command. simpl.
  rewrite lookup_insert_eq. simpl. rewrite insert_insert_eq.
  unfold withCache, afterCacheWrite. simpl.
  destruct (latestKey r) as [l|] eqn:Hl; simpl.
  - rewrite rangeOf_first_hundred. simpl.
    destruct (categoryKeys r !! doc_category news); reflexivity.
  - destruct (categoryKeys r !! doc_category news); reflexivity.
Qed.

Lemma saveOne_inserted_cache savedNews newsData w d r :
  List.find (matchesNaturalKey newsData) (collection w) = None →
  validate (nextId w) newsData = Ok d →
  redisClient w = Some {| answers := true; db := r |} →
  ∃ w', saveOne savedNews newsData w = (Ok (savedNews ++ [d]), w') ∧
    collection w' = collection w ++ [d] ∧ nextId w' = S (nextId w) ∧
    redisClient w' = Some {| answers := true; db := afterCacheWrite d r |}.
Proof.
  intros Hfind Hval Hc.
  destruct (saveOne_inserted savedNews newsData w d Hfind Hval)
    as (w' & Hrun & Hcol & Hn & _).
  exists w'. split; [done|]. split; [done|]. split; [done|].
  revert Hrun. unfold saveOne, tryCatch, mbind, M_bind, News_findOne.
  rewrite Hfind. unfold News_new, News_save. simpl. rewrite Hval.
  destruct (existsb _ _).
  { intros [= Heq _]. apply (f_equal length) in Heq.
    rewrite length_app in Heq. simpl in Heq. lia. }
  erewrite cacheNews_answering by (simpl; exact Hc).
  by intros [= <-].
Qed.

Lemma saveLoop_cache newsItems savedNews w r :
  redisClient w = Some {| answers := true; db := r |} →
  ∃ new w', saveLoop newsItems savedNews w = (Ok (savedNews ++ new), w') ∧
    redisClient w' =
      Some {| answers := true; db := foldl (λ r d, afterCacheWrite d r) r new |} ∧
    (nextId w ≤ nextId w')%nat ∧
    Forall (λ d, (nextId w ≤ _id d < nextId w')%nat) new ∧
    NoDup (_id <$> new).
Proof.
  revert savedNews w r. induction newsItems as [|c rest IH]; intros saved w r Hc; simpl.
  - exists [], w. rewrite app_nil_r. repeat split; try done; constructor.
  - unfold mbind, M_bind.
    destruct (List.find (matchesNaturalKey c) (collection w)) as [d0|] eqn:Hfind.
    + rewrite saveOne_existing by (by eexists). by apply IH.
    + destruct (validate (nextId w) c) as [d|e] eqn:Hval.
      * destruct (saveOne_inserted_cache saved c w d r Hfind Hval Hc)
          as (w1 & -> & _ & Hn1 & Hc1).
        destruct (IH (saved ++ [d]) w1 _ Hc1) as (new & w' & -> & Hc' & Hle & Hids & Hnd).
        exists (d :: new), w'. rewrite <- app_assoc. split; [done|].
        split; [done|]. split; [lia|].
        assert (_id d = nextId w) as Hid by (by apply validate_keys in Hval as (? & _)).
        split.
        -- constructor; [lia|]. eapply Forall_impl; [exact Hids|]. simpl. lia.
        -- rewrite fmap_cons. constructor; [|done].
           intros Hin. apply list_elem_of_fmap in Hin as (d' & Heq & Hd').
           eapply Forall_forall in Hids; [|exact Hd']. simpl in Hids. lia.
      * destruct (saveOne_refused saved c w e Hfind Hval)
          as (w1 & -> & _ & Hn1 & Hr1 & _).
        destruct (IH saved w1 r) as (new & w' & -> & Hc' & Hle & Hids & Hnd).
        { by rewrite Hr1. }
        exists new, w'. split; [done|]. split; [done|]. split; [lia|].
        split; [|done]. eapply Forall_impl; [exact Hids|]. simpl. lia.
Qed.

Lemma take_app_take {A} n (l k : list A) :
  take n (l ++ take n k) = take n (l ++ k).
Proof.
  rewrite !take_app, take_take. f_equal. f_equal. lia.
Qed.

Lemma latest_after_writes (new : list NewsDoc) r :
  take 100 (from_option elems [] (latestKey (foldl (λ r d, afterCacheWrite d r) r new))) =
  take 100 (reverse (_id <$> new) ++ from_option elems [] (latestKey r)).
Proof.
  revert r. induction new as [|d new IH]; intros r; [done|].
  change (foldl (λ r d, afterCacheWrite d r) r (d :: new))
    with (foldl (λ r d, afterCacheWrite d r) (afterCacheWrite d r) new).
  rewrite IH.
  change (from_option elems [] (latestKey (afterCacheWrite d r)))
    with (take 100 (_id d :: from_option elems [] (latestKey r))).
  rewrite take_app_take, fmap_cons, reverse_cons, <- app_assoc. done.
Qed.

Lemma latest_after_writes_bounded (new : list NewsDoc) r :
  new ≠ [] →
  (length (from_option elems []
             (latestKey (foldl (λ r d, afterCacheWrite d r) r new))) ≤ 100)%nat.
Proof.
  induction new as [|d new IH] using rev_ind; [done|]. intros _.
  rewrite foldl_app.
  change (length (take 100 (_id d ::
            from_option elems []
              (latestKey (foldl (λ r d, afterCacheWrite d r) r new)))) ≤ 100)%nat.
  rewrite length_take. lia.
Qed.

Lemma newsKeys_after_writes (new : list NewsDoc) r d :
  NoDup (_id <$> new) → d ∈ new →
  newsKeys (foldl (λ r d, afterCacheWrite d r) r new) !! _id d = Some (d, 3600).
Proof.
  induction new as [|x new IH] using rev_ind; [intros _ Hd; inversion Hd|].
  rewrite fmap_app, foldl_app. simpl. intros Hnd Hd.
  apply NoDup_app in Hnd as (Hnd & Hx & _).
  apply elem_of_app in Hd as [Hd|Hd].
  - rewrite lookup_insert_ne; [by apply IH|].
    intros Heq. apply (Hx (_id d)).
    + apply list_elem_of_fmap. by exists d.
    + rewrite <- Heq. left.
  - apply list_elem_of_singleton in Hd as ->. by rewrite lookup_insert_eq.
Qed.

Lemma rangeOf_take {A} (l : list A) (n : nat) :
  (0 < n)%nat → rangeOf l (Z.of_nat 0) (Z.of_nat 0 + Z.of_nat n - 1)%Z = take n l.
Proof.
  intros Hn. unfold rangeOf. change (Z.of_nat 0) with 0%Z.
  change (Z.ltb 0 0) with false. cbv iota.
  replace (Z.ltb (0 + Z.of_nat n - 1) 0) with false
    by (symmetry; apply Z.ltb_ge; lia).
  change (Z.to_nat 0) with 0%nat. rewrite drop_0.
  destruct (Z.ltb_spec (Z.min (0 + Z.of_nat n - 1) (Z.of_nat (length l) - 1)) 0)
    as [Hneg|Hpos].
  - destruct l; [by rewrite take_nil|simpl length in Hneg; lia].
  - destruct (decide (n ≤ length l)%nat) as [Hle|Hgt].
    + rewrite Z.min_l by lia. f_equal. lia.
    + rewrite Z.min_r by lia. rewrite !take_ge; [done|lia..].
Qed.

Lemma omap_lookup_ids (g : nat → option NewsDoc) (l : list NewsDoc) :
  (∀ d, d ∈ l → g (_id d) = Some d) → omap g (_id <$> l) = l.
Proof.
  induction l as [|d l IH]; intros Hg; csimpl; [done|].
  rewrite (Hg d) by left. rewrite IH; [done|].
  intros d' Hd'. apply Hg. by right.
Qed.

(** The latest read through an answering client. *)
Lemma getLatestNews_through_cache limit offset w r :
  redisClient w = Some {| answers := true; db := r |} →
  getLatestNews limit offset w =
    if Nat.ltb 0 (length (validNews limit offset r))
    then (Ok (validNews limit offset r), w)
    else News_find isActive limit offset w.
Proof.
  intros Hc. destruct w as [c n rc s e]. simpl in Hc. subst rc.
  unfold getLatestNews, latestFromCache, getRedisClient, tryCatch, mbind, M_bind.
  simpl. unfold validNews, cachedIds.
  replace (match latestKey r with
           | Some l => rangeOf (elems l) (Z.of_nat offset)
                         (Z.of_nat offset + Z.of_nat limit - 1)%Z
           | None => []
           end)
    with (rangeOf (from_option elems [] (latestKey r)) (Z.of_nat offset)
            (Z.of_nat offset + Z.of_nat limit - 1)%Z)
    by (destruct (latestKey r); simpl; [done|by rewrite rangeOf_nil]).
  set (ids := rangeOf _ _ _).
  destruct (Nat.ltb 0 (length ids)) eqn:Hids.
  - rewrite mapM_redis_get. simpl. rewrite omap_id_fmap.
    destruct (Nat.ltb 0 (length (omap _ ids))); reflexivity.
  - apply Nat.ltb_ge in Hids. destruct ids; [done|simpl in Hids; lia].
Qed.

(** X9.  Insert, then read.  After a call of [saveNews] through an
    answering cache every inserted document is cached under its identifier
    for 3600 seconds, and a latest read of the first [limit] entries, with
    [limit] at most 100 and at most the number of inserted documents,
    returns the documents inserted last, the last one first: the order of
    insertion reversed, whatever their dates of publication. *)
Theorem saveNews_then_getLatestNews (newsItems : list NewsItem) (w w' : World)
    (r : RedisDb) (savedNews : list NewsDoc) (limit : nat) :
  redisClient w = Some {| answers := true; db := r |} →
  saveNews newsItems w = (Ok savedNews, w') →
  (0 < limit)%nat → (limit ≤ length savedNews)%nat → (limit ≤ 100)%nat →
  (∃ r', redisClient w' = Some {| answers := true; db := r' |} ∧
     ∀ d, d ∈ savedNews → newsKeys r' !! _id d = Some (d, 3600)) ∧
  getLatestNews limit 0 w' = (Ok (take limit (reverse savedNews)), w').
Proof.
  intros Hc Hrun Hpos Hlen Hmax.
  destruct (saveLoop_cache newsItems [] w r Hc) as (new & w1 & Hloop & Hc1 & _ & _ & Hnd).
  assert (savedNews = new ∧ redisClient w' = redisClient w1) as [-> Hc'].
  { revert Hrun. unfold saveNews, mbind, M_bind. rewrite Hloop. simpl.
    destruct (Nat.ltb 0 (length new)).
    - destruct (broadcastNews_returns new w1) as (w2 & -> & _ & Hr & _).
      by intros [= <- <-].
    - by intros [= <- <-]. }
  rewrite Hc1 in Hc'.
  set (r' := foldl (λ r d, afterCacheWrite d r) r new) in *.
  assert (∀ d, d ∈ new → newsKeys r' !! _id d = Some (d, 3600)) as Hkeys.
  { intros d Hd. by apply newsKeys_after_writes. }
  split; [by exists r'|].
  rewrite (getLatestNews_through_cache limit 0 w' r' Hc').
  assert (validNews limit 0 r' = take limit (reverse new)) as ->.
  { unfold validNews, cachedIds. rewrite rangeOf_take by done.
    assert (take limit (from_option elems [] (latestKey r')) =
            _id <$> take limit (reverse new)) as ->.
    { replace limit with (limit `min` 100)%nat at 1 by lia.
      rewrite <- take_take. subst r'. rewrite latest_after_writes.
      rewrite take_take. replace (limit `min` 100)%nat with limit by lia.
      rewrite take_app_le by (rewrite length_reverse, length_fmap; lia).
      by rewrite fmap_take, fmap_reverse. }
    apply omap_lookup_ids. intros d Hd.
    rewrite Hkeys; [done|].
    apply elem_of_reverse. eapply sublist_subseteq; [apply sublist_take|exact Hd]. }
  rewrite length_take, length_reverse.
  replace (limit `min` length new)%nat with limit by lia.
  destruct limit; [lia|done].
Qed.

Lemma saveNews_then_getLatestNews_witness :
  ∃ d1 d2 w',
    saveNews [Samples.senate1; Samples.other] Samples.liveWorld = (Ok [d1; d2], w') ∧
    getLatestNews 2 0 w' = (Ok [d2; d1], w').
Proof.
  destruct (saveNews [Samples.senate1; Samples.other] Samples.liveWorld)
    as [res w'] eqn:Hrun.
  assert (∃ d1 d2, res = Ok [d1; d2]) as (d1 & d2 & ->).
  { apply (f_equal fst) in Hrun. vm_compute in Hrun. subst res. by eexists _, _. }
  exists d1, d2, w'. split; [done|].
  apply (saveNews_then_getLatestNews _ Samples.liveWorld w' Samples.emptyDb
           [d1; d2] 2 eq_refl Hrun); simpl; lia.
Defined.

(** ** The retention sweep *)

Lemma News_find_members filter limit offset w page :
  News_find filter limit offset w = (Ok page, w) →
  ∀ d, d ∈ page → d ∈ collection w ∧ filter d = true.
Proof.
  intros Hrun.
  destruct (News_find_page filter limit offset w) as (page' & Hrun' & _ & _ & Hin & _).
  rewrite Hrun in Hrun'. injection Hrun' as <-. exact Hin.
Qed.

(** X10.  The retention sweep returns, also as the callback of its job.  It
    keeps the collection in place and in order; a document published before
    [now] minus seven days becomes inactive and is otherwise unchanged; a
    document published at that instant or later is untouched; the cache is
    not touched; and after the sweep no page of active documents that the
    store returns holds a document older than seven days. *)
Theorem cleanupOldNews_sweep (now : Z) (w : World) :
  ∃ w', cleanupOldNews now w = (Ok tt, w') ∧ cleanupJob now w = (Ok tt, w') ∧
    length (collection w') = length (collection w) ∧
    (∀ i d, collection w !! i = Some d →
       ∃ d', collection w' !! i = Some d' ∧
         ((doc_publishedAt d < now - retentionMs)%Z → d' = withActive false d) ∧
         ((now - retentionMs ≤ doc_publishedAt d)%Z → d' = d)) ∧
    redisClient w' = redisClient w ∧
    (∀ filter limit offset page,
       (∀ d, filter d = true → isActive d = true) →
       News_find filter limit offset w' = (Ok page, w') →
       ∀ d, d ∈ page → (now - retentionMs ≤ doc_publishedAt d)%Z).
Proof.
  eexists. split; [reflexivity|]. split; [reflexivity|]. simpl.
  split; [by rewrite length_fmap|]. split; [|split; [done|]].
  - intros i d Hi. rewrite list_lookup_fmap, Hi. simpl. eexists. split; [done|].
    destruct (Z.ltb_spec (doc_publishedAt d) (now - retentionMs)); split; (done || lia).
  - intros filter limit offset page Hact Hrun d Hd.
    apply (News_find_members _ _ _ _ _ Hrun) in Hd as [Hin Hf]. simpl in Hin.
    apply list_elem_of_fmap in Hin as (d0 & -> & _).
    apply Hact in Hf.
    destruct (Z.ltb_spec (doc_publishedAt d0) (now - retentionMs)); [done|lia].
Qed.

(** ** The admin routes *)

Lemma authenticateAdmin_next apiKey validApiKey :
  authenticateAdmin apiKey validApiKey = None ↔
  truthy validApiKey = true ∧ apiKey = validApiKey.
Proof.
  unfold authenticateAdmin.
  destruct (truthy validApiKey) eqn:Hv; simpl; [|split; [done|by intros [? _]]].
  destruct (truthy apiKey) eqn:Ha; simpl.
  - case_bool_decide; simpl; split; try done. by intros [_ ?].
  - split; [done|]. intros [_ ->]. congruence.
Qed.

Section AdminFacts.
Variable md5hex : string → string.
Variable newDate : option string → JSDate.
Variable toLowerCase : string → string.
Variable compareTwoStrings : string → string → Q.

(** X11.  No admin route runs without the key.  The handler behind
    [authenticateAdmin] runs exactly when [ADMIN_API_KEY] is set, not empty,
    and equal to the header [x-api-key]; in every other case the route
    answers 501 (no key configured) or 401 and leaves store, cache and
    socket log as they are. *)
Theorem adminRoute_needs_key (validApiKey apiKey : option string)
    (route : AdminRoute) (w : World) :
  ¬ (truthy validApiKey = true ∧ apiKey = validApiKey) →
  ∃ response,
    adminRoute md5hex newDate toLowerCase compareTwoStrings validApiKey apiKey route w
      = (Ok response, w) ∧
    (truthy validApiKey = false → status response = 501) ∧
    (truthy validApiKey = true → status response = 401).
Proof.
  intros Hno. unfold adminRoute.
  destruct (authenticateAdmin apiKey validApiKey) as [response|] eqn:Hauth.
  - exists response. split; [done|]. revert Hauth. unfold authenticateAdmin.
    destruct (truthy validApiKey); simpl.
    + destruct (_ || _); [|done]. intros [= <-]. done.
    + intros [= <-]. done.
  - exfalso. by apply Hno, authenticateAdmin_next.
Qed.

End AdminFacts.

Lemma adminRoute_needs_key_witness :
  ∃ response,
    adminRoute (λ s, s) (λ _, InvalidDate) StringSimilarity.toLowerCase
      StringSimilarity.compareTwoStrings (Some "secret") (Some "guess")
      ClearCache Samples.liveWorld = (Ok response, Samples.liveWorld) ∧
    status response = 401.
Proof.
  destruct (adminRoute_needs_key (λ s, s) (λ _, InvalidDate)
              StringSimilarity.toLowerCase StringSimilarity.compareTwoStrings
              (Some "secret") (Some "guess") ClearCache Samples.liveWorld)
    as (response & Hrun & _ & H401).
  - intros [_ [=]].
  - exists response. split; [exact Hrun|]. by apply H401.
Defined.

Lemma deactivateFirst_missing id docs :
  id ∉ _id <$> docs → deactivateFirst id docs = (None, docs).
Proof.
  induction docs as [|d docs IH]; [done|].
  rewrite fmap_cons, not_elem_of_cons. intros [Hne Hnot]. simpl.
  destruct (decide (_id d = id)); [done|]. by rewrite IH.
Qed.

Lemma deactivateFirst_found id l1 d l2 :
  _id d = id → id ∉ _id <$> l1 →
  deactivateFirst id (l1 ++ d :: l2) =
    (Some (withActive false d), l1 ++ withActive false d :: l2).
Proof.
  intros Hd. induction l1 as [|x l1 IH].
  - intros _. simpl. by rewrite decide_True.
  - rewrite fmap_cons, not_elem_of_cons. intros [Hne Hnot]. simpl.
    destruct (decide (_id x = id)); [done|]. by rewrite IH.
Qed.

(** X12.  Deactivation by identifier.  An identifier that no stored
    document carries is answered 404 and nothing changes.  Otherwise the
    first document with the identifier becomes inactive, keeps its place
    and its other paths, and is returned with status 200; the cache is not
    touched, so a latest read that the cache answers returns after the
    deactivation what it returned before, the cached copy included; with
    identifiers pairwise different, no page of active documents of the
    store holds the identifier any more. *)
Theorem deactivateRoute_effect (id : nat) (w : World) :
  (id ∉ _id <$> collection w →
     deactivateRoute (Some id) w =
       (Ok {| status := 404; body := ErrorBody "News item not found" |}, w)) ∧
  (∀ l1 d l2, collection w = l1 ++ d :: l2 → _id d = id → id ∉ _id <$> l1 →
     ∃ w', deactivateRoute (Some id) w =
             (Ok {| status := 200; body := NewsDeactivated (withActive false d) |}, w') ∧
       collection w' = l1 ++ withActive false d :: l2 ∧
       redisClient w' = redisClient w ∧ emitted w' = emitted w ∧
       (∀ r limit offset, redisClient w = Some {| answers := true; db := r |} →
          validNews limit offset r ≠ [] →
          (getLatestNews limit offset w').1 = Ok (validNews limit offset r) ∧
          (getLatestNews limit offset w).1 = Ok (validNews limit offset r)) ∧
       (NoDup (_id <$> collection w) →
        ∀ filter limit offset page,
          (∀ x, filter x = true → isActive x = true) →
          News_find filter limit offset w' = (Ok page, w') →
          id ∉ _id <$> page)).
Proof.
  split.
  - intros Hnot. destruct w as [c n rc s e]. simpl in *.
    unfold deactivateRoute, tryCatch, mbind, M_bind, News_findByIdAndUpdate_inactive.
    simpl. by rewrite deactivateFirst_missing.
  - intros l1 d l2 Hcol Hd Hnot.
    eexists. split.
    { unfold deactivateRoute, tryCatch, mbind, M_bind, News_findByIdAndUpdate_inactive.
      rewrite Hcol, deactivateFirst_found by done. reflexivity. }
    simpl. split; [done|]. split; [done|]. split; [done|]. split.
    + intros r limit offset Hc Hvalid.
      assert (Nat.ltb 0 (length (validNews limit offset r)) = true) as Hlen.
      { apply Nat.ltb_lt. destruct (validNews limit offset r); [done|simpl; lia]. }
      rewrite !(getLatestNews_through_cache limit offset _ r) by done.
      by rewrite Hlen.
    + intros Hnd filter limit offset page Hact Hrun Hin.
      apply list_elem_of_fmap in Hin as (x & Hx & Hxin).
      apply (News_find_members _ _ _ _ _ Hrun) in Hxin as [Hxin Hf]. simpl in Hxin.
      apply Hact in Hf.
      rewrite Hcol, fmap_app, fmap_cons in Hnd.
      apply NoDup_app in Hnd as (_ & Hl1 & Hnd). apply NoDup_cons in Hnd as [Hl2 _].
      rewrite elem_of_app, elem_of_cons in Hxin. destruct Hxin as [Hxin|[->|Hxin]].
      * apply Hnot. apply list_elem_of_fmap. by exists x.
      * done.
      * apply Hl2. apply list_elem_of_fmap. exists x. split; [congruence|done].
Qed.

Lemma deactivateRoute_effect_witness :
  ∃ w',
    deactivateRoute (Some 1) Scenarios.threeStored =
      (Ok {| status := 200;
             body := NewsDeactivated
                       (withActive false
                          (Samples.storedDoc 1 "politics" 1700000000001 true)) |}, w') ∧
    isActive <$> collection w' = [true; false; true].
Proof.
  destruct (deactivateRoute_effect 1 Scenarios.threeStored) as (_ & Hfound).
  destruct (Hfound [Samples.storedDoc 0 "politics" 1700000000000 true]
              (Samples.storedDoc 1 "politics" 1700000000001 true)
              [Samples.storedDoc 2 "politics" 1700000000002 true])
    as (w' & Hrun & Hcol & _).
  - reflexivity.
  - reflexivity.
  - vm_compute. intros Hin. inversion Hin as [|? ? ? Hin']. inversion Hin'.
  - exists w'. split; [exact Hrun|]. by rewrite Hcol.
Defined.

(** X13.  Clearing the cache.  Without a client the route answers 503 and
    nothing changes.  With a client whose commands are fulfilled it answers
    200 and the cache is empty afterwards: no article key, no topic list and
    no latest list is left, so every read of an article key finds nothing
    and every range of a list is empty.  The store and the socket are as
    before, and from then on the latest read returns the page of the store,
    for every limit and offset. *)
Theorem clearCacheRoute_effect (w : World) :
  (redisClient w = None →
     clearCacheRoute w =
       (Ok {| status := 503; body := ErrorBody "Redis not available" |}, w)) ∧
  (∀ r, redisClient w = Some {| answers := true; db := r |} →
     ∃ w', clearCacheRoute w = (Ok {| status := 200; body := CacheCleared |}, w') ∧
       redisClient w' =
         Some {| answers := true;
                 db := {| newsKeys := ∅; categoryKeys := ∅; latestKey := None |} |} ∧
       collection w' = collection w ∧ nextId w' = nextId w ∧
       io w' = io w ∧ emitted w' = emitted w ∧
       (∀ id, redis_get id w' = (Ok None, w')) ∧
       (∀ k start stop, redis_lRange k start stop w' = (Ok [], w')) ∧
       ∀ limit offset,
         getLatestNews limit offset w' = News_find isActive limit offset w').
Proof.
  split.
  - intros Hc. unfold clearCacheRoute, tryCatch, mbind, M_bind, getRedisClient.
    simpl. by rewrite Hc.
  - intros r Hc. destruct w as [c n rc s e]. simpl in Hc. subst rc.
    eexists. split; [reflexivity|]. simpl.
    split; [done|]. split; [done|]. split; [done|]. split; [done|]. split; [done|].
    split; [|split].
    + intros id. unfold redis_get. by rewrite command_answered.
    + intros k start stop. unfold redis_lRange. rewrite command_answered.
      by destruct k.
    + intros limit offset.
      erewrite getLatestNews_through_cache by reflexivity.
      unfold validNews, cachedIds. simpl. by rewrite rangeOf_nil.
Qed.

Lemma clearCacheRoute_effect_witness :
  ∃ w', clearCacheRoute Samples.cachedThenDeactivated
          = (Ok {| status := 200; body := CacheCleared |}, w') ∧
    redisClient w' = Some {| answers := true; db := Samples.emptyDb |} ∧
    getLatestNews 20 0 w' = (Ok [], w').
Proof.
  destruct (clearCacheRoute_effect Samples.cachedThenDeactivated) as (_ & Hclear).
  destruct (Hclear _ eq_refl) as (w' & Hrun & Hdb & Hcol & _ & _ & _ & _ & _ & Hread).
  exists w'. split; [exact Hrun|]. split; [exact Hdb|]. rewrite Hread.
  destruct (News_find_page isActive 20 0 w') as (page & -> & Hpage & _).
  rewrite Hpage, Hcol. reflexivity.
Defined.

(** ** The adapters: failures stay local *)

Section AdapterIsolation.
Variable md5hex : string → string.
Variable newDate : option string → JSDate.

Lemma hashThenGate_at_most_one content mk calls pushed :
  hashThenGate md5hex content mk = (calls, Ok pushed) → (length pushed ≤ 1)%nat.
Proof.
  unfold hashThenGate. destruct (generateHash md5hex content); [|done].
  destruct (isValidNewsItem _); intros [= _ <-]; simpl; lia.
Qed.

Lemma entryLoop_length {E} (body : E → list Call * result (list NewsItem)) entries :
  (∀ e calls pushed, body e = (calls, Ok pushed) → (length pushed ≤ 1)%nat) →
  (length (entryLoop body entries).2 ≤ length entries)%nat.
Proof.
  intros Hbody. induction entries as [|e entries IH]; simpl; [lia|].
  destruct (body e) as [calls [pushed|err]] eqn:He; simpl; [|lia].
  destruct (entryLoop body entries) as [calls' pushed']. simpl in *.
  rewrite length_app. pose proof (Hbody _ _ _ He). lia.
Qed.

Lemma fetchRSSNews_app name feeds1 feeds2 :
  fetchRSSNews md5hex newDate name (feeds1 ++ feeds2) =
    ((fetchRSSNews md5hex newDate name feeds1).1 ++
     (fetchRSSNews md5hex newDate name feeds2).1,
     (fetchRSSNews md5hex newDate name feeds1).2 ++
     (fetchRSSNews md5hex newDate name feeds2).2).
Proof.
  induction feeds1 as [|[category feed] feeds1 IH]; simpl.
  - by destruct (fetchRSSNews md5hex newDate name feeds2).
  - rewrite IH.
    destruct (match feed with Ok items => _ | Throw _ => _ end) as [calls pushed].
    destruct (fetchRSSNews md5hex newDate name feeds1) as [calls1 pushed1].
    simpl. by rewrite !app_assoc.
Qed.

Lemma guardianPages_app name pages1 pages2 :
  guardianPages md5hex newDate name (pages1 ++ pages2) =
    ((guardianPages md5hex newDate name pages1).1 ++
     (guardianPages md5hex newDate name pages2).1,
     (guardianPages md5hex newDate name pages1).2 ++
     (guardianPages md5hex newDate name pages2).2).
Proof.
  induction pages1 as [|[category page] pages1 IH]; simpl.
  - by destruct (guardianPages md5hex newDate name pages2).
  - rewrite IH.
    destruct (match page with Ok articles => _ | Throw _ => _ end) as [calls pushed].
    destruct (guardianPages md5hex newDate name pages1) as [calls1 pushed1].
    simpl. by rewrite !app_assoc.
Qed.

Lemma fetchRSSNews_length name feeds :
  (length (fetchRSSNews md5hex newDate name feeds).2 ≤ 10 * length feeds)%nat.
Proof.
  induction feeds as [|[category feed] feeds IH]; simpl; [lia|].
  destruct (fetchRSSNews md5hex newDate name feeds) as [calls' pushed'].
  destruct feed as [items|err]; simpl in *; [|lia].
  pose proof (entryLoop_length (rssEntry md5hex newDate name category) (take 10 items))
    as Hloop.
  destruct (entryLoop _ _) as [calls pushed]. simpl in *.
  rewrite length_app, length_take in *.
  assert (length pushed ≤ 10)%nat; [|lia].
  etrans; [apply Hloop|lia].
  intros e c p. unfold rssEntry. destruct (extractImage e); [|done].
  apply hashThenGate_at_most_one.
Qed.

(** X14.  Failures stay local to a feed, a page and a source.  A feed whose
    parsing fails contributes nothing and the feeds before and after it
    contribute what they contribute on their own; the same holds for the
    pages of the search endpoint; a source contributes to the batch what it
    contributes on its own; a feed adapter returns at most ten items per
    configured feed; and without an API key the search adapter requests and
    returns nothing. *)
Theorem adapters_isolate_failures :
  (∀ name feeds1 category e feeds2,
     (fetchRSSNews md5hex newDate name (feeds1 ++ (category, Throw e) :: feeds2)).2 =
       (fetchRSSNews md5hex newDate name feeds1).2 ++
       (fetchRSSNews md5hex newDate name feeds2).2) ∧
  (∀ name pages1 category e pages2,
     (guardianPages md5hex newDate name (pages1 ++ (category, Throw e) :: pages2)).2 =
       (guardianPages md5hex newDate name pages1).2 ++
       (guardianPages md5hex newDate name pages2).2) ∧
  (∀ sources1 sources2,
     allNews md5hex newDate (sources1 ++ sources2) =
       allNews md5hex newDate sources1 ++ allNews md5hex newDate sources2) ∧
  (∀ name feeds,
     (length (fetchRSSNews md5hex newDate name feeds).2 ≤ 10 * length feeds)%nat) ∧
  (∀ name apiKey pages, truthy apiKey = false →
     fetchGuardianNews md5hex newDate name apiKey pages = ([], [])).
Proof.
  split; [|split; [|split; [|split]]].
  - intros name feeds1 category e feeds2. rewrite fetchRSSNews_app. simpl.
    by destruct (fetchRSSNews md5hex newDate name feeds2).
  - intros name pages1 category e pages2. rewrite guardianPages_app. simpl.
    by destruct (guardianPages md5hex newDate name pages2).
  - intros sources1 sources2. unfold allNews. by rewrite flat_map_app.
  - apply fetchRSSNews_length.
  - intros name apiKey pages Hkey. unfold fetchGuardianNews. by rewrite Hkey.
Qed.

End AdapterIsolation.

(** ** Topics *)

(** X15.  The topic that [mapCategory] returns is a topic of the schema
    exactly for the nine topics themselves and for the labels tech, sci and
    sport; a candidate with any other label is refused by [save]. *)
Theorem mapCategory_in_enum (label : string) :
  ((∃ c, mapCategory label = Label c ∧ c ∈ categoryEnum) ↔
   label ∈ categoryEnum ∨ label ∈ ["tech"; "sci"; "sport"]) ∧
  (∀ id newsData d,
     category newsData = mapCategory label → validate id newsData = Ok d →
     label ∈ categoryEnum ∨ label ∈ ["tech"; "sci"; "sport"]).
Proof.
  assert ((∃ c, mapCategory label = Label c ∧ c ∈ categoryEnum) ↔
          label ∈ categoryEnum ∨ label ∈ ["tech"; "sci"; "sport"]) as Hiff.
  { split.
    - intros (c & Hmap & Hc). revert Hmap. unfold mapCategory, categoryMap. simpl.
      repeat (case_decide; [subst; simpl; intros _; first
        [ by left; apply (bool_decide_unpack _)
        | by right; apply (bool_decide_unpack _) ]|]).
      case_bool_decide; [done|]. intros [= ->]. by left.
    - intros [Hin|Hin].
      + unfold categoryEnum in Hin. rewrite !elem_of_cons in Hin.
        repeat (destruct Hin as [->|Hin];
                [eexists; split; [reflexivity|by apply (bool_decide_unpack _)]|]).
        inversion Hin.
      + rewrite !elem_of_cons in Hin.
        repeat (destruct Hin as [->|Hin];
                [eexists; split; [reflexivity|by apply (bool_decide_unpack _)]|]).
        inversion Hin. }
  split; [exact Hiff|].
  intros id newsData d Hcat Hval. apply Hiff.
  revert Hval. unfold validate. rewrite Hcat.
  destruct (title newsData); [|done]. destruct (url newsData); [|done].
  destruct (publishedAt newsData); [|done].
  destruct (mapCategory label) as [c|]; [|done].
  destruct (_ && _) eqn:Hchecks; [|done]. intros _.
  exists c. split; [done|].
  rewrite !andb_true_iff in Hchecks. destruct Hchecks as [[_ Hc] _].
  by apply bool_decide_eq_true in Hc.
Qed.

(** ** The news routes *)

Lemma queryGet_Map_set (query : list (string * QueryValue)) key v :
  queryGet (Map_set query key v) key = Some v.
Proof.
  induction query as [|[k v'] query IH]; simpl.
  - by rewrite decide_True.
  - destruct (decide (key = k)) as [->|Hne]; simpl.
    + by rewrite decide_True.
    + by rewrite decide_False.
Qed.

Lemma foldCase_percent c : foldCase c = "%"%char → c = "%"%char.
Proof.
  destruct c as [[] [] [] [] [] [] [] []]; vm_compute; intros H0;
    first [reflexivity | discriminate H0].
Qed.

Lemma hasPercent_foldCases s : hasPercent (foldCases s) = hasPercent s.
Proof.
  induction s as [|c s IH]; simpl; [done|].
  destruct (decide (c = "%"%char)) as [->|Hne]; [done|].
  rewrite decide_False; [done|]. intros Hc. by apply foldCase_percent in Hc.
Qed.

Lemma rangeOf_length {A} (l : list A) (start stop : Z) :
  (0 ≤ start)%Z → (0 ≤ stop)%Z →
  (length (rangeOf l start stop) ≤ Z.to_nat (stop - start + 1))%nat.
Proof.
  intros Hstart Hstop. unfold rangeOf.
  replace (Z.ltb start 0) with false by (symmetry; apply Z.ltb_ge; lia).
  replace (Z.ltb stop 0) with false by (symmetry; apply Z.ltb_ge; lia).
  destruct (Z.ltb _ _); [simpl; lia|]. rewrite length_take. lia.
Qed.

Lemma omap_length_le {A B} (f : A → option B) (l : list A) :
  (length (omap f l) ≤ length l)%nat.
Proof.
  induction l as [|x l IH]; csimpl; [done|]. destruct (f x); simpl; lia.
Qed.

Lemma News_find_length filter limit offset w :
  ∃ page, News_find filter limit offset w = (Ok page, w) ∧
    ((0 < limit)%nat → (length page ≤ limit)%nat) ∧
    ∀ d, d ∈ page → d ∈ collection w ∧ filter d = true.
Proof.
  eexists. split; [reflexivity|]. split.
  - intros Hl. destruct limit; [lia|]. simpl limitTo. rewrite length_take. lia.
  - by apply (News_find_members filter limit offset w).
Qed.

(** A latest read leaves the state as it is, and its page has at most
    [limit] entries. *)
Lemma getLatestNews_reads limit offset w r w' :
  getLatestNews limit offset w = (r, w') →
  w' = w ∧ ∀ page, r = Ok page → (0 < limit)%nat → (length page ≤ limit)%nat.
Proof.
  destruct (News_find_length isActive limit offset w) as (page0 & Hfind & Hlen & _).
  destruct (redisClient w) as [[[] r0]|] eqn:Hc.
  - rewrite (getLatestNews_through_cache _ _ _ _ Hc).
    destruct (Nat.ltb _ _).
    + intros [= <- <-]. split; [done|]. intros page [= <-] Hl.
      unfold validNews. etrans; [apply omap_length_le|].
      unfold cachedIds. etrans; [apply rangeOf_length; lia|]. lia.
    + rewrite Hfind. intros [= <- <-]. split; [done|]. by intros page [= <-].
  - destruct w as [c n rc s e]. simpl in Hc. subst rc.
    unfold getLatestNews, latestFromCache, getRedisClient, tryCatch, mbind, M_bind.
    simpl. intros [= <- <-]. split; [done|]. by intros page.
  - destruct w as [c n rc s e]. simpl in Hc. subst rc.
    unfold getLatestNews, latestFromCache, getRedisClient, tryCatch, mbind, M_bind.
    simpl. intros [= <- <-]. split; [done|]. intros page [= <-] Hl.
    apply Hlen in Hl. unfold News_find in Hfind. simpl in Hfind.
    injection Hfind as Hpage. by rewrite Hpage.
Qed.

Lemma getNewsByCategory_reads category limit offset w :
  ∃ page, getNewsByCategory category limit offset w = (Ok page, w) ∧
    ((0 < limit)%nat → (length page ≤ limit)%nat) ∧
    ∀ d, d ∈ page →
      d ∈ collection w ∧ doc_category d = category ∧ isActive d = true.
Proof.
  destruct (News_find_length
              (λ d, bool_decide (doc_category d = category) && isActive d)
              limit offset w) as (page & Hfind & Hlen & Hin).
  exists page. unfold getNewsByCategory, tryCatch. rewrite Hfind.
  split; [done|]. split; [done|].
  intros d Hd. destruct (Hin d Hd) as [Hc Hf].
  apply andb_true_iff in Hf as [Hcat Hact].
  apply bool_decide_eq_true in Hcat. done.
Qed.

Section RouterFacts.
Variable toNumber : string → JoiNumber.
Variable percentDecode : string → option string.
Variable searchNews : string → nat → nat → M (list NewsDoc).

Lemma joiInteger_bounds min max dflt v z :
  joiInteger toNumber min max dflt v = Some z →
  (min ≤ dflt)%Z → (∀ m, max = Some m → dflt ≤ m)%Z →
  (min ≤ z)%Z ∧ (∀ m, max = Some m → z ≤ m)%Z ∧ (v = None → z = dflt).
Proof.
  unfold joiInteger. intros Hv Hmin Hmax.
  destruct v as [[s|]|]; [| done |].
  - destruct (toNumber s) as [z'| |]; [|done..].
    destruct (_ && _) eqn:Hb; [|done]. injection Hv as <-.
    apply andb_true_iff in Hb as [H1 H2]. apply Z.leb_le in H1.
    split; [done|]. split; [|done].
    intros m ->. simpl in H2. by apply Z.leb_le in H2.
  - injection Hv as <-. split; [done|]. split; [|done]. intros m Hm. by apply Hmax.
Qed.

Lemma validateQuery_bounds_limit (query : list (string * QueryValue)) value :
  validateQuery toNumber query = Some value → (1 ≤ q_limit value ≤ 100)%Z.
Proof.
  unfold validateQuery. intros Hv.
  destruct (joiInteger _ 1%Z _ _ _) as [limit|] eqn:Hlimit; [|done].
  destruct (joiInteger _ 0%Z _ _ _) as [offset|]; [|done].
  destruct (joiCategory _) as [category|]; [|done].
  destruct (joiQ _) as [q|]; [|done].
  simpl in Hv. destruct (forallb _ _); [|done]. injection Hv as <-. simpl.
  apply joiInteger_bounds in Hlimit as (Hl1 & Hl2 & _); [|lia|by intros m [= <-]].
  specialize (Hl2 100%Z eq_refl). lia.
Qed.

(** X17.  What passes the schema.  A query that [querySchema] accepts has a
    limit from 1 to 100, which is 20 when the query gives none, an offset of
    at least 0, which is 0 when the query gives none, a category, if any, of
    the nine topics, a search text, if any, of 2 to 100 characters, and no
    key besides limit, offset, category and q. *)
Theorem validateQuery_bounds (query : list (string * QueryValue)) (value : QueryParams) :
  validateQuery toNumber query = Some value →
  (1 ≤ q_limit value ≤ 100)%Z ∧
  (queryGet query "limit" = None → q_limit value = 20%Z) ∧
  (0 ≤ q_offset value)%Z ∧
  (queryGet query "offset" = None → q_offset value = 0%Z) ∧
  (∀ c, q_category value = Some c →
     c ∈ categoryEnum ∧ queryGet query "category" = Some (QString c)) ∧
  (∀ s, q_q value = Some s →
     (2 ≤ String.length s ≤ 100)%nat ∧ queryGet query "q" = Some (QString s)) ∧
  (∀ k v, (k, v) ∈ query → k ∈ queryKeys).
Proof.
  unfold validateQuery. intros Hv.
  destruct (joiInteger _ 1%Z _ _ _) as [limit|] eqn:Hlimit; [|done].
  destruct (joiInteger _ 0%Z _ _ _) as [offset|] eqn:Hoffset; [|done].
  destruct (joiCategory _) as [category|] eqn:Hcat; [|done].
  destruct (joiQ _) as [q|] eqn:Hq; [|done].
  simpl in Hv. destruct (forallb _ _) eqn:Hkeys; [|done]. injection Hv as <-. simpl.
  apply joiInteger_bounds in Hlimit as (Hl1 & Hl2 & Hl3); [|lia|by intros m [= <-]].
  apply joiInteger_bounds in Hoffset as (Ho1 & _ & Ho3); [|lia|done].
  specialize (Hl2 100%Z eq_refl).
  split; [lia|]. split; [done|]. split; [done|]. split; [done|].
  split; [|split].
  - intros c ->. unfold joiCategory in Hcat.
    destruct (queryGet query "category") as [[s|]|]; [|done..].
    case_bool_decide; [|done]. by injection Hcat as ->.
  - intros s ->. unfold joiQ in Hq.
    destruct (queryGet query "q") as [[s'|]|]; [|done..].
    destruct (_ && _) eqn:Hb; [|done]. injection Hq as ->.
    apply andb_true_iff in Hb as [H1 H2].
    apply Nat.leb_le in H1, H2. done.
  - intros k v Hin. rewrite forallb_forall in Hkeys.
    apply list_elem_of_In in Hin. apply Hkeys in Hin.
    by apply bool_decide_eq_true in Hin.
Qed.

Lemma categoryRoute_refuses category query w :
  category ∉ categoryEnum →
  categoryRoute toNumber category query w =
    (Ok {| status := 400; body := JoiMessage |}, w).
Proof.
  intros Hc. unfold categoryRoute, tryCatch, validateQuery, withCategory.
  rewrite (queryGet_Map_set query "category").
  unfold joiCategory. rewrite bool_decide_eq_false_2 by done.
  destruct (joiInteger _ 1%Z _ _ _); [|done].
  destruct (joiInteger _ 0%Z _ _ _); done.
Qed.

Lemma foldCases_search seg : foldCases seg = foldCases "search" → seg ∉ categoryEnum.
Proof.
  intros Hseg Hin. unfold categoryEnum in Hin. rewrite !elem_of_cons in Hin.
  repeat (destruct Hin as [->|Hin]; [vm_compute in Hseg; discriminate Hseg|]).
  inversion Hin.
Qed.

Lemma dispatch_not_search method path : dispatch percentDecode method path ≠ ToSearch.
Proof.
  unfold dispatch, matchLiteral, matchParam.
  destruct method; try done;
    (destruct (segmentOf path) as [seg|]; [|done];
     case_bool_decide; [done|]; by destruct (decodeParam _ _)).
Qed.

(** X16.  The search route is out of reach.  No request is dispatched to
    the handler registered for [/search]: the layer of [/:category] is
    registered before it and takes every path of one segment.  A GET or
    HEAD request for [/search], in any case and with or without a trailing
    slash, is answered by the category handler with status 400 and a
    validation message, whatever its query, and leaves the state as it
    is. *)
Theorem search_route_out_of_reach :
  (∀ method path, dispatch percentDecode method path ≠ ToSearch) ∧
  (∀ method path query w,
     method ∈ [GET; HEAD] → matchLiteral "search" path = true →
     dispatch percentDecode method path = ToCategory (default "" (matchParam path)) ∧
     ∃ m, newsRouter toNumber percentDecode searchNews method path query = Some m ∧
          m w = (Ok {| status := 400; body := JoiMessage |}, w)).
Proof.
  split; [apply dispatch_not_search|].
  intros method path query w Hmethod Hsearch.
  unfold newsRouter, dispatch, matchLiteral, matchParam in *.
  destruct (segmentOf path) as [seg|]; [|done].
  apply bool_decide_eq_true in Hsearch.
  assert (hasPercent seg = false) as Hpct
    by (by rewrite <- hasPercent_foldCases, Hsearch).
  assert (foldCases seg ≠ foldCases "latest") as Hlatest
    by (rewrite Hsearch; vm_compute; discriminate).
  rewrite bool_decide_eq_false_2 by done.
  unfold decodeParam. rewrite Hpct. simpl default.
  apply elem_of_cons in Hmethod as [->|Hmethod];
    [|apply list_elem_of_singleton in Hmethod as ->].
  - split; [done|]. eexists. split; [reflexivity|].
    apply categoryRoute_refuses. by apply foldCases_search.
  - split; [done|]. eexists. split; [reflexivity|].
    apply categoryRoute_refuses. by apply foldCases_search.
Qed.

(** X18.  The router reads only.  Every request that a layer of the router
    takes is answered and leaves the store, the cache and the socket as
    they are.  The answer has status 200, 400 or 500; a 200 answer carries a
    page with a limit from 1 to 100 and at most that many articles, and its
    total is the number of articles on the page. *)
Theorem newsRouter_answers (method : Method) (path : string)
    (query : list (string * QueryValue)) (m : M Response) (w : World) :
  newsRouter toNumber percentDecode searchNews method path query = Some m →
  ∃ r, m w = (Ok r, w) ∧
    ((status r = 200 ∧
      ∃ data limit offset,
        body r = NewsPage data limit offset (length data) ∧
        (1 ≤ limit ≤ 100)%nat ∧ (length data ≤ limit)%nat) ∨
     (status r = 400 ∧ body r = JoiMessage) ∨
     (status r = 500 ∧ ∃ message, body r = ErrorBody message)).
Proof.
  unfold newsRouter.
  destruct (dispatch percentDecode method path) as [|category| | |] eqn:Hd.
  - intros [= <-]. unfold latestRoute, tryCatch.
    destruct (validateQuery toNumber query) as [value|] eqn:Hv.
    + apply validateQuery_bounds_limit in Hv.
      unfold mbind, M_bind.
      destruct (getLatestNews _ _ w) as [[news|e] w1] eqn:Hget;
        apply getLatestNews_reads in Hget as [-> Hlen].
      * eexists. split; [reflexivity|]. left. split; [done|].
        eexists _, _, _. split; [reflexivity|]. split; [lia|].
        apply Hlen; [done|lia].
      * eexists. split; [reflexivity|]. right. right. split; [done|]. by eexists.
    + eexists. split; [reflexivity|]. right. by left.
  - intros [= <-]. unfold categoryRoute, tryCatch.
    destruct (validateQuery toNumber _) as [value|] eqn:Hv.
    + apply validateQuery_bounds_limit in Hv.
      unfold mbind, M_bind.
      destruct (getNewsByCategory_reads category (Z.to_nat (q_limit value))
                  (Z.to_nat (q_offset value)) w) as (page & -> & Hlen & _).
      eexists. split; [reflexivity|]. left. split; [done|].
      eexists _, _, _. split; [reflexivity|]. split; [lia|]. apply Hlen. lia.
    + eexists. split; [reflexivity|]. right. by left.
  - by apply dispatch_not_search in Hd.
  - intros [= <-]. eexists. split; [reflexivity|]. right. right.
    split; [done|]. by eexists.
  - done.
Qed.

(** X19.  A page of a topic.  When the category handler answers 200, the
    segment of the path is one of the nine topics, and every article of the
    page is stored, active and of that topic. *)
Theorem categoryRoute_page (category : string) (query : list (string * QueryValue))
    (w w' : World) (r : Response) :
  categoryRoute toNumber category query w = (Ok r, w') →
  status r = 200 →
  category ∈ categoryEnum ∧
  ∃ data limit offset,
    body r = NewsPage data limit offset (length data) ∧
    ∀ d, d ∈ data →
      d ∈ collection w ∧ doc_category d = category ∧ isActive d = true.
Proof.
  intros Hrun Hstatus.
  destruct (decide (category ∈ categoryEnum)) as [Hc|Hc].
  2: { rewrite categoryRoute_refuses in Hrun by done.
       injection Hrun as <- <-. done. }
  split; [done|]. revert Hrun. unfold categoryRoute, tryCatch.
  destruct (validateQuery toNumber _) as [value|].
  - unfold mbind, M_bind.
    destruct (getNewsByCategory_reads category (Z.to_nat (q_limit value))
                (Z.to_nat (q_offset value)) w) as (page & -> & _ & Hin).
    intros [= <- <-]. by eexists _, _, _.
  - intros [= <- <-]. done.
Qed.

End RouterFacts.

(** A request for five articles of the topic sports passes the schema. *)
Lemma validateQuery_bounds_witness :
  ∃ value,
    validateQuery Scenarios.decimal
      [("limit", QString "5"); ("category", QString "sports")] = Some value ∧
    (1 ≤ q_limit value ≤ 100)%Z ∧
    (queryGet [("limit", QString "5"); ("category", QString "sports")] "limit" = None →
     q_limit value = 20%Z) ∧
    (0 ≤ q_offset value)%Z ∧
    (queryGet [("limit", QString "5"); ("category", QString "sports")] "offset" = None →
     q_offset value = 0%Z) ∧
    (∀ c, q_category value = Some c →
       c ∈ categoryEnum ∧
       queryGet [("limit", QString "5"); ("category", QString "sports")] "category"
         = Some (QString c)) ∧
    (∀ s, q_q value = Some s →
       (2 ≤ String.length s ≤ 100)%nat ∧
       queryGet [("limit", QString "5"); ("category", QString "sports")] "q"
         = Some (QString s)) ∧
    (∀ k v, (k, v) ∈ [("limit", QString "5"); ("category", QString "sports")] →
       k ∈ queryKeys).
Proof.
  exists {| q_limit := 5; q_offset := 0; q_category := Some "sports"; q_q := None |}.
  split; [reflexivity|].
  apply (validateQuery_bounds Scenarios.decimal
           [("limit", QString "5"); ("category", QString "sports")]).
  reflexivity.
Defined.

(** GET [/latest] without a query on three stored articles. *)
Lemma newsRouter_answers_witness :
  newsRouter Scenarios.decimal Scenarios.noDecode Scenarios.noSearch GET "/latest" []
    = Some (latestRoute Scenarios.decimal []) ∧
  ∃ r, latestRoute Scenarios.decimal [] Scenarios.threeStored
         = (Ok r, Scenarios.threeStored) ∧
    ((status r = 200 ∧
      ∃ data limit offset,
        body r = NewsPage data limit offset (length data) ∧
        (1 ≤ limit ≤ 100)%nat ∧ (length data ≤ limit)%nat) ∨
     (status r = 400 ∧ body r = JoiMessage) ∨
     (status r = 500 ∧ ∃ message, body r = ErrorBody message)).
Proof.
  split; [reflexivity|].
  apply (newsRouter_answers Scenarios.decimal Scenarios.noDecode Scenarios.noSearch
           GET "/latest" [] (latestRoute Scenarios.decimal []) Scenarios.threeStored).
  reflexivity.
Defined.

(** GET [/politics] without a query on three stored articles of that
    topic. *)
Lemma categoryRoute_page_witness :
  ∃ r,
    categoryRoute Scenarios.decimal "politics" [] Scenarios.threeStored
      = (Ok r, Scenarios.threeStored) ∧
    status r = 200 ∧
    "politics" ∈ categoryEnum ∧
    ∃ data limit offset,
      body r = NewsPage data limit offset (length data) ∧
      ∀ d, d ∈ data →
        d ∈ collection Scenarios.threeStored ∧
        doc_category d = "politics" ∧ isActive d = true.
Proof.
  eexists. split; [reflexivity|]. split; [reflexivity|].
  apply (categoryRoute_page Scenarios.decimal "politics" []
           Scenarios.threeStored Scenarios.threeStored); reflexivity.
Defined.

(** ** The rooms of a socket *)

Lemma roomOf_inj c c' : roomOf c = roomOf c' → c = c'.
Proof. unfold roomOf. simpl. intros [= Heq]. exact Heq. Qed.

Lemma joined_rooms (categories : list string) (rooms : gset string) room :
  room ∈ foldl (λ joined category, joined ∪ {[roomOf category]}) rooms categories ↔
  room ∈ rooms ∨ ∃ c, c ∈ categories ∧ room = roomOf c.
Proof.
  revert rooms. induction categories as [|c categories IH]; intros rooms; simpl.
  - split; [by left|]. intros [?|(c & Hc & _)]; [done|inversion Hc].
  - rewrite IH, elem_of_union, elem_of_singleton. split.
    + intros [[? | ->] | (c' & Hc' & ->)]; [by left| |].
      * right. exists c. split; [left|done].
      * right. exists c'. split; [by right|done].
    + intros [?|(c' & Hc' & ->)]; [by left; left|].
      apply elem_of_cons in Hc' as [->|Hc']; [by left; right|].
      right. by exists c'.
Qed.



Lemma filter_reaches_fmap (rooms : gset string) (newsItems : list NewsDoc) :
  List.filter (reaches rooms)
    ((λ newsItem, CategoryUpdate ("category:" +:+ doc_category newsItem) newsItem)
       <$> newsItems) =
  (λ newsItem, CategoryUpdate (roomOf (doc_category newsItem)) newsItem)
    <$> List.filter (λ newsItem, bool_decide (roomOf (doc_category newsItem) ∈ rooms))
          newsItems.
Proof.
  induction newsItems as [|d newsItems IH]; [done|].
  rewrite fmap_cons. simpl List.filter. rewrite IH.
  change ("category:" +:+ doc_category d) with (roomOf (doc_category d)).
  by destruct (bool_decide _).
Qed.

(** X21.  What a subscriber gets.  When the socket server delivers, a
    socket that subscribed to an array of categories gets of one call of
    [broadcastNews] the update with the whole batch and then, in the order
    of the batch, one category update for each article whose category is in
    the array or whose room the socket was in before: such an article
    reaches it twice. *)
Theorem subscriber_feed (categories : list string) (rooms rooms' : gset string)
    (newsItems : list NewsDoc) (w : World) (server : SocketServer) :
  onSubscribe (WithCategories categories) rooms = Ok rooms' →
  io w = Some server → (∀ e, delivers server e = true) →
  ∃ w' sent,
    broadcastNews newsItems w = (Ok tt, w') ∧
    emitted w' = emitted w ++ sent ∧
    List.filter (reaches rooms') sent =
      NewsUpdate newsItems (length newsItems) ::
      ((λ newsItem, CategoryUpdate (roomOf (doc_category newsItem)) newsItem)
         <$> List.filter
               (λ newsItem, bool_decide (doc_category newsItem ∈ categories ∨
                                         roomOf (doc_category newsItem) ∈ rooms))
               newsItems).
Proof.
  intros [= <-] Hio Hdel.
  destruct (broadcastNews_sent newsItems w) as (w' & sent & Hrun & Hlog & _ & _ & Hall).
  exists w', sent. split; [done|]. split; [done|].
  rewrite (Hall server Hio Hdel). unfold announcements.
  simpl List.filter. f_equal. rewrite filter_reaches_fmap. f_equal.
  apply List.filter_ext. intros d. apply bool_decide_ext.
  rewrite joined_rooms. split.
  - intros [?|(c & Hc & Heq)]; [by right|]. apply roomOf_inj in Heq as ->. by left.
  - intros [?|?]; [|by left]. right. by eexists.
Qed.

(** A socket that subscribed to politics, and a batch of three articles of
    that topic. *)
Lemma subscriber_feed_witness :
  ∃ rooms' w' sent,
    onSubscribe (WithCategories ["politics"]) ∅ = Ok rooms' ∧
    broadcastNews (Samples.politicsDocs 3) Scenarios.threeStored = (Ok tt, w') ∧
    emitted w' = emitted Scenarios.threeStored ++ sent ∧
    List.filter (reaches rooms') sent =
      NewsUpdate (Samples.politicsDocs 3) (length (Samples.politicsDocs 3)) ::
      ((λ newsItem, CategoryUpdate (roomOf (doc_category newsItem)) newsItem)
         <$> List.filter
               (λ newsItem, bool_decide (doc_category newsItem ∈ ["politics"] ∨
                                         roomOf (doc_category newsItem) ∈ (∅ : gset string)))
               (Samples.politicsDocs 3)).
Proof.
  eexists.
  destruct (subscriber_feed ["politics"] ∅ _ (Samples.politicsDocs 3)
              Scenarios.threeStored {| delivers := λ _, true |}
              eq_refl eq_refl (λ _, eq_refl)) as (w' & sent & H1 & H2 & H3).
  exists w', sent. split; [reflexivity|]. split; [exact H1|]. split; [exact H2|exact H3].
Defined.
